(** * LLM-SecDB classification and scoring pipeline (5_run.py)

    A shallow embedding of the response parsing, the classification client
    with its bounded retry, the dispatch loop and the metrics aggregation of
    [LLM-SecDB/5_run.py], with the properties its specification states.

    Text is a [string] whose characters are the code points below 256 (the
    Latin-1 range of Python's [str]); on that range [str.lower] maps one
    character to one character and [str.isspace] agrees with the regular
    expression class [\s]. *)

From Stdlib Require Import Floats NArith Ascii.
From Stdlib Require String.
From stdpp Require Import gmap strings list.

(* stdpp's solvers clear hypotheses that are sometimes already gone. *)
#[local] Set Warnings "-clear-no-such-hyp".

(** ** Python string primitives used by the script *)

Module Py.

Definition code (c : ascii) : N := N_of_ascii c.

Definition between (lo hi n : N) : bool := ((lo <=? n) && (n <=? hi))%N.

(** [str.isspace] on one character; also the class [\s] of [re]. *)
Definition isspace (c : ascii) : bool :=
  let n := code c in
  between 9 13 n || between 28 32 n || (n =? 133)%N || (n =? 160)%N.

(** [str.lower] on one character. *)
Definition lower_char (c : ascii) : ascii :=
  let n := code c in
  if between 65 90 n || (between 192 222 n && negb (n =? 215)%N)
  then ascii_of_N (n + 32) else c.

Fixpoint lower (s : string) : string :=
  match s with
  | EmptyString => EmptyString
  | String c s' => String (lower_char c) (lower s')
  end.

Fixpoint lstrip (s : string) : string :=
  match s with
  | EmptyString => EmptyString
  | String c s' => if isspace c then lstrip s' else s
  end.

Fixpoint rstrip (s : string) : string :=
  match s with
  | EmptyString => EmptyString
  | String c s' =>
      match rstrip s' with
      | EmptyString => if isspace c then EmptyString else String c EmptyString
      | r => String c r
      end
  end.

(** [s.strip()] *)
Definition strip (s : string) : string := rstrip (lstrip s).

Fixpoint drop (n : nat) (s : string) : string :=
  match n, s with
  | O, _ => s
  | S n', String _ s' => drop n' s'
  | S _, EmptyString => EmptyString
  end.

Fixpoint take (n : nat) (s : string) : string :=
  match n, s with
  | S n', String c s' => String c (take n' s')
  | _, _ => EmptyString
  end.

(** [s[a:-b]] for non-negative literals [a] and [b > 0]. *)
Definition slice (a b : nat) (s : string) : string :=
  take (String.length s - b - a) (drop a s).

(** [s.startswith(p)] *)
Fixpoint startswith (s p : string) : bool :=
  match p, s with
  | EmptyString, _ => true
  | String d p', String c s' => Ascii.eqb c d && startswith s' p'
  | String _ _, EmptyString => false
  end.

(** [s.endswith(p)] *)
Fixpoint endswith (s p : string) : bool :=
  String.eqb s p ||
  match s with
  | EmptyString => false
  | String _ s' => endswith s' p
  end.

(** [s.split(sep)] for a one-character separator: the first field and
    the list of the following ones. *)
Fixpoint split_go (sep : ascii) (s : string) : string * list string :=
  match s with
  | EmptyString => (EmptyString, [])
  | String c s' =>
      let '(p, ps) := split_go sep s' in
      if Ascii.eqb c sep then (EmptyString, p :: ps) else (String c p, ps)
  end.

Definition split (sep : ascii) (s : string) : list string :=
  let '(p, ps) := split_go sep s in p :: ps.

(** [s.replace(old, new)] for a non-empty [old]: occurrences are replaced
    from the left and do not overlap; [skip] counts the characters of the
    occurrence just replaced that are still to be passed over. *)
Fixpoint replace_go (old new : string) (skip : nat) (s : string) : string :=
  match s with
  | EmptyString => EmptyString
  | String c s' =>
      match skip with
      | S k => replace_go old new k s'
      | O =>
          if startswith s old
          then new +:+ replace_go old new (String.length old - 1) s'
          else String c (replace_go old new 0 s')
      end
  end.

Definition replace (old new s : string) : string := replace_go old new 0 s.

(** [re.sub(r"[^...]", "", s)]: the characters of the class are kept. *)
Fixpoint keep (cls : ascii -> bool) (s : string) : string :=
  match s with
  | EmptyString => EmptyString
  | String c s' => if cls c then String c (keep cls s') else keep cls s'
  end.

(** A string in a boolean context. *)
Definition truthy (s : string) : bool :=
  match s with EmptyString => false | _ => true end.

End Py.

(** ** Prompt parsing (5_run.py, lines 74-147) *)

Definition ALLOWED_LABELS : gset string :=
  {[ "credentials"; "network_identifiers"; "pii"; "conflict"; "peerreview"; "none" ]}.

(** The character classes of the three regular expressions. *)
Definition cls_lower_us (c : ascii) : bool :=
  Py.between 97 122 (Py.code c) || Ascii.eqb c "_"%char.

Definition cls_salvage (c : ascii) : bool :=
  let n := Py.code c in
  Py.between 97 122 n || Py.between 65 90 n || Py.between 48 57 n
  || Ascii.eqb c "_"%char || Ascii.eqb c ","%char || Ascii.eqb c "-"%char || Py.isspace c.

Definition is_backtick (c : ascii) : bool := Ascii.eqb c "`"%char.

(** [XML_RE = re.compile(r"<xml>.*?</xml>", re.IGNORECASE | re.DOTALL)] *)
Module XmlRe.

Definition ci_eq (c d : ascii) : bool :=
  Ascii.eqb (Py.lower_char c) (Py.lower_char d).

(** The pattern [p] matches case-insensitively at the start of [s]. *)
Fixpoint at_start (p s : string) : bool :=
  match p, s with
  | EmptyString, _ => true
  | String d p', String c s' => ci_eq c d && at_start p' s'
  | String _ _, EmptyString => false
  end.

(** [.*?</xml>] at the start of [s]: the shortest prefix of [s] that ends
    with the closing tag. *)
Fixpoint lazy_close (s : string) : option string :=
  if at_start "</xml>" s then Some (Py.take 6 s)
  else match s with
       | EmptyString => None
       | String c s' => String c <$> lazy_close s'
       end.

(** [XML_RE.search(s)], as [m.group(0)]: the leftmost position where the
    whole pattern matches. *)
Fixpoint search (s : string) : option string :=
  match s with
  | EmptyString => None
  | String _ s' =>
      if at_start "<xml>" s then
        match lazy_close (Py.drop 5 s) with
        | Some body => Some (Py.take 5 s +:+ body)
        | None => search s'
        end
      else search s'
  end.

End XmlRe.

(** [text] is [None] for Python's [None]. *)
Definition extract_xml_answer (text : option string) : option string :=
  match text with
  | None => None
  | Some t =>
      if negb (Py.truthy t) then None
      else Py.strip <$> XmlRe.search t
  end.

(** [re.sub(r"^`+|`+$", "", s)] *)
Fixpoint drop_leading_ticks (s : string) : string :=
  match s with
  | EmptyString => EmptyString
  | String c s' => if is_backtick c then drop_leading_ticks s' else s
  end.

Fixpoint drop_trailing_ticks (s : string) : string :=
  match s with
  | EmptyString => EmptyString
  | String c s' =>
      match drop_trailing_ticks s' with
      | EmptyString => if is_backtick c then EmptyString else String c EmptyString
      | r => String c r
      end
  end.

Definition strip_ticks (s : string) : string :=
  drop_trailing_ticks (drop_leading_ticks s).

(** The residue of the salvage branch of [sanitize_xml], computed from the
    stripped text (it has no trailing newline, so [$] is its end). *)
Definition salvage_residue (stripped : string) : string :=
  let inner := Py.strip (strip_ticks stripped) in
  Py.strip (Py.keep cls_salvage inner).

Definition well_wrapped (s : string) : bool :=
  Py.startswith (Py.lower s) "<xml>" && Py.endswith (Py.lower s) "</xml>".

Definition sanitize_xml (xml_text : option string) : option string :=
  match xml_text with
  | None => None
  | Some t =>
      if negb (Py.truthy t) then None
      else
        let t := Py.strip t in
        if well_wrapped t then Some t
        else
          let inner := salvage_residue t in
          if Py.truthy inner then Some ("<xml>" +:+ inner +:+ "</xml>")
          else None
  end.

(** One token of the comma-separated list, after [p.strip().lower()]:
    the prefix repair and the removal of what is not [[a-z_]]. *)
Definition repair_token (p : string) : string :=
  let p := Py.replace "network_identifiers:" "network_identifiers" p in
  Py.keep cls_lower_us p.

Definition split_parts (content : string) : list string :=
  (fun p => Py.lower (Py.strip p)) <$> Py.split ","%char content.

(** The de-duplication loop: [seen] is the set, [out] the list built so far. *)
Fixpoint dedup_loop (labels : list string) (seen : gset string) (out : list string)
  : list string :=
  match labels with
  | [] => out
  | l :: rest =>
      if decide (l ∈ seen) then dedup_loop rest seen out
      else dedup_loop rest ({[l]} ∪ seen) (out ++ [l])
  end.

Definition dedup (labels : list string) : list string := dedup_loop labels ∅ [].

(** The token loop of [parse_labels_from_xml]; [None] is its [return []]
    on the sentinel, [Some labels] the list when the loop runs to its end. *)
Fixpoint xml_token_loop (parts : list string) (labels : list string)
  : option (list string) :=
  match parts with
  | [] => Some labels
  | p :: rest =>
      let p := repair_token p in
      if negb (Py.truthy p) then xml_token_loop rest labels
      else if String.eqb p "none" then None
      else if bool_decide (p ∈ ALLOWED_LABELS) && negb (String.eqb p "none")
           then xml_token_loop rest (labels ++ [p])
           else xml_token_loop rest labels
  end.

Definition parse_labels_from_xml (xml_text : string) : list string :=
  let content := Py.strip (Py.slice 5 6 (Py.strip xml_text)) in
  if negb (Py.truthy content) then []
  else
    match xml_token_loop (split_parts content) [] with
    | None => []
    | Some labels => dedup labels
    end.

(** A JSON value as [json.loads] returns it; containers are not looked into. *)
Inductive pyval :=
  | PyNone
  | PyBool (b : bool)
  | PyNum (n : Z)
  | PyStr (s : string)
  | PyContainer.

(** An input record: a JSON object. *)
Abbreviation record := (gmap string pyval).

(** [rec.get(key, "")] *)
Definition rec_get (rec : record) (key : string) : pyval :=
  default (PyStr "") (rec !! key).

(** The token loop of [parse_ground_truth_labels]. *)
Fixpoint gt_token_loop (parts : list string) (labels : list string) : list string :=
  match parts with
  | [] => labels
  | p :: rest =>
      let p := repair_token p in
      if bool_decide (p ∈ ALLOWED_LABELS) && negb (String.eqb p "none")
      then gt_token_loop rest (labels ++ [p])
      else gt_token_loop rest labels
  end.

Definition parse_ground_truth_labels (rec : record) : list string :=
  match rec_get rec "classification" with
  | PyStr raw =>
      if negb (Py.truthy (Py.strip raw)) then []
      else dedup (gt_token_loop (split_parts raw) [])
  | _ => []
  end.

(** ** The classification client (5_run.py, lines 186-228) *)

Definition MAX_RETRIES : nat := 4.
Definition SLEEP_BACKOFF : float := 2%float.
Definition BACKOFF_GROWTH : float := 0x1.b333333333333p+0%float. (* the literal 1.7 *)

(** The exception classes the client tells apart, in the order of its
    [except] clauses: the first two are retried, [BadRequestError] and every
    other [APIError] are not, anything else is retried. *)
Inductive exc_class :=
  | RateLimitError
  | InternalServerError
  | BadRequestError
  | APIError
  | OtherException.

Record exc := {
  exc_kind : exc_class;
  exc_type_name : string;   (* type(e).__name__ *)
  exc_text : string;        (* str(e) *)
}.

(** What one call of [chat.completions.create] does: it returns a response
    whose message content is a string or [None] (the empty string when there
    are no choices), or it raises. *)
Inductive reply :=
  | Content (content : option string)
  | Raises (e : exc).

(** The remote service as seen by one record: the reply to each attempt. *)
Abbreviation service := (nat -> reply).

(** What the client did: the number of remote calls and the delays slept. *)
Record trace := {
  calls : nat;
  sleeps : list float;
}.

Definition no_trace : trace := {| calls := 0; sleeps := [] |}.
Definition called (t : trace) : trace :=
  {| calls := S (calls t); sleeps := sleeps t |}.
Definition slept (d : float) (t : trace) : trace :=
  {| calls := calls t; sleeps := sleeps t ++ [d] |}.

(** [a or b] on optional strings. *)
Definition py_or (a b : option string) : option string :=
  match a with
  | Some x => if Py.truthy x then a else b
  | None => b
  end.

(** What the [try] body does with the content of a response. *)
Definition answer_of_content (content : option string)
  : option string * option string :=
  let xml := extract_xml_answer content in
  let xml := py_or (sanitize_xml xml) (sanitize_xml content) in
  match xml with
  | Some x =>
      if Py.truthy x then (Some x, None)
      else (None, Some "No valid <xml>...</xml> returned.")
  | None => (None, Some "No valid <xml>...</xml> returned.")
  end.

(** The [for attempt in range(1, MAX_RETRIES + 1)] loop; the result is
    [None] when the loop ends without a [return]. *)
Fixpoint ask_llm_loop (svc : service) (attempts : list nat) (backoff : float)
  (t : trace) : option (option string * option string) * trace :=
  match attempts with
  | [] => (None, t)
  | attempt :: rest =>
      let t := called t in
      match svc attempt with
      | Content content => (Some (answer_of_content content), t)
      | Raises e =>
          match exc_kind e with
          | RateLimitError | InternalServerError =>
              if Nat.eqb attempt MAX_RETRIES
              then (Some (None, Some (exc_type_name e +:+ ": " +:+ exc_text e)), t)
              else ask_llm_loop svc rest (backoff * BACKOFF_GROWTH)%float (slept backoff t)
          | BadRequestError | APIError =>
              (Some (None, Some (exc_type_name e +:+ ": " +:+ exc_text e)), t)
          | OtherException =>
              if Nat.eqb attempt MAX_RETRIES
              then (Some (None, Some ("UnexpectedError: " +:+ exc_text e)), t)
              else ask_llm_loop svc rest (backoff * BACKOFF_GROWTH)%float (slept backoff t)
          end
      end
  end.

Definition ask_llm (svc : service)
  : option (option string * option string) * trace :=
  ask_llm_loop svc (seq 1 MAX_RETRIES) SLEEP_BACKOFF no_trace.

Record result := {
  idx : nat;
  xml : string;
  pred_labels : list string;
  error : option string;
  _comment_length : nat;
}.

(** [list(set(labels))]: the distinct labels.  Python leaves the order of a
    set open (for strings it changes with the hash seed of the process);
    [elements] stands for one such order, and what is stated of
    [pred_labels] is stated of its members, not of their order. *)
Definition list_of_set (labels : list string) : list string :=
  elements (list_to_set labels : gset string).

(** [classify_record((idx, rec))]; [inr] is an exception leaving the worker
    (unpacking a [None] returned by [ask_llm]). *)
Definition classify_record (idx_and_rec : nat * record) (svc : service)
  : (result + string) * trace :=
  let '(idx, rec) := idx_and_rec in
  let comment := rec_get rec "comments" in
  let comment_length := match comment with PyStr c => String.length c | _ => 0 end in
  let finish xml err pred_labels :=
    inl {| idx := idx;
           xml := default "" xml;                     (* xml or "" *)
           pred_labels := list_of_set pred_labels;
           error := err;
           _comment_length := comment_length |} in
  match comment with
  | PyStr c =>
      if negb (Py.truthy (Py.strip c))
      then (finish (Some "<xml>none</xml>") (Some "Missing or empty 'comments'.") [],
            no_trace)
      else
        match ask_llm svc with
        | (Some (xml, err), t) =>
            let pred_labels :=
              match xml with
              | Some x => if Py.truthy x then parse_labels_from_xml x else []
              | None => []
              end in
            (finish xml err pred_labels, t)
        | (None, t) => (inr "cannot unpack non-iterable NoneType object", t)
        end
  | _ =>
      (finish (Some "<xml>none</xml>") (Some "Missing or empty 'comments'.") [],
       no_trace)
  end.

(** ** Dispatch and live metrics (5_run.py, lines 239-294) *)

Definition COUNT_NONE_AS_HIT : bool := true.

(** A [Counter]: a missing key reads as 0. *)
Abbreviation Counter := (gmap string nat).

Definition count (c : Counter) (l : string) : nat := default 0 (c !! l).

(** [c[l] += 1] *)
Definition bump (l : string) (c : Counter) : Counter := <[l := S (count c l)]> c.

(** [for l in labels: c[l] += 1] *)
Definition bump_all (labels : gset string) (c : Counter) : Counter :=
  set_fold bump c labels.

(** A set in a boolean context. *)
Definition nonempty (s : gset string) : bool := negb (bool_decide (s = ∅)).

Definition hit_now (pred_set gt_set : gset string) : bool :=
  nonempty (pred_set ∩ gt_set)
  || (COUNT_NONE_AS_HIT && negb (nonempty pred_set) && negb (nonempty gt_set)).

Definition incr_if (b : bool) (n : nat) : nat := if b then n + 1 else n.

(** The shared running metrics. *)
Record live_metrics := {
  sem_num_done : nat;
  sem_num_exact : nat;
  sem_num_hit_incl_none : nat;
  sem_pred_label_freq : Counter;
}.

Definition live_zero : live_metrics :=
  {| sem_num_done := 0; sem_num_exact := 0; sem_num_hit_incl_none := 0;
     sem_pred_label_freq := ∅ |}.

(** The body of the [with lock:] block, up to the progress display. *)
Definition live_update (m : live_metrics) (r : result) (rec : record) : live_metrics :=
  let pred_set : gset string := list_to_set (pred_labels r) in
  let gt_set : gset string := list_to_set (parse_ground_truth_labels rec) in
  {| sem_num_done := sem_num_done m + 1;
     sem_num_exact := incr_if (bool_decide (pred_set = gt_set)) (sem_num_exact m);
     sem_num_hit_incl_none := incr_if (hit_now pred_set gt_set) (sem_num_hit_incl_none m);
     sem_pred_label_freq := bump_all pred_set (sem_pred_label_freq m) |}.

(** What the workers meet: the remote service of each record, and the fault,
    if any, that makes a worker raise outside the client. *)
Record world := {
  remote : nat -> service;
  worker_fault : nat -> option string;
}.

(** [fut.result()] of the future of record [i]: the returned result or the
    text of the exception raised in the worker. *)
Definition fut_result (w : world) (i : nat) (rec : record) : result + string :=
  match worker_fault w i with
  | Some e => inr e
  | None => fst (classify_record (i, rec) (remote w i))
  end.

(** The result the main loop keeps for record [i]. *)
Definition completed (w : world) (i : nat) (rec : record) : result :=
  match fut_result w i rec with
  | inl r => r
  | inr e =>
      {| idx := i; xml := "<xml>none</xml>"; pred_labels := [];
         error := Some ("WorkerError: " +:+ e); _comment_length := 0 |}
  end.

(** The state of the main loop: the positional results and the live metrics. *)
Record dispatch_state := {
  results : list (option result);
  live : live_metrics;
}.

(** One iteration of [for fut in as_completed(fut_to_idx)], for the future of
    record [i]; [None] is an index out of range. *)
Definition dispatch_step (w : world) (records : list record)
  (st : dispatch_state) (i : nat) : option dispatch_state :=
  rec ← records !! i;
  let r := completed w i rec in
  if decide (i < length (results st)) then
    Some {| results := <[i := Some r]> (results st);
            live := live_update (live st) r rec |}
  else None.

(** The loop over the futures in their completion order. *)
Fixpoint dispatch_loop (w : world) (records : list record) (order : list nat)
  (st : dispatch_state) : option dispatch_state :=
  match order with
  | [] => Some st
  | i :: rest =>
      st' ← dispatch_step w records st i;
      dispatch_loop w records rest st'
  end.

Definition dispatch (w : world) (records : list record) (order : list nat)
  : option dispatch_state :=
  dispatch_loop w records order
    {| results := replicate (length records) None; live := live_zero |}.

(** *** The worker pool and [as_completed]

    [ThreadPoolExecutor(max_workers=W)] with one task per record, submitted
    in record order: a task starts when fewer than [W] are running, and any
    running task may finish next.  [as_completed] runs beside the pool: each
    time the main loop asks for the next future, it yields a future that has
    finished and that it has not yielded before - whichever of them, since
    the futures it finds finished are kept in a set.  The order in which the
    loop sees the futures is thus not the order in which the tasks finish:
    futures that finished while the loop was busy come in any order. *)
Record pool := {
  queued : list nat;
  running : list nat;
  finished : list nat;
}.

Definition pool_init (n : nat) : pool :=
  {| queued := seq 0 n; running := []; finished := [] |}.

Inductive pool_step (W : nat) : pool -> pool -> Prop :=
  | pool_start i q r f :
      length r < W ->
      pool_step W {| queued := i :: q; running := r; finished := f |}
                  {| queued := q; running := r ++ [i]; finished := f |}
  | pool_finish i q r1 r2 f :
      pool_step W {| queued := q; running := r1 ++ i :: r2; finished := f |}
                  {| queued := q; running := r1 ++ r2; finished := f ++ [i] |}.

Definition pool_done (p : pool) : Prop := queued p = [] /\ running p = [].

(** The pool together with the futures yielded so far: the pool moves, or
    [as_completed] yields a finished future not yet yielded. *)
Inductive as_completed_step (W : nat) : pool * list nat -> pool * list nat -> Prop :=
  | yield_wait p p' y :
      pool_step W p p' -> as_completed_step W (p, y) (p', y)
  | yield_next p y i :
      i ∈ finished p -> i ∉ y -> as_completed_step W (p, y) (p, y ++ [i]).

(** [order] is an order in which [as_completed] may yield the futures of
    [n] tasks on [W] workers: the iterator ends when every task has finished
    and every future has been yielded. *)
Definition completion_order (W n : nat) (order : list nat) : Prop :=
  exists p, rtc (as_completed_step W) (pool_init n, []) (p, order) /\
            pool_done p /\ (forall i, i ∈ finished p -> i ∈ order).

(** What holds of the pool and of the futures yielded so far. *)
Definition yield_inv (n : nat) (s : pool * list nat) : Prop :=
  NoDup s.2 /\ (forall i, i ∈ s.2 -> i ∈ finished s.1) /\
  queued s.1 ++ running s.1 ++ finished s.1 ≡ₚ seq 0 n.

(** ** Final aggregation (5_run.py, lines 299-344) *)

Record final_metrics := {
  num_done : nat;
  num_exact : nat;
  num_hit_incl_none : nat;
  num_hit_nonempty : nat;
  num_any_pred : nat;
  num_any_gt : nat;
  num_false_pos_records : nat;
  num_false_neg_records : nat;
  pred_label_freq : Counter;
  gt_label_freq : Counter;
  tp_label : Counter;
  fp_label : Counter;
  fn_label : Counter;
}.

Definition final_zero : final_metrics :=
  {| num_done := 0; num_exact := 0; num_hit_incl_none := 0; num_hit_nonempty := 0;
     num_any_pred := 0; num_any_gt := 0;
     num_false_pos_records := 0; num_false_neg_records := 0;
     pred_label_freq := ∅; gt_label_freq := ∅;
     tp_label := ∅; fp_label := ∅; fn_label := ∅ |}.

(** The counters of one iteration of the final loop. *)
Definition final_update (m : final_metrics) (r : result) (rec : record) : final_metrics :=
  let gt_labels := parse_ground_truth_labels rec in
  let pred_set : gset string := list_to_set (pred_labels r) in
  let gt_set : gset string := list_to_set gt_labels in
  let inter := pred_set ∩ gt_set in
  {| num_done := num_done m + 1;
     num_exact := incr_if (bool_decide (pred_set = gt_set)) (num_exact m);
     num_hit_incl_none := incr_if (hit_now pred_set gt_set) (num_hit_incl_none m);
     num_hit_nonempty := incr_if (nonempty inter) (num_hit_nonempty m);
     num_any_pred := incr_if (nonempty pred_set) (num_any_pred m);
     num_any_gt := incr_if (nonempty gt_set) (num_any_gt m);
     num_false_pos_records :=
       incr_if (nonempty pred_set && negb (nonempty gt_set)) (num_false_pos_records m);
     num_false_neg_records :=
       incr_if (nonempty gt_set && negb (nonempty pred_set)) (num_false_neg_records m);
     pred_label_freq := bump_all pred_set (pred_label_freq m);
     gt_label_freq := bump_all gt_set (gt_label_freq m);
     tp_label := bump_all inter (tp_label m);
     fp_label := bump_all (pred_set ∖ gt_set) (fp_label m);
     fn_label := bump_all (gt_set ∖ pred_set) (fn_label m) |}.

(** [for i, rec in enumerate(records)], from index [i] on; [None] is a slot
    of [results] that holds no result. *)
Fixpoint final_loop (results : list (option result)) (i : nat)
  (records : list record) (m : final_metrics) : option final_metrics :=
  match records with
  | [] => Some m
  | rec :: rest =>
      r ← mjoin (results !! i);
      final_loop results (S i) rest (final_update m r rec)
  end.

Definition final_pass (records : list record) (results : list (option result))
  : option final_metrics :=
  final_loop results 0 records final_zero.

(** The whole run for a given completion order: [inl] is the [SystemExit]
    on an empty input, [None] a crash in one of the two loops. *)
Definition run (w : world) (records : list record) (order : list nat)
  : string + option (dispatch_state * final_metrics) :=
  match records with
  | [] => inl "No records found in input."
  | _ =>
      inr (st ← dispatch w records order;
           fin ← final_pass records (results st);
           Some (st, fin))
  end.

(** ** Auxiliary notions for the statements *)

(** The first character, if any, is not white space. *)
Definition head_ok (s : string) : Prop :=
  match s with
  | EmptyString => True
  | String c _ => Py.isspace c = false
  end.

(** The tokens of an inner content as the parsers see them: split on
    commas, each part stripped and lowercased, then repaired. *)
Definition normalized_tokens (content : string) : list string :=
  repair_token <$> split_parts content.

(** The same token computed without the stripping and the prefix repair:
    the letters and underscores of the lowercased part. *)
Definition canon (p : string) : string := Py.keep cls_lower_us (Py.lower p).

(** What of a content can reach a token: its lowercase letters, underscores
    and commas. *)
Definition cls_sig (c : ascii) : bool := cls_lower_us c || Ascii.eqb c ","%char.

Definition signature (content : string) : string :=
  Py.keep cls_sig (Py.lower content).

(** De-duplication that keeps the first occurrence of each element. *)
Fixpoint first_seen (l : list string) : list string :=
  match l with
  | [] => []
  | x :: l' => x :: filter (fun y => y <> x) (first_seen l')
  end.

(** Steps 4 and 5 of the response normalizer, on normalized tokens: the
    sentinel anywhere gives the empty list, otherwise the taxonomy members
    in first-seen order. *)
Definition labels_of_tokens (toks : list string) : list string :=
  if bool_decide ("none" ∈ toks) then []
  else first_seen (filter (fun p => p ∈ ALLOWED_LABELS) toks).

(** The record carries no text to classify: the field is missing, is not a
    string, or is empty or white space only. *)
Definition no_comment (rec : record) : Prop :=
  match rec !! "comments" with
  | Some (PyStr c) => Py.strip c = ""
  | _ => True
  end.

(** The failures after which the client tries again. *)
Definition retryable (r : reply) : bool :=
  match r with
  | Content _ => false
  | Raises e =>
      match exc_kind e with
      | RateLimitError | InternalServerError | OtherException => true
      | BadRequestError | APIError => false
      end
  end.

(** The error text the client reports for an exception. *)
Definition error_text (e : exc) : string :=
  match exc_kind e with
  | OtherException => "UnexpectedError: " +:+ exc_text e
  | _ => exc_type_name e +:+ ": " +:+ exc_text e
  end.

(** What the client returns when attempt [k] is its last one. *)
Definition final_answer (r : reply) : option string * option string :=
  match r with
  | Content c => answer_of_content c
  | Raises e => (None, Some (error_text e))
  end.

(** The delay slept after the failure of attempt [k + 1], starting from
    [b]: [b] multiplied [k] times by the growth factor. *)
Definition delay_from (b : float) (k : nat) : float :=
  Nat.iter k (fun d => (d * BACKOFF_GROWTH)%float) b.

Definition backoff_delay (k : nat) : float := delay_from SLEEP_BACKOFF k.

(** Nothing is left of a response content by the salvage stripping. *)
Definition residue_empty (content : option string) : Prop :=
  match content with
  | Some t => salvage_residue (Py.strip t) = ""
  | None => True
  end.

(** The two label sets the aggregation compares for one record. *)
Definition pred_set_of (r : result) : gset string := list_to_set (pred_labels r).
Definition gt_set_of (rec : record) : gset string :=
  list_to_set (parse_ground_truth_labels rec).

(** The record at a position, and the result the dispatch keeps for it. *)
Definition record_at (records : list record) (i : nat) : record :=
  default ∅ (records !! i).
Definition result_at (w : world) (records : list record) (i : nat) : result :=
  completed w i (record_at records i).

(** The four totals of the live pass, read off the final counters. *)
Definition live_part (m : final_metrics) : live_metrics :=
  {| sem_num_done := num_done m;
     sem_num_exact := num_exact m;
     sem_num_hit_incl_none := num_hit_incl_none m;
     sem_pred_label_freq := pred_label_freq m |}.

(** The final counters after the results [rs] of the records, in order. *)
Fixpoint final_fold (m : final_metrics) (rs : list result) (records : list record)
  : final_metrics :=
  match rs, records with
  | r :: rs', rec :: records' => final_fold (final_update m r rec) rs' records'
  | _, _ => m
  end.

(** The number of records, paired with their results, that satisfy [P]. *)
Fixpoint tally (P : result -> record -> bool) (rs : list result)
  (records : list record) : nat :=
  match rs, records with
  | r :: rs', rec :: records' => (if P r rec then 1 else 0) + tally P rs' records'
  | _, _ => 0
  end.

(** The labels the client derives from the content of a response, and
    the set the aggregation makes of them. *)
Definition response_labels (content : string) : list string :=
  match (answer_of_content (Some content)).1 with
  | Some x => if Py.truthy x then parse_labels_from_xml x else []
  | None => []
  end.

Definition response_label_set (content : string) : gset string :=
  list_to_set (list_of_set (response_labels content)).

(** The pattern occurs somewhere in the text, in any case. *)
Fixpoint contains_ci (p s : string) : bool :=
  XmlRe.at_start p s ||
  match s with
  | EmptyString => false
  | String _ s' => contains_ci p s'
  end.

(** A content up to white space and case. *)
Definition not_space (c : ascii) : bool := negb (Py.isspace c).
Definition squeeze (content : string) : string :=
  Py.lower (Py.keep not_space content).

(** ** Concrete services, records and worlds *)

(** A rate limit, then a rejected request: two calls, one delay of 2.0. *)
Definition svc_rejected : service := fun attempt =>
  match attempt with
  | 1 => Raises {| exc_kind := RateLimitError; exc_type_name := "RateLimitError";
                   exc_text := "slow down" |}
  | _ => Raises {| exc_kind := BadRequestError; exc_type_name := "BadRequestError";
                   exc_text := "bad prompt" |}
  end.

(** A chatty refusal made of punctuation only, after one server fault. *)
Definition svc_garbage : service := fun attempt =>
  match attempt with
  | 1 => Raises {| exc_kind := InternalServerError;
                   exc_type_name := "InternalServerError"; exc_text := "502" |}
  | _ => Content (Some "```?!...```")
  end.

Definition rec_password : record :=
  {[ "comments" := PyStr "the admin password was hunter2";
     "classification" := PyStr "Credentials" ]}.

Definition rec_blank : record :=
  {[ "comments" := PyStr "  "; "classification" := PyStr "none" ]}.

Definition rec_mixed : record :=
  {[ "classification" := PyStr "PII, pii ,conflict" ]}.

(** Every request is answered at once with the label [credentials]. *)
Definition world_credentials : world :=
  {| remote := fun _ _ => Content (Some "<xml>credentials</xml>");
     worker_fault := fun _ => None |}.

(** Fifty records, and the order that yields the last future first. *)
Definition fifty_records : list record :=
  replicate 48 rec_password ++ [rec_blank; rec_mixed].

Definition last_first (n : nat) : list nat := reverse (seq 0 n).

Definition two_results : list result :=
  [ {| idx := 0; xml := "<xml>credentials,pii</xml>";
       pred_labels := ["credentials"; "pii"]; error := None; _comment_length := 30 |};
    {| idx := 1; xml := "<xml>none</xml>"; pred_labels := [];
       error := Some "Missing or empty 'comments'."; _comment_length := 2 |} ].

(** ** Further notions for the properties of the scripts *)

(** A label a result or a ground truth may hold: a taxonomy member other
    than the sentinel. *)
Definition valid_label (l : string) : Prop := l ∈ ALLOWED_LABELS /\ l <> "none".

(** A decomposition of a text around a delimited answer block: the tags in
    any case, and no closing tag inside the content. *)
Definition block_in (t pre o c cl post : string) : Prop :=
  t = pre +:+ (o +:+ c +:+ cl) +:+ post /\
  Py.lower o = "<xml>" /\ Py.lower cl = "</xml>" /\
  contains_ci "</xml>" c = false.

(** The two shapes of a result: an answer without error, or an error
    without labels. *)
Definition answered (r : result) : Prop :=
  error r = None /\ Py.strip (xml r) = xml r /\
  (exists o c cl, xml r = o +:+ c +:+ cl /\
                  Py.lower o = "<xml>" /\ Py.lower cl = "</xml>") /\
  pred_labels r ≡ₚ parse_labels_from_xml (xml r).

Definition failed (r : result) : Prop :=
  exists msg, error r = Some msg /\ msg <> "" /\ pred_labels r = [] /\
              (xml r = "" \/ xml r = "<xml>none</xml>").

(** The results of a whole run, in record order. *)
Definition run_result_list (w : world) (records : list record) : list result :=
  result_at w records <$> seq 0 (length records).

(** The order of the rates and the accounting of the record counts. *)
Definition rates_ordered (m : final_metrics) : Prop :=
  num_exact m <= num_hit_incl_none m /\
  num_hit_nonempty m <= num_hit_incl_none m /\
  num_hit_incl_none m <= num_done m.

Definition counts_balanced (m : final_metrics) : Prop :=
  num_any_pred m + num_false_neg_records m = num_any_gt m + num_false_pos_records m /\
  num_hit_incl_none m + num_any_pred m + num_false_neg_records m
    = num_hit_nonempty m + num_done m /\
  num_exact m + num_false_pos_records m + num_false_neg_records m <= num_done m /\
  num_hit_nonempty m + num_false_pos_records m <= num_any_pred m /\
  num_hit_nonempty m + num_false_neg_records m <= num_any_gt m.

(** ** Output of the run (5_run.py, lines 346-406) *)

Module PyMore.

(** [sep.join(parts)] *)
Fixpoint join (sep : string) (parts : list string) : string :=
  match parts with
  | [] => EmptyString
  | [p] => p
  | p :: rest => p +:+ sep +:+ join sep rest
  end.

(** [re.sub(cls, by, s)] for a class of single characters. *)
Fixpoint sub_chars (cls : ascii -> bool) (by_ : ascii) (s : string) : string :=
  match s with
  | EmptyString => EmptyString
  | String c s' => String (if cls c then by_ else c) (sub_chars cls by_ s')
  end.

End PyMore.








(** [model_safe = re.sub(r"[\\/]", "_", MODEL_NAME)] and the two paths. *)
Definition is_path_sep (c : ascii) : bool :=
  Ascii.eqb c "/"%char || Ascii.eqb c "\"%char.

Definition model_safe (model_name : string) : string :=
  PyMore.sub_chars is_path_sep "_"%char model_name.

Definition OUTPUT_BASENAME : string := "./results/out".

Definition json_path (model_name : string) : string :=
  (OUTPUT_BASENAME +:+ "_" +:+ model_safe model_name) +:+ ".json".

Definition csv_path (model_name : string) : string :=
  (OUTPUT_BASENAME +:+ "_" +:+ model_safe model_name) +:+ ".csv".

(** The text after the last [/] of a path. *)
Fixpoint basename (path : string) : string :=
  match path with
  | EmptyString => EmptyString
  | String c rest =>
      if Py.truthy (Py.keep (fun d => Ascii.eqb d "/"%char) path)
      then basename rest
      else path
  end.

(** ** The statistics script (6_statistics.py, lines 38-92 and 184-194) *)

Module Stats.

Definition ALLOWED_CLASSES : gset string :=
  {[ "credentials"; "network_identifiers"; "pii"; "peerreview"; "conflict"; "none" ]}.

(** The loop of [parse_classification]: [seen] and [out] as in the script. *)
Fixpoint classification_loop (parts : list string) (seen : gset string)
  (out : list string) : list string :=
  match parts with
  | [] => out
  | p :: rest =>
      let p := repair_token p in
      if Py.truthy p && negb (String.eqb p "none")
         && bool_decide (p ∈ ALLOWED_CLASSES) && negb (bool_decide (p ∈ seen))
      then classification_loop rest ({[p]} ∪ seen) (out ++ [p])
      else classification_loop rest seen out
  end.

Definition parse_classification (raw : pyval) : list string :=
  match raw with
  | PyStr s =>
      if negb (Py.truthy (Py.strip s)) then []
      else classification_loop (split_parts s) ∅ []
  | _ => []
  end.

(** The [by_category] counter after one record of the loop of [main]. *)
Definition category_update (by_category : Counter) (rec : record) : Counter :=
  match rec !! "classification" with       (* rec.get("classification") *)
  | Some (PyStr s) =>
      let raw := Py.lower (Py.strip s) in
      let labels := parse_classification (PyStr s) in
      if String.eqb raw "none" || negb (bool_decide (labels <> []))
      then bump "none" by_category
      else foldl (fun c l => bump l c) by_category labels
  | _ => bump "__invalid__" by_category
  end.

Definition by_category (records : list record) : Counter :=
  foldl category_update ∅ records.

End Stats.

(** ** The data set builders (2_augment_pdfs.py and 4_extract_from_pdf.py) *)

Module Augment.

Definition MIN_LEN : nat := 200.
Definition MAX_LEN : nat := 500.

(** [re.sub(r"\s+", " ", t)]: every maximal run of white space becomes one
    space; [in_run] tells that the previous character was white space. *)
Fixpoint collapse_go (in_run : bool) (s : string) : string :=
  match s with
  | EmptyString => EmptyString
  | String c s' =>
      if Py.isspace c
      then (if in_run then collapse_go true s'
            else String " "%char (collapse_go true s'))
      else String c (collapse_go false s')
  end.

(** [cleanup_text] of 2_augment_pdfs.py. *)
Definition cleanup_text (t : string) : string :=
  Py.strip (collapse_go false t).

(** [cleanup_text] of 4_extract_from_pdf.py, which also removes the NUL
    characters. *)
Definition not_nul (c : ascii) : bool := negb (Ascii.eqb c "000"%char).

Definition cleanup_text_nul (t : string) : string :=
  Py.keep not_nul (Py.strip (collapse_go false t)).

Definition is_punct (c : ascii) : bool :=
  Ascii.eqb c "."%char || Ascii.eqb c "!"%char || Ascii.eqb c "?"%char.

(** [parts = re.split(r"([\.!?])", t)] read two by two: the pairs
    [(parts[i], parts[i+1])] for even [i], the last one with an empty second
    component; the first pair and the following ones. *)
Fixpoint sentence_go (s : string) : (string * string) * list (string * string) :=
  match s with
  | EmptyString => ((EmptyString, EmptyString), [])
  | String c s' =>
      let '((seg, p), rest) := sentence_go s' in
      if is_punct c then ((EmptyString, String c EmptyString), (seg, p) :: rest)
      else ((String c seg, p), rest)
  end.

Definition sentences (s : string) : list (string * string) :=
  let '(first, rest) := sentence_go s in first :: rest.

(** [s.rfind(" ", 0, stop)]; [None] is -1. *)
Fixpoint rfind_space (s : string) (stop : nat) : option nat :=
  match stop, s with
  | S stop', String c s' =>
      match rfind_space s' stop' with
      | Some i => Some (S i)
      | None => if Ascii.eqb c " "%char then Some 0 else None
      end
  | _, _ => None
  end.

(** One iteration of the loop of [chunk_text_to_range]: the buffer and the
    chunks yielded so far. *)
Definition chunk_step (min_len max_len : nat) (st : string * list string)
  (part : string * string) : string * list string :=
  let '(buf, out) := st in
  let '(segment, punct) := part in
  let candidate := Py.strip (buf +:+ segment +:+ punct) in
  if String.length candidate <? min_len then (candidate +:+ " ", out)
  else if String.length candidate <=? max_len then (EmptyString, out ++ [Py.strip candidate])
  else
    let cut :=
      match rfind_space candidate max_len with
      | Some i => if i <? min_len then max_len else i
      | None => max_len
      end in
    (Py.strip (Py.drop cut candidate) +:+ " ", out ++ [Py.strip (Py.take cut candidate)]).

(** [chunk_text_to_range(t, min_len, max_len)], the chunks in the order in
    which they are yielded; [cleanup] is the [cleanup_text] of the script. *)
Definition chunk_text_to_range (cleanup : string -> string) (t : string)
  (min_len max_len : nat) : list string :=
  let t := cleanup t in
  if negb (Py.truthy t) then []
  else
    let '(buf, out) := foldl (chunk_step min_len max_len) (EmptyString, []) (sentences t) in
    let final := Py.strip buf in
    if (min_len <=? String.length final) && (String.length final <=? max_len)
    then out ++ [final] else out.

(** [spaces = [m.start() for m in re.finditer(r"\s", snippet)]], counting
    from [i]. *)
Fixpoint space_positions (i : nat) (snippet : string) : list nat :=
  match snippet with
  | EmptyString => []
  | String c s' =>
      if Py.isspace c then i :: space_positions (S i) s' else space_positions (S i) s'
  end.

(** The merge of a comment into a snippet at the chosen position. *)
Definition merged (snippet comments : string) (insert_pos : nat) : string :=
  Py.strip (Py.take insert_pos snippet +:+ comments +:+ Py.drop insert_pos snippet).

(** White space is single spaces only, and the text does not start with
    one ([after_space] tells that a space came just before). *)
Fixpoint single_spaced_go (after_space : bool) (s : string) : bool :=
  match s with
  | EmptyString => true
  | String c s' =>
      if Py.isspace c
      then Ascii.eqb c " "%char && negb after_space && single_spaced_go true s'
      else single_spaced_go false s'
  end.

Definition single_spaced (s : string) : bool := single_spaced_go true s.

End Augment.

(** Every character of the text is in the class. *)
Fixpoint all_chars (cls : ascii -> bool) (s : string) : bool :=
  match s with
  | EmptyString => true
  | String c s' => cls c && all_chars cls s'
  end.

(** What every chunk satisfies. *)
Definition chunk_ok (min_len max_len : nat) (ch : string) : Prop :=
  String.length ch <= max_len /\ Py.strip ch = ch /\
  (1 <= min_len <= max_len -> ch <> "").

(** The augmentation of one item (2_augment_pdfs.py, lines 181-196):
    [dict(item)] with the merged text as its comments; [None] is the
    [TypeError] of the concatenation when the comments are not a string. *)
Definition augment_item (item : record) (snippet : string) (insert_pos : nat)
  : option record :=
  match rec_get item "comments" with
  | PyStr comments =>
      Some (<["comments" := PyStr (Augment.merged snippet comments insert_pos)]> item)
  | _ => None
  end.

(** The collection of neutral entries (4_extract_from_pdf.py, lines 116-143);
    an entry is given by its comments, its other fields being constants. *)
Module Extract.

Definition TARGET_COUNT : nat := 250.

(** [for ch in chunks] *)
Fixpoint take_chunks (looks_sensitive : string -> bool) (chunks : list string)
  (result : list string) : list string :=
  match chunks with
  | [] => result
  | ch :: rest =>
      if TARGET_COUNT <=? length result then result
      else if looks_sensitive ch then take_chunks looks_sensitive rest result
      else take_chunks looks_sensitive rest (result ++ [ch])
  end.

(** [for pdf in pdfs]: [texts] are the texts extracted from the documents in
    their shuffled order ([None] when the extraction raises), [shuffle k] is
    what [random.shuffle] does to the chunks of document [k]. *)
Fixpoint collect (looks_sensitive : string -> bool)
  (shuffle : nat -> list string -> list string) (k : nat)
  (texts : list (option string)) (result : list string) : list string :=
  match texts with
  | [] => result
  | raw :: rest =>
      if TARGET_COUNT <=? length result then result
      else
        match raw with
        | None => collect looks_sensitive shuffle (S k) rest result
        | Some raw =>
            let raw := Augment.cleanup_text_nul raw in
            if negb (Py.truthy raw) || (String.length raw <? 50)
            then collect looks_sensitive shuffle (S k) rest result
            else
              let chunks :=
                shuffle k (Augment.chunk_text_to_range Augment.cleanup_text_nul raw
                             Augment.MIN_LEN Augment.MAX_LEN) in
              collect looks_sensitive shuffle (S k) rest
                (take_chunks looks_sensitive chunks result)
        end
  end.

End Extract.

(** What every collected entry satisfies. *)
Definition entry_ok (looks_sensitive : string -> bool) (ch : string) : Prop :=
  looks_sensitive ch = false /\ String.length ch <= Augment.MAX_LEN /\
  Py.strip ch = ch /\ ch <> "".

(** The snippet an item is merged into (2_augment_pdfs.py, lines 107-121):
    [texts] are the texts of the documents in their shuffled order, [choice]
    is [random.choice]; the source name that comes with the snippet is left
    out. *)
Definition FILLER : string :=
  "In the context of this document, the surrounding discussion focuses on the " +:+
  "methodology, evaluation criteria, and limitations. The following excerpt is " +:+
  "representative text used solely for formatting and consistency checks.".

Fixpoint get_random_clean_snippet (looks_sensitive : string -> bool)
  (choice : list string -> string) (texts : list string) : string :=
  match texts with
  | [] => FILLER
  | raw :: rest =>
      if negb (Py.truthy raw) || (String.length raw <? 50)
      then get_random_clean_snippet looks_sensitive choice rest
      else
        match filter (fun c => negb (looks_sensitive c))
                (Augment.chunk_text_to_range Augment.cleanup_text raw
                   Augment.MIN_LEN Augment.MAX_LEN) with
        | [] => get_random_clean_snippet looks_sensitive choice rest
        | chunks => choice chunks
        end
  end.

(** ** Checks on concrete texts *)

Example parse_example_1 :
  parse_labels_from_xml "<xml>credentials,pii</xml>" = ["credentials"; "pii"].
Proof. vm_compute. reflexivity. Qed.

Example parse_example_2 :
  parse_labels_from_xml "<xml>PII, Credentials, pii</xml>" = ["pii"; "credentials"].
Proof. vm_compute. reflexivity. Qed.

Example parse_example_3 :
  parse_labels_from_xml "<xml>pii, None</xml>" = [].
Proof. vm_compute. reflexivity. Qed.

Example extract_example_1 :
  extract_xml_answer (Some "Sure: <XML>pii</xml> and <xml>none</xml>") = Some "<XML>pii</xml>".
Proof. vm_compute. reflexivity. Qed.

Example sanitize_example_1 :
  sanitize_xml (Some "```pii, conflict!```") = Some "<xml>pii, conflict</xml>".
Proof. vm_compute. reflexivity. Qed.

Example search_examples :
  XmlRe.search "A <XML>x</xml> <xml>y</xml>" = Some "<XML>x</xml>" /\
  XmlRe.search "<xml> <xml>pii</xml>" = Some "<xml> <xml>pii</xml>" /\
  XmlRe.search "<xml>abc" = None /\
  XmlRe.search "</xml><xml>" = None /\
  XmlRe.search "<xm<xml>a</xMl>b</xml>" = Some "<xml>a</xMl>" /\
  XmlRe.search "<xml></xml>" = Some "<xml></xml>" /\
  XmlRe.search "<<xml>/xml></xml>" = Some "<xml>/xml></xml>".
Proof. vm_compute. repeat split. Qed.

Example split_examples :
  Py.split "," "a,,b," = ["a"; ""; "b"; ""] /\ Py.split "," "" = [""].
Proof. vm_compute. repeat split. Qed.

Example replace_example :
  Py.replace "network_identifiers:" "network_identifiers"
    "xnetwork_identifiers:network_identifiers::" =
  "xnetwork_identifiersnetwork_identifiers:".
Proof. vm_compute. reflexivity. Qed.

Example slice_examples :
  Py.slice 5 6 "abc" = "" /\ Py.slice 5 6 "0123456789ab" = "5" /\
  Py.slice 5 6 "0123456789abc" = "56".
Proof. vm_compute. repeat split. Qed.

Example strip_ticks_examples :
  strip_ticks "``a`b``" = "a`b" /\ strip_ticks "`````" = "" /\ strip_ticks "a``b" = "a``b".
Proof. vm_compute. repeat split. Qed.

Example salvage_keeps_prose :
  sanitize_xml (Some "I cannot help with that.") = Some "<xml>I cannot help with that</xml>" /\
  parse_labels_from_xml "<xml>I cannot help with that</xml>" = [].
Proof. vm_compute. repeat split. Qed.

(** ** Facts about the string primitives *)

Ltac each_char c :=
  destruct c as [[] [] [] [] [] [] [] []]; vm_compute; try reflexivity; try discriminate.

Lemma append_cons (c : ascii) (a b : string) :
  String c a +:+ b = String c (a +:+ b).
Proof. reflexivity. Qed.

Lemma append_nil_l (s : string) : "" +:+ s = s.
Proof. reflexivity. Qed.

Lemma append_nil_r (s : string) : s +:+ "" = s.
Proof. induction s as [|c s IH]; [done|]. by rewrite append_cons, IH. Qed.

Lemma append_assoc (a b c : string) : (a +:+ b) +:+ c = a +:+ (b +:+ c).
Proof. induction a as [|x a IH]; [done|]. by rewrite !append_cons, IH. Qed.

Lemma length_append (a b : string) :
  String.length (a +:+ b) = String.length a + String.length b.
Proof. induction a as [|x a IH]; [done|]. rewrite append_cons. cbn. by rewrite IH. Qed.

Lemma lower_append (a b : string) : Py.lower (a +:+ b) = Py.lower a +:+ Py.lower b.
Proof. induction a as [|x a IH]; [done|]. rewrite append_cons. cbn. by rewrite IH. Qed.

Lemma lower_length (s : string) : String.length (Py.lower s) = String.length s.
Proof. induction s as [|x s IH]; [done|]. cbn. by rewrite IH. Qed.

Lemma lower_char_idem (c : ascii) : Py.lower_char (Py.lower_char c) = Py.lower_char c.
Proof. each_char c. Qed.

Lemma lower_idem (s : string) : Py.lower (Py.lower s) = Py.lower s.
Proof. induction s as [|x s IH]; [done|]. cbn. by rewrite lower_char_idem, IH. Qed.

Lemma isspace_lower_char (c : ascii) : Py.isspace (Py.lower_char c) = Py.isspace c.
Proof. each_char c. Qed.

Lemma lstrip_head_ok (s : string) : head_ok (Py.lstrip s).
Proof.
  induction s as [|c s IH]; [done|]. cbn.
  destruct (Py.isspace c) eqn:E; [done|]. exact E.
Qed.

Lemma lstrip_fixed (s : string) : head_ok s -> Py.lstrip s = s.
Proof. destruct s as [|c s]; [done|]. cbn. by intros ->. Qed.

Lemma rstrip_head_ok (s : string) : head_ok s -> head_ok (Py.rstrip s).
Proof.
  destruct s as [|c s]; [done|]. cbn. intros E.
  destruct (Py.rstrip s); cbn; by rewrite ?E.
Qed.

Lemma rstrip_idem (s : string) : Py.rstrip (Py.rstrip s) = Py.rstrip s.
Proof.
  induction s as [|c s IH]; [done|]. cbn.
  destruct (Py.rstrip s) as [|d r] eqn:E.
  - destruct (Py.isspace c) eqn:Ec; [done|]. cbn. by rewrite Ec.
  - change (Py.rstrip (String c (String d r))) with
      (match Py.rstrip (String d r) with
       | EmptyString => if Py.isspace c then EmptyString else String c EmptyString
       | r' => String c r'
       end).
    by rewrite IH.
Qed.

Lemma strip_idem (s : string) : Py.strip (Py.strip s) = Py.strip s.
Proof.
  unfold Py.strip.
  rewrite (lstrip_fixed (Py.rstrip (Py.lstrip s))).
  - apply rstrip_idem.
  - apply rstrip_head_ok, lstrip_head_ok.
Qed.

Lemma rstrip_app_fixed (a b : string) :
  Py.rstrip b = b -> b <> "" -> Py.rstrip (a +:+ b) = a +:+ b.
Proof.
  intros Hb Hne. induction a as [|c a IH]; [done|].
  rewrite append_cons. cbn. rewrite IH.
  destruct (a +:+ b) eqn:E; [|done].
  destruct a; [by rewrite append_nil_l in E|by rewrite append_cons in E].
Qed.

Lemma rstrip_nil_app (a ws : string) :
  Py.rstrip ws = "" -> Py.rstrip (a +:+ ws) = Py.rstrip a.
Proof.
  intros Hws. induction a as [|c a IH]; [done|].
  rewrite append_cons. cbn. by rewrite IH.
Qed.

Lemma lstrip_nil_app (ws a : string) :
  Py.lstrip ws = "" -> Py.lstrip (ws +:+ a) = Py.lstrip a.
Proof.
  induction ws as [|c ws IH]; [done|]. rewrite append_cons. cbn.
  destruct (Py.isspace c); [exact IH|discriminate].
Qed.

Lemma rstrip_nil_lstrip (ws : string) : Py.rstrip ws = "" -> Py.lstrip ws = "".
Proof.
  induction ws as [|c ws IH]; [done|]. cbn.
  destruct (Py.rstrip ws) eqn:E; [|discriminate].
  destruct (Py.isspace c); [intros _; by apply IH|discriminate].
Qed.

Lemma strip_nil_lstrip (ws : string) : Py.strip ws = "" -> Py.lstrip ws = "".
Proof.
  unfold Py.strip. intros H.
  pose proof (lstrip_head_ok ws) as Hh.
  destruct (Py.lstrip ws) as [|c r]; [done|].
  cbn in H, Hh. rewrite Hh in H. by destruct (Py.rstrip r).
Qed.

Lemma lstrip_nil_rstrip (ws : string) : Py.lstrip ws = "" -> Py.rstrip ws = "".
Proof.
  induction ws as [|c ws IH]; [done|]. cbn.
  destruct (Py.isspace c); [|discriminate].
  intros H. by rewrite (IH H).
Qed.

(** Stripping a text that is padded with white space on both sides. *)
Lemma strip_padded (ws1 b ws2 : string) :
  Py.strip ws1 = "" -> Py.strip ws2 = "" ->
  Py.strip (ws1 +:+ b +:+ ws2) = Py.strip b.
Proof.
  intros H1%strip_nil_lstrip H2%strip_nil_lstrip. unfold Py.strip.
  rewrite (lstrip_nil_app _ _ H1).
  destruct (Py.lstrip b) as [|c r] eqn:E.
  - by rewrite (lstrip_nil_app b ws2 E), H2.
  - apply lstrip_nil_rstrip in H2.
    assert (Py.lstrip (b +:+ ws2) = String c r +:+ ws2) as ->.
    { clear -E. induction b as [|d b IH]; [discriminate|].
      rewrite append_cons. cbn in *. destruct (Py.isspace d); [by apply IH|].
      injection E as -> ->. by rewrite append_cons. }
    by apply rstrip_nil_app.
Qed.

Lemma strip_block (b : string) :
  head_ok b -> Py.rstrip b = b -> Py.strip b = b.
Proof. intros Hh Hr. unfold Py.strip. by rewrite lstrip_fixed. Qed.

Lemma startswith_append (p s : string) : Py.startswith (p +:+ s) p = true.
Proof.
  induction p as [|c p IH]; [by destruct s|].
  rewrite append_cons. cbn. by rewrite Ascii.eqb_refl, IH.
Qed.

Lemma endswith_unfold (s p : string) :
  Py.endswith s p =
  String.eqb s p || match s with EmptyString => false | String _ s' => Py.endswith s' p end.
Proof. by destruct s. Qed.

Lemma endswith_append (a p : string) : Py.endswith (a +:+ p) p = true.
Proof.
  induction a as [|c a IH].
  - by rewrite append_nil_l, endswith_unfold, String.eqb_refl.
  - rewrite append_cons, endswith_unfold, IH. apply orb_true_r.
Qed.

Lemma startswith_truthy (s p : string) :
  Py.startswith s p = true -> p <> "" -> Py.truthy s = true.
Proof. destruct s, p; cbn; try done. Qed.

Lemma strip_truthy (t : string) : Py.truthy (Py.strip t) = true -> Py.truthy t = true.
Proof. by destruct t. Qed.

Lemma well_wrapped_truthy (s : string) : well_wrapped s = true -> Py.truthy s = true.
Proof.
  unfold well_wrapped. intros [H _]%andb_true_iff.
  destruct s; [discriminate H|done].
Qed.

(** ** The answer sanitizer *)

Lemma sanitize_wrapped (t : string) :
  well_wrapped (Py.strip t) = true -> sanitize_xml (Some t) = Some (Py.strip t).
Proof.
  intros H. unfold sanitize_xml.
  rewrite (strip_truthy t (well_wrapped_truthy _ H)). cbn. by rewrite H.
Qed.

(** A text with the opening tag in front and the closing tag behind, in any
    case, is its own strip and passes the wrapper test. *)
Lemma block_fixed (o c cl : string) :
  Py.lower o = "<xml>" -> Py.lower cl = "</xml>" ->
  Py.strip (o +:+ c +:+ cl) = o +:+ c +:+ cl /\ well_wrapped (o +:+ c +:+ cl) = true.
Proof.
  intros Ho Hcl. split.
  - apply strip_block.
    + destruct o as [|a o]; [discriminate|]. rewrite append_cons. cbn.
      injection Ho as Ha _. rewrite <- isspace_lower_char, Ha. reflexivity.
    + rewrite <- append_assoc. apply rstrip_app_fixed.
      * destruct cl as [|c1 [|c2 [|c3 [|c4 [|c5 [|c6 [|]]]]]]]; try discriminate.
        injection Hcl as _ _ _ _ _ H6. cbn.
        rewrite <- (isspace_lower_char c6), H6. reflexivity.
      * intros ->. discriminate.
  - unfold well_wrapped. rewrite !lower_append, Ho, Hcl.
    rewrite startswith_append. rewrite <- append_assoc. by rewrite endswith_append.
Qed.

Lemma wrap_fixed (inner : string) :
  sanitize_xml (Some ("<xml>" +:+ inner +:+ "</xml>")) = Some ("<xml>" +:+ inner +:+ "</xml>").
Proof.
  destruct (block_fixed "<xml>" inner "</xml>" eq_refl eq_refl) as [Hs Hw].
  rewrite sanitize_wrapped; rewrite Hs; done.
Qed.

(** C10. The answer sanitizer is idempotent: whenever [sanitize_xml] returns
    a text, applying it to that text returns the same text; and on a
    delimited answer block (the two tags in any case around any content),
    padded with white space or not, it returns the block itself. *)
Theorem sanitize_xml_idempotent :
  (forall (x : option string) (y : string),
      sanitize_xml x = Some y -> sanitize_xml (Some y) = Some y) /\
  (forall ws1 o c cl ws2 : string,
      Py.strip ws1 = "" -> Py.strip ws2 = "" ->
      Py.lower o = "<xml>" -> Py.lower cl = "</xml>" ->
      sanitize_xml (Some (ws1 +:+ (o +:+ c +:+ cl) +:+ ws2)) = Some (o +:+ c +:+ cl)).
Proof.
  split.
  - intros [t|] y; [|discriminate]. unfold sanitize_xml.
    destruct (negb (Py.truthy t)); [discriminate|].
    destruct (well_wrapped (Py.strip t)) eqn:Hw.
    + intros [= <-]. fold (sanitize_xml (Some (Py.strip t))).
      rewrite sanitize_wrapped; rewrite strip_idem; done.
    + destruct (Py.truthy (salvage_residue (Py.strip t))); [|discriminate].
      intros [= <-]. apply wrap_fixed.
  - intros ws1 o c cl ws2 H1 H2 Ho Hcl.
    destruct (block_fixed o c cl Ho Hcl) as [Hs Hw].
    rewrite sanitize_wrapped; rewrite strip_padded, Hs; done.
Qed.

Lemma sanitize_xml_idempotent_witness :
  sanitize_xml (Some "<xml>pii, conflict</xml>") = Some "<xml>pii, conflict</xml>" /\
  sanitize_xml (Some "  <XML>pii</Xml> ") = Some "<XML>pii</Xml>".
Proof.
  split.
  - apply (proj1 sanitize_xml_idempotent (Some "```pii, conflict!```")).
    vm_compute. reflexivity.
  - apply (proj2 sanitize_xml_idempotent "  " "<XML>" "pii" "</Xml>" " ");
      vm_compute; reflexivity.
Defined.

(** ** Tokens *)

Lemma keep_append (P : ascii -> bool) (a b : string) :
  Py.keep P (a +:+ b) = Py.keep P a +:+ Py.keep P b.
Proof.
  induction a as [|c a IH]; [done|]. rewrite append_cons. cbn.
  destruct (P c); by rewrite IH.
Qed.

Lemma keep_keep (P Q : ascii -> bool) (s : string) :
  (forall c, Q c = true -> P c = true) ->
  Py.keep Q (Py.keep P s) = Py.keep Q s.
Proof.
  intros HQP. induction s as [|c s IH]; [done|]. cbn.
  destruct (P c) eqn:EP; cbn.
  - by rewrite IH.
  - destruct (Q c) eqn:EQ; [|done]. apply HQP in EQ. congruence.
Qed.

Lemma keep_lstrip (Q : ascii -> bool) (s : string) :
  (forall c, Q c = true -> Py.isspace c = false) ->
  Py.keep Q (Py.lstrip s) = Py.keep Q s.
Proof.
  intros HQ. induction s as [|c s IH]; [done|]. cbn.
  destruct (Py.isspace c) eqn:E; [|done].
  destruct (Q c) eqn:EQ; [|done]. apply HQ in EQ. congruence.
Qed.

Lemma keep_rstrip (Q : ascii -> bool) (s : string) :
  (forall c, Q c = true -> Py.isspace c = false) ->
  Py.keep Q (Py.rstrip s) = Py.keep Q s.
Proof.
  intros HQ. induction s as [|c s IH]; [done|]. cbn.
  destruct (Py.rstrip s) as [|d r] eqn:Er.
  - destruct (Py.isspace c) eqn:E; cbn; rewrite <- IH.
    + destruct (Q c) eqn:EQ; [|done]. apply HQ in EQ. congruence.
    + done.
  - cbn [Py.keep] in *. by rewrite IH.
Qed.

Lemma keep_strip (Q : ascii -> bool) (s : string) :
  (forall c, Q c = true -> Py.isspace c = false) ->
  Py.keep Q (Py.strip s) = Py.keep Q s.
Proof. intros HQ. unfold Py.strip. by rewrite keep_rstrip, keep_lstrip. Qed.

Lemma lower_lstrip (s : string) : Py.lower (Py.lstrip s) = Py.lstrip (Py.lower s).
Proof.
  induction s as [|c s IH]; [done|]. cbn. rewrite isspace_lower_char.
  by destruct (Py.isspace c).
Qed.

Lemma lower_rstrip (s : string) : Py.lower (Py.rstrip s) = Py.rstrip (Py.lower s).
Proof.
  induction s as [|c s IH]; [done|]. cbn. rewrite <- IH, isspace_lower_char.
  destruct (Py.rstrip s); [by destruct (Py.isspace c)|done].
Qed.

Lemma lower_strip (s : string) : Py.lower (Py.strip s) = Py.strip (Py.lower s).
Proof. unfold Py.strip. by rewrite lower_rstrip, lower_lstrip. Qed.

Lemma drop_append_length (a b : string) : Py.drop (String.length a) (a +:+ b) = b.
Proof. induction a as [|c a IH]; [by destruct b|]. by rewrite append_cons. Qed.

Lemma take_append_length (a b : string) : Py.take (String.length a) (a +:+ b) = a.
Proof.
  induction a as [|c a IH]; [by destruct b|]. rewrite append_cons. cbn. by rewrite IH.
Qed.

Lemma startswith_split (s p : string) :
  Py.startswith s p = true -> s = p +:+ Py.drop (String.length p) s.
Proof.
  revert s. induction p as [|d p IH]; intros s H; [done|].
  destruct s as [|c s]; [discriminate|]. cbn in H.
  apply andb_true_iff in H as [Hc Hs]. apply Ascii.eqb_eq in Hc as ->.
  rewrite append_cons. cbn. by rewrite <- IH.
Qed.

Lemma keep_replace_go (Q : ascii -> bool) (old new : string) :
  old <> "" -> Py.keep Q new = Py.keep Q old ->
  forall (s : string) (skip : nat),
    Py.keep Q (Py.replace_go old new skip s) = Py.keep Q (Py.drop skip s).
Proof.
  intros Hne HQ. induction s as [|c s IH]; intros skip.
  - by destruct skip.
  - destruct skip as [|k]; cbn [Py.replace_go Py.drop]; [|apply IH].
    destruct (Py.startswith (String c s) old) eqn:E.
    + rewrite keep_append, IH, HQ.
      apply startswith_split in E.
      transitivity (Py.keep Q (old +:+ Py.drop (String.length old) (String c s)));
        [|by rewrite <- E].
      rewrite keep_append.
      destruct old as [|d old]; [done|]. cbn. by rewrite Nat.sub_0_r.
    + cbn. rewrite IH. cbn. done.
Qed.

Lemma cls_lower_us_not_space (c : ascii) :
  cls_lower_us c = true -> Py.isspace c = false.
Proof. each_char c. Qed.

Lemma cls_sig_not_space (c : ascii) : cls_sig c = true -> Py.isspace c = false.
Proof. each_char c. Qed.

Lemma cls_lower_us_sig (c : ascii) : cls_lower_us c = true -> cls_sig c = true.
Proof. unfold cls_sig. by intros ->. Qed.

(** The stripping and the prefix repair do not change a token: the colon the
    repair deletes is deleted by the character class anyway. *)
Lemma repair_token_canon (p : string) :
  repair_token (Py.lower (Py.strip p)) = canon p.
Proof.
  unfold repair_token, Py.replace, canon.
  rewrite keep_replace_go by done. cbn [Py.drop].
  rewrite lower_strip. apply keep_strip, cls_lower_us_not_space.
Qed.

Lemma normalized_tokens_canon (content : string) :
  normalized_tokens content = canon <$> Py.split "," content.
Proof.
  unfold normalized_tokens, split_parts. rewrite <- list_fmap_compose.
  apply list_fmap_ext. intros _ p _. apply repair_token_canon.
Qed.

Lemma eqb_comma_lower (c : ascii) :
  Ascii.eqb (Py.lower_char c) "," = Ascii.eqb c ",".
Proof. each_char c. Qed.

Lemma split_go_lower (s : string) :
  Py.split_go "," (Py.lower s) =
  (Py.lower (Py.split_go "," s).1, Py.lower <$> (Py.split_go "," s).2).
Proof.
  induction s as [|c s IH]; [done|]. cbn. rewrite IH.
  destruct (Py.split_go "," s) as [p ps]. cbn.
  rewrite eqb_comma_lower.
  by destruct (Ascii.eqb c ",").
Qed.

Lemma split_lower (s : string) :
  Py.split "," (Py.lower s) = Py.lower <$> Py.split "," s.
Proof.
  unfold Py.split. rewrite split_go_lower. by destruct (Py.split_go "," s).
Qed.

Lemma split_go_keep (P : ascii -> bool) (s : string) :
  P ","%char = true ->
  Py.split_go "," (Py.keep P s) =
  (Py.keep P (Py.split_go "," s).1, Py.keep P <$> (Py.split_go "," s).2).
Proof.
  intros HP. induction s as [|c s IH]; [done|]. cbn.
  destruct (Py.split_go "," s) as [p ps]. cbn in IH.
  destruct (P c) eqn:EP; cbn; rewrite IH.
  - destruct (Ascii.eqb c ","); cbn; [done|]. by rewrite EP.
  - destruct (Ascii.eqb c ",") eqn:Ec.
    + apply Ascii.eqb_eq in Ec as ->. congruence.
    + cbn. by rewrite EP.
Qed.

Lemma split_keep (P : ascii -> bool) (s : string) :
  P ","%char = true ->
  Py.split "," (Py.keep P s) = Py.keep P <$> Py.split "," s.
Proof.
  intros HP. unfold Py.split. rewrite split_go_keep by done.
  by destruct (Py.split_go "," s).
Qed.

(** The normalized tokens depend on the signature of the content only. *)
Lemma tokens_signature (content : string) :
  normalized_tokens content = Py.keep cls_lower_us <$> Py.split "," (signature content).
Proof.
  rewrite normalized_tokens_canon. unfold signature.
  rewrite split_keep by done. rewrite split_lower.
  rewrite <- !list_fmap_compose. apply list_fmap_ext. intros _ p _. cbn.
  unfold canon. symmetry. apply keep_keep, cls_lower_us_sig.
Qed.

Lemma signature_strip (content : string) :
  signature (Py.strip content) = signature content.
Proof.
  unfold signature. rewrite lower_strip. apply keep_strip, cls_sig_not_space.
Qed.

Lemma normalized_tokens_strip (content : string) :
  normalized_tokens (Py.strip content) = normalized_tokens content.
Proof. by rewrite !tokens_signature, signature_strip. Qed.

(** ** The two token loops and the de-duplication *)

Lemma empty_not_allowed : "" ∉ ALLOWED_LABELS.
Proof. apply (bool_decide_eq_false_1 _). vm_compute. reflexivity. Qed.

Lemma truthy_false (s : string) : Py.truthy s = false -> s = "".
Proof. by destruct s. Qed.

Lemma xml_token_loop_spec (parts labels : list string) :
  xml_token_loop parts labels =
  if bool_decide ("none" ∈ repair_token <$> parts) then None
  else Some (labels ++ filter (fun p => p ∈ ALLOWED_LABELS) (repair_token <$> parts)).
Proof.
  revert labels. induction parts as [|p parts IH]; intros labels.
  - cbn. by rewrite app_nil_r.
  - cbn [xml_token_loop fmap list_fmap]. rewrite !IH.
    destruct (Py.truthy (repair_token p)) eqn:Et; cbn [negb].
    + destruct (String.eqb (repair_token p) "none") eqn:En.
      * apply String.eqb_eq in En. rewrite bool_decide_eq_true_2; [done|].
        rewrite En. apply list_elem_of_here.
      * apply String.eqb_neq in En. cbn [negb]. rewrite andb_true_r.
        assert (bool_decide ("none" ∈ repair_token p :: (repair_token <$> parts))
                = bool_decide ("none" ∈ repair_token <$> parts)) as ->.
        { apply bool_decide_ext. rewrite elem_of_cons. naive_solver. }
        rewrite filter_cons.
        repeat case_bool_decide; repeat case_decide; try done.
        by rewrite <- app_assoc.
    + apply truthy_false in Et. rewrite Et.
      assert (bool_decide ("none" ∈ "" :: (repair_token <$> parts))
              = bool_decide ("none" ∈ repair_token <$> parts)) as ->.
      { apply bool_decide_ext. rewrite elem_of_cons. naive_solver. }
      rewrite filter_cons_False by apply empty_not_allowed. done.
Qed.

Lemma gt_token_loop_spec (parts labels : list string) :
  gt_token_loop parts labels =
  labels ++ filter (fun p => p ∈ ALLOWED_LABELS ∧ p ≠ "none") (repair_token <$> parts).
Proof.
  revert labels. induction parts as [|p parts IH]; intros labels.
  - cbn. by rewrite app_nil_r.
  - cbn [gt_token_loop fmap list_fmap]. rewrite !IH, filter_cons.
    destruct (String.eqb (repair_token p) "none") eqn:En.
    + apply String.eqb_eq in En. rewrite andb_false_r.
      case_decide; [naive_solver|done].
    + apply String.eqb_neq in En. rewrite andb_true_r.
      case_bool_decide; case_decide; try naive_solver.
      by rewrite <- app_assoc.
Qed.

Lemma filter_first_seen (P : string -> Prop) `{!forall x, Decision (P x)}
  (l : list string) :
  filter P (first_seen l) = first_seen (filter P l).
Proof.
  induction l as [|x l IH]; [done|]. cbn [first_seen].
  rewrite !filter_cons. case_decide as HP.
  - cbn [first_seen]. f_equal. rewrite <- IH. rewrite !list_filter_filter.
    apply list_filter_iff. intros y. naive_solver.
  - rewrite <- IH. rewrite list_filter_filter.
    apply list_filter_iff. intros y. naive_solver.
Qed.

(** [first_seen] keeps every element once, in the order of the list. *)
Lemma elem_of_first_seen (x : string) (l : list string) :
  x ∈ first_seen l <-> x ∈ l.
Proof.
  induction l as [|y l IH]; [done|]. cbn [first_seen].
  rewrite !elem_of_cons, list_elem_of_filter, IH.
  destruct (decide (x = y)); naive_solver.
Qed.

Lemma first_seen_NoDup (l : list string) : NoDup (first_seen l).
Proof.
  induction l as [|y l IH]; [constructor|]. cbn [first_seen].
  apply NoDup_cons. split; [|by apply NoDup_filter].
  rewrite list_elem_of_filter. naive_solver.
Qed.

Lemma first_seen_sublist (l : list string) : first_seen l `sublist_of` l.
Proof.
  induction l as [|y l IH]; [done|]. cbn [first_seen].
  apply sublist_skip. etrans; [apply sublist_filter|done].
Qed.

Lemma dedup_loop_spec (labels : list string) (seen : gset string) (out : list string) :
  dedup_loop labels seen out = out ++ first_seen (filter (fun x => x ∉ seen) labels).
Proof.
  revert seen out. induction labels as [|l labels IH]; intros seen out.
  - cbn. by rewrite app_nil_r.
  - cbn [dedup_loop]. rewrite filter_cons. case_decide as Hl.
    + rewrite IH. by rewrite decide_False by tauto.
    + rewrite IH, decide_True by done. cbn [first_seen].
      rewrite <- app_assoc. cbn. do 2 f_equal.
      rewrite filter_first_seen, list_filter_filter.
      f_equal. apply list_filter_iff. intros y. set_solver.
Qed.

Lemma dedup_first_seen (labels : list string) : dedup labels = first_seen labels.
Proof.
  unfold dedup. rewrite dedup_loop_spec. cbn. f_equal.
  induction labels as [|l labels IH]; [done|].
  rewrite filter_cons, decide_True by set_solver. by rewrite IH.
Qed.

(** ** The response normalizer on an answer block *)

Lemma parse_labels_content (b : string) :
  parse_labels_from_xml b =
  labels_of_tokens (normalized_tokens (Py.slice 5 6 (Py.strip b))).
Proof.
  unfold parse_labels_from_xml.
  set (inner := Py.slice 5 6 (Py.strip b)).
  rewrite <- (normalized_tokens_strip inner).
  destruct (Py.truthy (Py.strip inner)) eqn:E; cbn [negb].
  - rewrite xml_token_loop_spec. fold (normalized_tokens (Py.strip inner)).
    unfold labels_of_tokens. case_bool_decide; [done|].
    cbn [app]. apply dedup_first_seen.
  - apply truthy_false in E. by rewrite E.
Qed.

Lemma slice_block (o c cl : string) :
  String.length o = 5 -> String.length cl = 6 ->
  Py.slice 5 6 (o +:+ c +:+ cl) = c.
Proof.
  intros Ho Hcl. unfold Py.slice.
  rewrite !length_append, Ho, Hcl.
  replace (Py.drop 5 (o +:+ c +:+ cl)) with (c +:+ cl)
    by (rewrite <- Ho; symmetry; apply drop_append_length).
  replace (5 + (String.length c + 6) - 6 - 5) with (String.length c) by lia.
  apply take_append_length.
Qed.

Lemma lower_eq_length (s t : string) :
  Py.lower s = t -> String.length s = String.length t.
Proof. intros <-. by rewrite lower_length. Qed.

(** The labels parsed from a block, whatever the case of its tags. *)
Lemma parse_labels_block (o c cl : string) :
  Py.lower o = "<xml>" -> Py.lower cl = "</xml>" ->
  parse_labels_from_xml (o +:+ c +:+ cl) = labels_of_tokens (normalized_tokens c).
Proof.
  intros Ho Hcl. rewrite parse_labels_content.
  destruct (block_fixed o c cl Ho Hcl) as [-> _].
  rewrite slice_block; [done|by apply lower_eq_length in Ho|by apply lower_eq_length in Hcl].
Qed.

(** C2. For every inner content of an answer block: if one of its
    comma-separated tokens, once lowercased, repaired and reduced to letters
    and underscores, is the sentinel [none], the response normalizer returns
    the empty list, whatever the other tokens are; otherwise it returns the
    tokens that are taxonomy members, each once, in first-seen order. *)
Theorem parse_labels_sentinel_wins (content : string) :
  ("none" ∈ normalized_tokens content ->
     parse_labels_from_xml ("<xml>" +:+ content +:+ "</xml>") = []) /\
  ("none" ∉ normalized_tokens content ->
     parse_labels_from_xml ("<xml>" +:+ content +:+ "</xml>") =
     first_seen (filter (fun p => p ∈ ALLOWED_LABELS) (normalized_tokens content))).
Proof.
  rewrite parse_labels_block by done. unfold labels_of_tokens.
  split; intros H; case_bool_decide; done.
Qed.

Lemma parse_labels_sentinel_wins_witness :
  parse_labels_from_xml ("<xml>" +:+ "pii, NONE , conflict" +:+ "</xml>") = [] /\
  parse_labels_from_xml ("<xml>" +:+ "PII, foo, Credentials,pii" +:+ "</xml>") =
    ["pii"; "credentials"].
Proof.
  split.
  - apply (proj1 (parse_labels_sentinel_wins "pii, NONE , conflict")).
    apply (bool_decide_eq_true_1 _). vm_compute. reflexivity.
  - apply (proj2 (parse_labels_sentinel_wins "PII, foo, Credentials,pii")).
    apply (bool_decide_eq_true_1 _). vm_compute. reflexivity.
Defined.

(** ** The classification client *)

Lemma list_of_set_nil : list_of_set [] = [].
Proof. unfold list_of_set. cbn. apply elements_empty. Qed.

(** C6. A record whose text is missing, is not a string, or is empty or
    white space only gets its result at once: no remote call, no delay, no
    predicted label, and the note that the text is missing or empty. *)
Theorem classify_record_no_comment (i : nat) (rec : record) (svc : service) :
  no_comment rec ->
  exists r : result,
    classify_record (i, rec) svc = (inl r, no_trace) /\
    calls no_trace = 0 /\ sleeps no_trace = [] /\
    idx r = i /\
    xml r = "<xml>none</xml>" /\
    pred_labels r = [] /\
    error r = Some "Missing or empty 'comments'.".
Proof.
  unfold no_comment, classify_record, rec_get. intros H.
  destruct (rec !! "comments") as [[| | |c|]|] eqn:E; cbn [from_option id];
    rewrite ?H; cbn [Py.truthy negb];
    eexists; repeat split; cbn; apply list_of_set_nil.
Qed.

Lemma classify_record_no_comment_witness :
  exists r : result,
    classify_record (7, {[ "comments" := PyStr "   " ]}) (fun _ => Content (Some "<xml>pii</xml>"))
      = (inl r, no_trace) /\
    calls no_trace = 0 /\ sleeps no_trace = [] /\
    idx r = 7 /\ xml r = "<xml>none</xml>" /\ pred_labels r = [] /\
    error r = Some "Missing or empty 'comments'.".
Proof.
  apply classify_record_no_comment.
  unfold no_comment. rewrite lookup_singleton_eq. reflexivity.
Defined.

Lemma delay_from_succ (b : float) (k : nat) :
  delay_from b (S k) = delay_from (b * BACKOFF_GROWTH)%float k.
Proof. unfold delay_from. by rewrite Nat.iter_succ_r. Qed.

Lemma delays_cons (b : float) (m : nat) :
  delay_from b <$> seq 0 (S m) = b :: (delay_from (b * BACKOFF_GROWTH)%float <$> seq 0 m).
Proof.
  cbn [seq fmap list_fmap]. f_equal. rewrite <- fmap_S_seq, <- list_fmap_compose.
  apply list_fmap_ext. intros _ k _. apply delay_from_succ.
Qed.

(** The retry loop from attempt [a] on, with [n] attempts left: it stops at
    the first attempt [k] that does not fail in a retryable way, or at the
    last attempt, having slept between the attempts. *)
Lemma ask_llm_loop_spec (svc : service) (n : nat) :
  forall (a : nat) (b : float) (t : trace),
    1 <= n -> a + n = MAX_RETRIES + 1 ->
    exists k : nat,
      a <= k <= MAX_RETRIES /\
      (forall j, a <= j < k -> retryable (svc j) = true) /\
      (retryable (svc k) = true -> k = MAX_RETRIES) /\
      ask_llm_loop svc (seq a n) b t =
        (Some (final_answer (svc k)),
         {| calls := calls t + (k - a + 1);
            sleeps := sleeps t ++ (delay_from b <$> seq 0 (k - a)) |}).
Proof.
  induction n as [|n IH]; intros a b t Hn Ha; [lia|].
  assert (Hstop :
    (retryable (svc a) = true -> a = MAX_RETRIES) ->
    ask_llm_loop svc (seq a (S n)) b t = (Some (final_answer (svc a)), called t) ->
    exists k : nat,
      a <= k <= MAX_RETRIES /\
      (forall j, a <= j < k -> retryable (svc j) = true) /\
      (retryable (svc k) = true -> k = MAX_RETRIES) /\
      ask_llm_loop svc (seq a (S n)) b t =
        (Some (final_answer (svc k)),
         {| calls := calls t + (k - a + 1);
            sleeps := sleeps t ++ (delay_from b <$> seq 0 (k - a)) |})).
  { intros Hr Hl. exists a. repeat split; [lia|lia|intros; lia|done|].
    rewrite Hl. unfold called. do 2 f_equal; [lia|].
    rewrite Nat.sub_diag. cbn. by rewrite app_nil_r. }
  assert (Hnext :
    retryable (svc a) = true -> a <> MAX_RETRIES ->
    ask_llm_loop svc (seq a (S n)) b t =
      ask_llm_loop svc (seq (S a) n) (b * BACKOFF_GROWTH)%float (slept b (called t)) ->
    exists k : nat,
      a <= k <= MAX_RETRIES /\
      (forall j, a <= j < k -> retryable (svc j) = true) /\
      (retryable (svc k) = true -> k = MAX_RETRIES) /\
      ask_llm_loop svc (seq a (S n)) b t =
        (Some (final_answer (svc k)),
         {| calls := calls t + (k - a + 1);
            sleeps := sleeps t ++ (delay_from b <$> seq 0 (k - a)) |})).
  { intros Hr Hne Hl.
    destruct (IH (S a) (b * BACKOFF_GROWTH)%float (slept b (called t)))
      as (k & Hk & Hbefore & Hlast & Hres); [lia|lia|].
    exists k. repeat split; [lia|lia| |done|].
    - intros j Hj. destruct (decide (j = a)) as [->|]; [done|]. apply Hbefore. lia.
    - rewrite Hl, Hres. cbn [calls sleeps slept called]. do 2 f_equal; [lia|].
      replace (k - a) with (S (k - S a)) by lia.
      rewrite delays_cons, <- app_assoc. done. }
  cbn [seq ask_llm_loop] in *.
  destruct (svc a) as [c|e] eqn:Es; [by apply Hstop|].
  unfold final_answer, error_text, retryable in *.
  destruct (exc_kind e) eqn:Ek; try (by apply Hstop);
    (destruct (Nat.eqb a MAX_RETRIES) eqn:Ea;
     [apply Nat.eqb_eq in Ea; by apply Hstop
     |apply Nat.eqb_neq in Ea; by apply Hnext]).
Qed.

(** The client stops at attempt [k] when every earlier attempt failed in a
    retryable way and attempt [k] does not, or is the last one allowed. *)
Lemma ask_llm_stops_at (svc : service) (k : nat) :
  1 <= k <= MAX_RETRIES ->
  (forall j, 1 <= j < k -> retryable (svc j) = true) ->
  (retryable (svc k) = true -> k = MAX_RETRIES) ->
  ask_llm svc =
    (Some (final_answer (svc k)),
     {| calls := k; sleeps := backoff_delay <$> seq 0 (k - 1) |}).
Proof.
  intros Hk Hbefore Hlast. unfold ask_llm.
  destruct (ask_llm_loop_spec svc MAX_RETRIES 1 SLEEP_BACKOFF no_trace)
    as (k' & Hk' & Hbefore' & Hlast' & ->); [unfold MAX_RETRIES; lia|done|].
  assert (k' = k) as ->.
  { destruct (Nat.lt_trichotomy k' k) as [Hlt|[->|Hgt]]; [|done|].
    - specialize (Hlast' (Hbefore k' ltac:(lia))). lia.
    - specialize (Hlast (Hbefore' k ltac:(lia))). lia. }
  cbn. do 2 f_equal. lia.
Qed.

Lemma ask_llm_trace (svc : service) :
  exists k : nat,
    1 <= k <= MAX_RETRIES /\
    ask_llm svc =
      (Some (final_answer (svc k)),
       {| calls := k; sleeps := backoff_delay <$> seq 0 (k - 1) |}).
Proof.
  destruct (ask_llm_loop_spec svc MAX_RETRIES 1 SLEEP_BACKOFF no_trace)
    as (k & Hk & Hbefore & Hlast & _); [unfold MAX_RETRIES; lia|done|].
  exists k. split; [done|]. by apply ask_llm_stops_at.
Qed.

(** C4. In every run of the client at most [MAX_RETRIES] = 4 attempts are
    made, and the delays slept between them are 2.0, then each time the
    previous one multiplied by 1.7.  A failure that is not retryable, met
    after retryable ones only, ends the run with its error and no further
    attempt.  When all the allowed attempts fail in a retryable way, the run
    ends with the error of the last one. *)
Theorem ask_llm_retry_discipline (svc : service) :
  (1 <= calls (ask_llm svc).2 <= 4 /\
   sleeps (ask_llm svc).2 = backoff_delay <$> seq 0 (calls (ask_llm svc).2 - 1)) /\
  (backoff_delay 0 = 2%float /\
   forall k, backoff_delay (S k) = (backoff_delay k * 0x1.b333333333333p+0)%float) /\
  (forall (k : nat) (e : exc),
      1 <= k <= 4 ->
      (forall j, 1 <= j < k -> retryable (svc j) = true) ->
      svc k = Raises e -> retryable (Raises e) = false ->
      ask_llm svc =
        (Some (None, Some (error_text e)),
         {| calls := k; sleeps := backoff_delay <$> seq 0 (k - 1) |})) /\
  (forall e : exc,
      (forall j, 1 <= j <= 4 -> retryable (svc j) = true) ->
      svc 4 = Raises e ->
      ask_llm svc =
        (Some (None, Some (error_text e)),
         {| calls := 4; sleeps := backoff_delay <$> seq 0 3 |})).
Proof.
  repeat split.
  - destruct (ask_llm_trace svc) as (k & Hk & ->). cbn. unfold MAX_RETRIES in Hk. lia.
  - destruct (ask_llm_trace svc) as (k & Hk & ->). cbn. unfold MAX_RETRIES in Hk. lia.
  - by destruct (ask_llm_trace svc) as (k & Hk & ->).
  - intros k e Hk Hbefore Hs Hr.
    rewrite (ask_llm_stops_at svc k); [by rewrite Hs|done|done|].
    rewrite Hs, Hr. discriminate.
  - intros e Hall Hs.
    rewrite (ask_llm_stops_at svc 4); [by rewrite Hs|unfold MAX_RETRIES; lia| |done].
    intros j Hj. apply Hall. lia.
Qed.

Lemma ask_llm_retry_discipline_witness :
  ask_llm svc_rejected =
    (Some (None, Some "BadRequestError: bad prompt"),
     {| calls := 2; sleeps := [2%float] |}).
Proof.
  apply (proj1 (proj2 (proj2 (ask_llm_retry_discipline svc_rejected))) 2
           {| exc_kind := BadRequestError; exc_type_name := "BadRequestError";
              exc_text := "bad prompt" |}).
  - lia.
  - intros j Hj. assert (j = 1) as -> by lia. reflexivity.
  - reflexivity.
  - reflexivity.
Defined.

(** ** The search for the answer block *)

Lemma lazy_close_unfold (s : string) :
  XmlRe.lazy_close s =
  if XmlRe.at_start "</xml>" s then Some (Py.take 6 s)
  else match s with
       | EmptyString => None
       | String c s' => String c <$> XmlRe.lazy_close s'
       end.
Proof. by destruct s. Qed.

Lemma at_start_app (p a b : string) :
  XmlRe.at_start p a = true -> XmlRe.at_start p (a +:+ b) = true.
Proof.
  revert a. induction p as [|d p IH]; intros a H; [done|].
  destruct a as [|c a]; [discriminate|]. rewrite append_cons. cbn in *.
  apply andb_true_iff in H as [-> H]. by apply IH.
Qed.

Lemma at_start_length (p s : string) :
  XmlRe.at_start p s = true -> String.length p <= String.length s.
Proof.
  revert s. induction p as [|d p IH]; intros s H; cbn; [lia|].
  destruct s as [|c s]; [discriminate|]. cbn in *.
  apply andb_true_iff in H as [_ H]. apply IH in H. lia.
Qed.

Lemma at_start_lower (p s : string) :
  Py.lower p = p -> XmlRe.at_start p s = Py.startswith (Py.lower s) p.
Proof.
  revert s. induction p as [|d p IH]; intros s Hp; [by destruct s|].
  destruct s as [|c s]; [done|]. cbn in *. injection Hp as Hd Hp.
  unfold XmlRe.ci_eq. by rewrite Hd, IH.
Qed.

Lemma drop_app_le (n : nat) (a b : string) :
  n <= String.length a -> Py.drop n (a +:+ b) = Py.drop n a +:+ b.
Proof.
  revert a. induction n as [|n IH]; intros a H; [done|].
  destruct a as [|c a]; cbn in H; [lia|]. rewrite append_cons. cbn. apply IH. lia.
Qed.

Lemma lower_drop (n : nat) (s : string) : Py.lower (Py.drop n s) = Py.drop n (Py.lower s).
Proof.
  revert s. induction n as [|n IH]; intros s; [done|].
  destruct s as [|c s]; [done|]. cbn. apply IH.
Qed.

Lemma lazy_close_app (x b : string) :
  is_Some (XmlRe.lazy_close x) -> is_Some (XmlRe.lazy_close (x +:+ b)).
Proof.
  induction x as [|c x IH]; rewrite (lazy_close_unfold (_ +:+ b)), lazy_close_unfold.
  - cbn. by intros [? ?].
  - destruct (XmlRe.at_start "</xml>" (String c x)) eqn:E.
    + by rewrite (at_start_app _ _ _ E).
    + intros H. apply fmap_is_Some in H. apply IH in H.
      rewrite append_cons.
      destruct (XmlRe.at_start "</xml>" (String c (x +:+ b))); [done|].
      by apply fmap_is_Some.
Qed.

Lemma search_cons (c : ascii) (s : string) :
  is_Some (XmlRe.search s) -> is_Some (XmlRe.search (String c s)).
Proof.
  intros H. cbn [XmlRe.search].
  destruct (XmlRe.at_start "<xml>" (String c s)); [|done].
  by destruct (XmlRe.lazy_close (Py.drop 5 (String c s))).
Qed.

Lemma search_app_l (pre s : string) :
  is_Some (XmlRe.search s) -> is_Some (XmlRe.search (pre +:+ s)).
Proof.
  intros H. induction pre as [|c pre IH]; [done|].
  rewrite append_cons. by apply search_cons.
Qed.

Lemma search_app_r (s post : string) :
  is_Some (XmlRe.search s) -> is_Some (XmlRe.search (s +:+ post)).
Proof.
  induction s as [|c s IH]; [by intros [? ?]|].
  rewrite append_cons. cbn [XmlRe.search]. rewrite <- append_cons.
  destruct (XmlRe.at_start "<xml>" (String c s)) eqn:E.
  - rewrite (at_start_app _ _ _ E).
    rewrite drop_app_le by (apply at_start_length in E; exact E).
    destruct (XmlRe.lazy_close (Py.drop 5 (String c s))) eqn:El.
    + intros _.
      destruct (lazy_close_app (Py.drop 5 (String c s)) post) as [y ->]; [by rewrite El|done].
    + intros H. apply IH in H.
      destruct (XmlRe.lazy_close (Py.drop 5 (String c s) +:+ post)); [done|exact H].
  - intros H. apply IH in H.
    destruct (XmlRe.at_start "<xml>" (String c s +:+ post)); [|done].
    by destruct (XmlRe.lazy_close _).
Qed.

Lemma lazy_close_endswith (u : string) :
  Py.endswith (Py.lower u) "</xml>" = true -> is_Some (XmlRe.lazy_close u).
Proof.
  induction u as [|c u IH]; [discriminate|].
  rewrite endswith_unfold, lazy_close_unfold. intros [H|H]%orb_true_iff.
  - apply String.eqb_eq in H.
    rewrite at_start_lower by done. rewrite H. cbn. done.
  - cbn in H. apply IH in H.
    destruct (XmlRe.at_start "</xml>" (String c u)); [done|]. by apply fmap_is_Some.
Qed.

Lemma endswith_after_open (r : string) :
  Py.endswith ("<xml>" +:+ r) "</xml>" = Py.endswith r "</xml>".
Proof. reflexivity. Qed.

(** A text that passes the wrapper test holds an answer block. *)
Lemma well_wrapped_search (s : string) :
  well_wrapped s = true -> is_Some (XmlRe.search s).
Proof.
  unfold well_wrapped. intros [Hs He]%andb_true_iff.
  destruct s as [|c s]; [discriminate|]. cbn [XmlRe.search].
  rewrite at_start_lower by done. rewrite Hs.
  pose proof (startswith_split _ _ Hs) as Hl. rewrite Hl in He.
  rewrite endswith_after_open, <- lower_drop in He.
  apply lazy_close_endswith in He as [y Hy]. cbn [String.length] in Hy.
  by rewrite Hy.
Qed.

Lemma lstrip_suffix (t : string) : exists pre, t = pre +:+ Py.lstrip t.
Proof.
  induction t as [|c t [pre IH]]; [by exists ""|]. cbn.
  destruct (Py.isspace c); [|by exists ""].
  exists (String c pre). by rewrite append_cons, <- IH.
Qed.

Lemma rstrip_prefix (t : string) : exists post, t = Py.rstrip t +:+ post.
Proof.
  induction t as [|c t [post IH]]; [by exists ""|]. cbn.
  destruct (Py.rstrip t) as [|d r] eqn:E.
  - destruct (Py.isspace c).
    + exists (String c t). done.
    + exists t. done.
  - exists post. by rewrite append_cons, <- IH.
Qed.

Lemma strip_decompose (t : string) :
  exists pre post, t = pre +:+ Py.strip t +:+ post.
Proof.
  destruct (lstrip_suffix t) as [pre Hpre].
  destruct (rstrip_prefix (Py.lstrip t)) as [post Hpost].
  exists pre, post. unfold Py.strip. by rewrite <- Hpost.
Qed.

Lemma no_block_not_wrapped (t : string) :
  extract_xml_answer (Some t) = None -> well_wrapped (Py.strip t) = false.
Proof.
  unfold extract_xml_answer. intros H.
  destruct (well_wrapped (Py.strip t)) eqn:Hw; [|done].
  rewrite (strip_truthy t (well_wrapped_truthy _ Hw)) in H. cbn in H.
  apply well_wrapped_search in Hw.
  destruct (strip_decompose t) as (pre & post & Ht).
  apply (search_app_r _ post), (search_app_l pre) in Hw.
  rewrite <- Ht in Hw. destruct Hw as [y Hy]. by rewrite Hy in H.
Qed.

(** A response without answer block and without residue has no usable
    answer. *)
Lemma no_block_no_answer (content : option string) :
  extract_xml_answer content = None -> residue_empty content ->
  answer_of_content content = (None, Some "No valid <xml>...</xml> returned.").
Proof.
  intros He Hr. unfold answer_of_content. rewrite He. cbn [sanitize_xml py_or].
  destruct content as [t|]; [|done].
  unfold sanitize_xml. destruct (negb (Py.truthy t)); [done|].
  rewrite (no_block_not_wrapped t He). cbn in Hr. by rewrite Hr.
Qed.

Lemma truthy_true (s : string) : s <> "" -> Py.truthy s = true.
Proof. by destruct s. Qed.

(** C3. When the response the client obtains holds no answer block and the
    salvage stripping leaves nothing of it, normalization fails: the client
    returns no answer with the error "No valid <xml>...</xml> returned.",
    and the result of the record carries that error, an empty answer and no
    predicted label.  The empty prediction never comes without the error. *)
Theorem unparseable_response_is_error
  (i : nat) (rec : record) (c : string) (svc : service) (k : nat)
  (content : option string) :
  rec !! "comments" = Some (PyStr c) -> Py.strip c <> "" ->
  1 <= k <= MAX_RETRIES ->
  (forall j, 1 <= j < k -> retryable (svc j) = true) ->
  svc k = Content content ->
  extract_xml_answer content = None -> residue_empty content ->
  (ask_llm svc).1 = Some (None, Some "No valid <xml>...</xml> returned.") /\
  exists (r : result) (t : trace),
    classify_record (i, rec) svc = (inl r, t) /\
    calls t = k /\ idx r = i /\ xml r = "" /\ pred_labels r = [] /\
    error r = Some "No valid <xml>...</xml> returned." /\
    error r <> None /\ error r <> Some "".
Proof.
  intros Hc Hne Hk Hbefore Hs He Hr.
  assert (Hask : ask_llm svc =
    (Some (None, Some "No valid <xml>...</xml> returned."),
     {| calls := k; sleeps := backoff_delay <$> seq 0 (k - 1) |})).
  { rewrite (ask_llm_stops_at svc k); [|done|done|by rewrite Hs].
    rewrite Hs. cbn [final_answer]. by rewrite no_block_no_answer. }
  split; [by rewrite Hask|].
  unfold classify_record, rec_get. rewrite Hc. cbn [from_option id].
  rewrite (truthy_true _ Hne), Hask. cbn [negb].
  eexists _, _. split; [reflexivity|]. cbn.
  repeat split; try done; apply list_of_set_nil.
Qed.

Lemma unparseable_response_is_error_witness :
  (ask_llm svc_garbage).1 = Some (None, Some "No valid <xml>...</xml> returned.") /\
  exists (r : result) (t : trace),
    classify_record (3, {[ "comments" := PyStr "the admin password was hunter2" ]})
      svc_garbage = (inl r, t) /\
    calls t = 2 /\ idx r = 3 /\ xml r = "" /\ pred_labels r = [] /\
    error r = Some "No valid <xml>...</xml> returned." /\
    error r <> None /\ error r <> Some "".
Proof.
  apply (unparseable_response_is_error 3 _ "the admin password was hunter2"
           svc_garbage 2 (Some "```?!...```")).
  - apply lookup_singleton_eq.
  - vm_compute. discriminate.
  - unfold MAX_RETRIES. lia.
  - intros j Hj. assert (j = 1) as -> by lia. reflexivity.
  - reflexivity.
  - vm_compute. reflexivity.
  - vm_compute. reflexivity.
Defined.

(** ** The ground-truth normalizer *)

Lemma filter_ext_elem (P Q : string -> Prop)
  `{!forall x, Decision (P x), !forall x, Decision (Q x)} (l : list string) :
  (forall x, x ∈ l -> P x <-> Q x) -> filter P l = filter Q l.
Proof.
  induction l as [|x l IH]; intros Hext; [done|].
  rewrite !filter_cons.
  rewrite IH by (intros y Hy; apply Hext; by right).
  destruct (Hext x ltac:(left)) as [H1 H2].
  repeat case_decide; tauto.
Qed.

Lemma gt_labels_of_string (rec : record) (raw : string) :
  rec !! "classification" = Some (PyStr raw) ->
  parse_ground_truth_labels rec =
  first_seen (filter (fun p => p ∈ ALLOWED_LABELS ∧ p ≠ "none") (normalized_tokens raw)).
Proof.
  intros Hraw. unfold parse_ground_truth_labels, rec_get. rewrite Hraw.
  cbn [from_option id].
  destruct (Py.truthy (Py.strip raw)) eqn:E; cbn [negb].
  - rewrite dedup_first_seen, gt_token_loop_spec. done.
  - apply truthy_false in E. rewrite <- (normalized_tokens_strip raw), E.
    vm_compute. reflexivity.
Qed.

(** The claim of C5 fails on the code: in a stored string the sentinel next
    to another label does not empty the ground truth, while steps 3-5 of the
    response normalizer return the empty list on the same string. *)
Lemma gt_sentinel_counterexample :
  parse_ground_truth_labels {[ "classification" := PyStr "none,pii" ]} = ["pii"] /\
  labels_of_tokens (normalized_tokens "none,pii") = [] /\
  parse_labels_from_xml "<xml>none,pii</xml>" = [] /\
  parse_ground_truth_labels {[ "classification" := PyStr "none,pii" ]}
    <> parse_labels_from_xml ("<xml>" +:+ "none,pii" +:+ "</xml>").
Proof. vm_compute. repeat split; discriminate. Qed.

(** C5 (amended). For a stored taxonomy string the ground-truth normalizer
    returns the taxonomy members other than the sentinel among the normalized
    tokens, each once, in first-seen order; this is what steps 3-5 of the
    response normalizer return on that string whenever none of its tokens is
    the sentinel.  A missing field or a field that is not a string gives the
    empty list. *)
Theorem gt_normalizer_filters_sentinel (rec : record) :
  (forall raw : string,
      rec !! "classification" = Some (PyStr raw) ->
      parse_ground_truth_labels rec =
        first_seen (filter (fun p => p ∈ ALLOWED_LABELS ∧ p ≠ "none")
                      (normalized_tokens raw)) /\
      ("none" ∉ normalized_tokens raw ->
         parse_ground_truth_labels rec = labels_of_tokens (normalized_tokens raw) /\
         parse_ground_truth_labels rec =
           parse_labels_from_xml ("<xml>" +:+ raw +:+ "</xml>"))) /\
  (rec !! "classification" = None -> parse_ground_truth_labels rec = []) /\
  (forall v : pyval,
      rec !! "classification" = Some v -> (forall raw, v <> PyStr raw) ->
      parse_ground_truth_labels rec = []).
Proof.
  split; [|split].
  - intros raw Hraw. split; [by apply gt_labels_of_string|].
    intros Hnone.
    assert (parse_ground_truth_labels rec = labels_of_tokens (normalized_tokens raw)) as H.
    { rewrite (gt_labels_of_string rec raw Hraw). unfold labels_of_tokens.
      rewrite bool_decide_eq_false_2 by done. f_equal.
      apply filter_ext_elem. intros p Hp. split; [tauto|].
      intros Ha. split; [done|]. by intros ->. }
    split; [done|]. by rewrite parse_labels_block.
  - intros H. unfold parse_ground_truth_labels, rec_get. by rewrite H.
  - intros v H Hv. unfold parse_ground_truth_labels, rec_get. rewrite H.
    destruct v; try done. by destruct (Hv s).
Qed.

(** ** Counters *)

Lemma count_bump (l l' : string) (c : Counter) :
  count (bump l c) l' = if decide (l = l') then S (count c l) else count c l'.
Proof.
  unfold count at 1, bump. rewrite lookup_insert. by case_decide.
Qed.

Lemma lookup_bump_all (labels : gset string) (c : Counter) (l : string) :
  bump_all labels c !! l =
  if decide (l ∈ labels) then Some (S (count c l)) else c !! l.
Proof.
  unfold bump_all.
  assert ((l ∈ labels -> set_fold bump c labels !! l = Some (S (count c l))) /\
          (l ∉ labels -> set_fold bump c labels !! l = c !! l)) as [Hin Hout].
  { apply (set_fold_ind_L
             (fun (r : Counter) (X : gset string) =>
                (l ∈ X -> r !! l = Some (S (count c l))) /\
                (l ∉ X -> r !! l = c !! l))).
    - split; [set_solver|done].
    - intros x X r Hx [IHin IHout]. unfold bump. rewrite lookup_insert.
      destruct (decide (x = l)) as [->|Hne].
      + split; [|set_solver]. intros _. unfold count. by rewrite (IHout Hx).
      + split; intros H; [apply IHin|apply IHout]; set_solver. }
  case_decide; auto.
Qed.

Lemma count_bump_all (labels : gset string) (c : Counter) (l : string) :
  count (bump_all labels c) l =
  count c l + (if bool_decide (l ∈ labels) then 1 else 0).
Proof.
  unfold count at 1. rewrite lookup_bump_all.
  case_decide; case_bool_decide; try done; unfold count; cbn; lia.
Qed.

Lemma bump_all_comm (s1 s2 : gset string) (c : Counter) :
  bump_all s1 (bump_all s2 c) = bump_all s2 (bump_all s1 c).
Proof.
  apply map_eq. intros l. rewrite !lookup_bump_all.
  unfold count. rewrite !lookup_bump_all. unfold count.
  repeat case_decide; done.
Qed.

(** ** The live pass and the final pass *)

Lemma incr_if_comm (b1 b2 : bool) (n : nat) :
  incr_if b1 (incr_if b2 n) = incr_if b2 (incr_if b1 n).
Proof. destruct b1, b2; cbn; lia. Qed.

Lemma live_update_comm (m : live_metrics) (r1 r2 : result) (rec1 rec2 : record) :
  live_update (live_update m r1 rec1) r2 rec2 =
  live_update (live_update m r2 rec2) r1 rec1.
Proof.
  unfold live_update. cbn. f_equal.
  - apply incr_if_comm.
  - apply incr_if_comm.
  - apply bump_all_comm.
Qed.

Lemma foldl_comm_perm {A B : Type} (f : A -> B -> A) (l l' : list B) :
  (forall a x y, f (f a x) y = f (f a y) x) ->
  l ≡ₚ l' -> forall a, foldl f a l = foldl f a l'.
Proof.
  intros Hf Hp. induction Hp as [|x l l' _ IH|x y l|l1 l2 l3 _ IH1 _ IH2]; intros a; cbn.
  - done.
  - apply IH.
  - by rewrite Hf.
  - by rewrite IH1, IH2.
Qed.

Lemma live_part_update (m : final_metrics) (r : result) (rec : record) :
  live_part (final_update m r rec) = live_update (live_part m) r rec.
Proof. reflexivity. Qed.

(** The dispatch loop, when every index of the order is in range: the slots
    of the order are written and the live metrics are folded along it. *)
Lemma dispatch_loop_fold (w : world) (records : list record) (order : list nat) :
  Forall (fun i => i < length records) order ->
  forall st : dispatch_state,
    length (results st) = length records ->
    dispatch_loop w records order st =
      Some {| results :=
                foldl (fun res i => <[i := Some (result_at w records i)]> res)
                  (results st) order;
              live :=
                foldl (fun m i => live_update m (result_at w records i)
                                    (record_at records i))
                  (live st) order |}.
Proof.
  induction 1 as [|i order Hi _ IH]; intros st Hlen.
  - by destruct st.
  - cbn [dispatch_loop foldl]. unfold dispatch_step.
    destruct (lookup_lt_is_Some_2 records i Hi) as [rec Hrec].
    rewrite Hrec. cbn [mbind option_bind].
    rewrite decide_True by lia. cbn [mbind option_bind].
    rewrite IH by (cbn; by rewrite length_insert).
    unfold result_at, record_at. by rewrite Hrec.
Qed.

Lemma lookup_foldl_insert {A : Type} (f : nat -> A) (order : list nat) :
  forall (res : list A) (i : nat),
    i < length res ->
    foldl (fun res i => <[i := f i]> res) res order !! i =
    if decide (i ∈ order) then Some (f i) else res !! i.
Proof.
  induction order as [|j order IH]; intros res i Hi; cbn [foldl].
  - by rewrite decide_False by apply not_elem_of_nil.
  - rewrite IH by by rewrite length_insert.
    destruct (decide (i ∈ order)) as [Hin|Hnin].
    + by rewrite decide_True by by right.
    + destruct (decide (i = j)) as [->|Hne].
      * rewrite decide_True by by left. by apply list_lookup_insert_eq.
      * rewrite decide_False by (rewrite elem_of_cons; tauto).
        by apply list_lookup_insert_ne.
Qed.

Lemma length_foldl_insert {A : Type} (f : nat -> A) (order : list nat) :
  forall res : list A,
    length (foldl (fun res i => <[i := f i]> res) res order) = length res.
Proof.
  induction order as [|j order IH]; intros res; cbn [foldl]; [done|].
  by rewrite IH, length_insert.
Qed.

(** After a dispatch along a permutation of the indices, every slot holds
    the result of its own record. *)
Lemma dispatch_results (w : world) (records : list record) (order : list nat) :
  order ≡ₚ seq 0 (length records) ->
  exists st : dispatch_state,
    dispatch w records order = Some st /\
    results st = Some <$> (result_at w records <$> seq 0 (length records)) /\
    live st =
      foldl (fun m i => live_update m (result_at w records i) (record_at records i))
        live_zero (seq 0 (length records)).
Proof.
  intros Hp. unfold dispatch. eexists. split; [|split].
  - apply dispatch_loop_fold.
    + apply Forall_forall. intros i Hi. rewrite Hp in Hi.
      apply elem_of_seq in Hi. lia.
    + cbn. apply length_replicate.
  - cbn [results]. apply list_eq. intros i.
    destruct (decide (i < length records)) as [Hi|Hi].
    + rewrite lookup_foldl_insert by by rewrite length_replicate.
      rewrite decide_True by (rewrite Hp, elem_of_seq; lia).
      rewrite !list_lookup_fmap, lookup_seq_lt by done. done.
    + rewrite !lookup_ge_None_2; [done| |].
      * rewrite !length_fmap, length_seq. lia.
      * rewrite length_foldl_insert, length_replicate. lia.
  - cbn [live]. apply foldl_comm_perm; [|done].
    intros m i j. apply live_update_comm.
Qed.

Lemma final_loop_fold (rs : list result) (records : list record) :
  forall (i : nat) (m : final_metrics),
    i + length records <= length rs ->
    final_loop (Some <$> rs) i records m = Some (final_fold m (drop i rs) records).
Proof.
  induction records as [|rec records IH]; intros i m Hlen; cbn [final_loop].
  - by destruct (drop i rs).
  - cbn [length] in Hlen.
    destruct (lookup_lt_is_Some_2 rs i ltac:(lia)) as [r Hr].
    rewrite list_lookup_fmap, Hr. cbn [fmap option_fmap option_map mjoin option_join mbind option_bind].
    rewrite IH by lia. rewrite (drop_S _ _ _ Hr). done.
Qed.

Lemma final_pass_fold (rs : list result) (records : list record) :
  length records <= length rs ->
  final_pass records (Some <$> rs) = Some (final_fold final_zero rs records).
Proof. intros H. unfold final_pass. by rewrite final_loop_fold. Qed.

Lemma live_part_final_fold (w : world) (records all : list record) (ixs : list nat) :
  forall m : final_metrics,
    records = record_at all <$> ixs ->
    live_part (final_fold m (result_at w all <$> ixs) records) =
    foldl (fun m i => live_update m (result_at w all i) (record_at all i))
      (live_part m) ixs.
Proof.
  revert records. induction ixs as [|i ixs IH]; intros records m ->; [done|].
  cbn [fmap list_fmap final_fold foldl]. rewrite IH by done.
  by rewrite live_part_update.
Qed.

Lemma records_as_fmap (records : list record) :
  records = record_at records <$> seq 0 (length records).
Proof.
  apply list_eq. intros i. rewrite list_lookup_fmap. unfold record_at.
  destruct (decide (i < length records)) as [Hi|Hi].
  - rewrite lookup_seq_lt by done. cbn.
    destruct (lookup_lt_is_Some_2 records i Hi) as [rec ->]. done.
  - rewrite !lookup_ge_None_2; [done| |]; rewrite ?length_seq; lia.
Qed.

(** C1. Whatever the order in which the records complete (any permutation
    of their indices), the totals kept by the live pass - completed count,
    exact matches, hits including empty against empty, and the table of
    predicted labels - are those the final pass computes from the stored
    results in record order. *)
Theorem live_totals_match_final (w : world) (records : list record) (order : list nat) :
  order ≡ₚ seq 0 (length records) ->
  exists (st : dispatch_state) (fin : final_metrics),
    dispatch w records order = Some st /\
    final_pass records (results st) = Some fin /\
    sem_num_done (live st) = num_done fin /\
    sem_num_exact (live st) = num_exact fin /\
    sem_num_hit_incl_none (live st) = num_hit_incl_none fin /\
    sem_pred_label_freq (live st) = pred_label_freq fin.
Proof.
  intros Hp. destruct (dispatch_results w records order Hp) as (st & Hd & Hres & Hlive).
  exists st, (final_fold final_zero (result_at w records <$> seq 0 (length records)) records).
  split; [done|]. split.
  - rewrite Hres. apply final_pass_fold. by rewrite length_fmap, length_seq.
  - assert (live st = live_part
        (final_fold final_zero (result_at w records <$> seq 0 (length records)) records))
      as ->; [|done].
    rewrite Hlive. symmetry.
    apply (live_part_final_fold w records records), records_as_fmap.
Qed.

(** ** Per-label counts *)

Lemma count_final_fold (proj : final_metrics -> Counter)
  (sel : result -> record -> gset string) (l : string) :
  (forall m r rec, proj (final_update m r rec) = bump_all (sel r rec) (proj m)) ->
  forall (rs : list result) (records : list record) (m : final_metrics),
    count (proj (final_fold m rs records)) l =
    count (proj m) l + tally (fun r rec => bool_decide (l ∈ sel r rec)) rs records.
Proof.
  intros Hproj. induction rs as [|r rs IH]; intros records m; cbn; [lia|].
  destruct records as [|rec records]; cbn; [lia|].
  rewrite IH, Hproj, count_bump_all. lia.
Qed.

Lemma tally_ext (P Q : result -> record -> bool) (rs : list result)
  (records : list record) :
  (forall r rec, P r rec = Q r rec) -> tally P rs records = tally Q rs records.
Proof.
  intros H. revert records. induction rs as [|r rs IH]; intros [|rec records]; cbn; try done.
  by rewrite H, IH.
Qed.

Lemma tally_split (P Q R : result -> record -> bool) (rs : list result)
  (records : list record) :
  (forall r rec,
      (if P r rec then 1 else 0) + (if Q r rec then 1 else 0) = if R r rec then 1 else 0) ->
  tally P rs records + tally Q rs records = tally R rs records.
Proof.
  intros H. revert records. induction rs as [|r rs IH]; intros [|rec records]; cbn; try done.
  specialize (IH records). specialize (H r rec). lia.
Qed.

(** C8. For every result set and every label: the true-positive count is
    the number of records with the label in both sets, the false-positive
    count the number with the label in the predicted set only, the
    false-negative count the number with the label in the ground truth only;
    true plus false positives is the number of records whose predicted set
    holds the label, true positives plus false negatives the number whose
    ground-truth set holds it, and these are the two frequency tables. *)
Theorem label_counts_add_up (records : list record) (rs : list result) (l : string) :
  length rs = length records ->
  exists fin : final_metrics,
    final_pass records (Some <$> rs) = Some fin /\
    count (tp_label fin) l =
      tally (fun r rec => bool_decide (l ∈ pred_set_of r ∧ l ∈ gt_set_of rec)) rs records /\
    count (fp_label fin) l =
      tally (fun r rec => bool_decide (l ∈ pred_set_of r ∧ l ∉ gt_set_of rec)) rs records /\
    count (fn_label fin) l =
      tally (fun r rec => bool_decide (l ∈ gt_set_of rec ∧ l ∉ pred_set_of r)) rs records /\
    count (tp_label fin) l + count (fp_label fin) l =
      tally (fun r rec => bool_decide (l ∈ pred_set_of r)) rs records /\
    count (tp_label fin) l + count (fn_label fin) l =
      tally (fun r rec => bool_decide (l ∈ gt_set_of rec)) rs records /\
    count (pred_label_freq fin) l =
      tally (fun r rec => bool_decide (l ∈ pred_set_of r)) rs records /\
    count (gt_label_freq fin) l =
      tally (fun r rec => bool_decide (l ∈ gt_set_of rec)) rs records.
Proof.
  intros Hlen. eexists. split; [apply final_pass_fold; lia|].
  rewrite (count_final_fold tp_label (fun r rec => pred_set_of r ∩ gt_set_of rec)) by done.
  rewrite (count_final_fold fp_label (fun r rec => pred_set_of r ∖ gt_set_of rec)) by done.
  rewrite (count_final_fold fn_label (fun r rec => gt_set_of rec ∖ pred_set_of r)) by done.
  rewrite (count_final_fold pred_label_freq (fun r rec => pred_set_of r)) by done.
  rewrite (count_final_fold gt_label_freq (fun r rec => gt_set_of rec)) by done.
  cbn [final_zero tp_label fp_label fn_label pred_label_freq gt_label_freq].
  unfold count at 1 2 3 4 5 6 7 8 9. rewrite !lookup_empty. cbn [default from_option id plus].
  repeat split.
  - apply tally_ext. intros r rec. apply bool_decide_ext. set_solver.
  - apply tally_ext. intros r rec. apply bool_decide_ext. set_solver.
  - apply tally_ext. intros r rec. apply bool_decide_ext. set_solver.
  - apply tally_split. intros r rec. repeat case_bool_decide; set_solver.
  - apply tally_split. intros r rec. repeat case_bool_decide; set_solver.
Qed.

(** ** The worker pool and the positional results *)

Lemma pool_step_perm (W : nat) (p p' : pool) :
  pool_step W p p' ->
  queued p' ++ running p' ++ finished p' ≡ₚ queued p ++ running p ++ finished p.
Proof.
  destruct 1 as [i q r f _|i q r1 r2 f]; cbn.
  - rewrite <- !app_assoc. cbn.
    by rewrite (app_assoc q r), <- Permutation_middle, <- app_assoc.
  - apply Permutation_app_head.
    rewrite <- !app_assoc. apply Permutation_app_head.
    rewrite app_assoc. apply (Permutation_app_comm (r2 ++ f) [i]).
Qed.

Lemma pool_rtc_perm (W : nat) (p p' : pool) :
  rtc (pool_step W) p p' ->
  queued p' ++ running p' ++ finished p' ≡ₚ queued p ++ running p ++ finished p.
Proof.
  induction 1 as [|p p1 p2 Hstep _ IH]; [done|].
  rewrite IH. by apply (pool_step_perm W).
Qed.

Lemma pool_step_finished (W : nat) (p p' : pool) (i : nat) :
  pool_step W p p' -> i ∈ finished p -> i ∈ finished p'.
Proof.
  destruct 1 as [j q r f _|j q r1 r2 f]; cbn; [done|].
  intros Hi. apply elem_of_app. by left.
Qed.

Lemma as_completed_step_inv (W n : nat) (s s' : pool * list nat) :
  as_completed_step W s s' -> yield_inv n s -> yield_inv n s'.
Proof.
  destruct 1 as [p p' y Hstep|p y i Hi Hy]; intros (Hnd & Hsub & Hperm); cbn in *.
  - split; [done|]. split.
    + intros i Hi. eapply pool_step_finished; [done|]. by apply Hsub.
    + by rewrite (pool_step_perm W p p').
  - split; [|split; [|done]].
    + apply NoDup_app. split; [done|]. split; [|apply NoDup_singleton].
      intros j Hj ->%list_elem_of_singleton. done.
    + intros j [Hj| ->%list_elem_of_singleton]%elem_of_app; [by apply Hsub|done].
Qed.

Lemma as_completed_rtc_inv (W n : nat) (s s' : pool * list nat) :
  rtc (as_completed_step W) s s' -> yield_inv n s -> yield_inv n s'.
Proof.
  induction 1 as [|s s1 s2 Hstep _ IH]; [done|].
  intros Hs. apply IH. by eapply as_completed_step_inv.
Qed.

(** Every future is yielded exactly once. *)
Lemma completion_order_perm (W n : nat) (order : list nat) :
  completion_order W n order -> order ≡ₚ seq 0 n.
Proof.
  intros (p & Hrun & [Hq Hr] & Hall).
  apply (as_completed_rtc_inv W n) in Hrun as (Hnd & Hsub & Hperm); cbn in *.
  - rewrite Hq, Hr in Hperm. cbn in Hperm. rewrite <- Hperm.
    apply NoDup_Permutation; [done| |].
    + rewrite Hperm. apply NoDup_seq.
    + intros i. split; [apply Hsub|apply Hall].
  - split; [constructor|]. split; [by intros i Hi%elem_of_nil|].
    by rewrite !app_nil_r.
Qed.

Lemma pool_runs_in_order (W : nat) (q f : list nat) :
  1 <= W ->
  rtc (pool_step W) {| queued := q; running := []; finished := f |}
                    {| queued := []; running := []; finished := f ++ q |}.
Proof.
  intros HW. revert f. induction q as [|i q IH]; intros f.
  - by rewrite app_nil_r.
  - eapply rtc_l; [apply pool_start; cbn; lia|].
    eapply rtc_l; [apply (pool_finish W i q [] [] f)|].
    cbn. replace (f ++ i :: q) with ((f ++ [i]) ++ q) by by rewrite <- app_assoc.
    apply IH.
Qed.

Lemma yield_wait_rtc (W : nat) (p p' : pool) (y : list nat) :
  rtc (pool_step W) p p' -> rtc (as_completed_step W) (p, y) (p', y).
Proof.
  induction 1 as [|p p1 p2 Hstep _ IH]; [done|].
  eapply rtc_l; [by apply yield_wait|done].
Qed.

Lemma yield_next_rtc (W : nat) (p : pool) (rest : list nat) :
  forall y, NoDup (y ++ rest) -> (forall i, i ∈ rest -> i ∈ finished p) ->
    rtc (as_completed_step W) (p, y) (p, y ++ rest).
Proof.
  induction rest as [|i rest IH]; intros y Hnd Hfin.
  - by rewrite app_nil_r.
  - eapply rtc_l.
    + apply (yield_next W p y i).
      * apply Hfin. by left.
      * apply NoDup_app in Hnd as (_ & Hdis & _). intros Hi.
        apply (Hdis i Hi). by left.
    + replace (y ++ i :: rest) with ((y ++ [i]) ++ rest) by by rewrite <- app_assoc.
      apply IH.
      * by rewrite <- app_assoc.
      * intros j Hj. apply Hfin. by right.
Qed.

(** With at least one worker, every order of the futures is one that
    [as_completed] may yield: all tasks may have finished before the loop
    asks for the first future. *)
Lemma completion_order_any (W n : nat) (order : list nat) :
  1 <= W -> order ≡ₚ seq 0 n -> completion_order W n order.
Proof.
  intros HW Hp.
  exists {| queued := []; running := []; finished := seq 0 n |}.
  split; [|split; [done|]].
  - etrans.
    + apply yield_wait_rtc, (pool_runs_in_order W (seq 0 n) []), HW.
    + apply (yield_next_rtc W _ order []); cbn.
      * rewrite Hp. apply NoDup_seq.
      * intros i Hi. by rewrite <- Hp.
  - cbn. intros i Hi. by rewrite Hp.
Qed.

(** With at least one worker the pool completes every task. *)
Lemma pool_completes (W n : nat) : 1 <= W -> completion_order W n (seq 0 n).
Proof. intros HW. by apply completion_order_any. Qed.

(** The orders [as_completed] may yield are the orders of the indices, also
    on a single worker, where the tasks finish in record order. *)
Lemma completion_order_iff (W n : nat) (order : list nat) :
  1 <= W -> completion_order W n order <-> order ≡ₚ seq 0 n.
Proof.
  intros HW. split; [apply completion_order_perm|by apply completion_order_any].
Qed.

Example single_worker_orders :
  completion_order 1 3 [2; 0; 1] /\ completion_order 4 50 (last_first 50) /\
  head (last_first 50) = Some 49.
Proof.
  split; [|split; [|done]].
  - apply completion_order_any; [lia|]. apply NoDup_Permutation.
    + by apply (bool_decide_unpack _).
    + apply NoDup_seq.
    + intros i. cbn. rewrite !elem_of_cons, !elem_of_nil. lia.
  - apply completion_order_any; [lia|]. unfold last_first. by rewrite reverse_Permutation.
Qed.

(** The pool never blocks before the end, and every step brings it closer
    to it: a run is finite and can only stop when all tasks are finished. *)
Lemma pool_progress (W : nat) (p : pool) :
  1 <= W -> ~ pool_done p -> exists p', pool_step W p p'.
Proof.
  intros HW Hnd. destruct p as [q r f].
  destruct r as [|i r].
  - destruct q as [|i q]; [by destruct Hnd|].
    eexists. apply pool_start. cbn. lia.
  - eexists. apply (pool_finish W i q [] r f).
Qed.

Lemma pool_step_measure (W : nat) (p p' : pool) :
  pool_step W p p' ->
  2 * length (queued p') + length (running p')
  < 2 * length (queued p) + length (running p).
Proof.
  destruct 1 as [i q r f _|i q r1 r2 f]; cbn; rewrite !length_app; cbn; lia.
Qed.

(** The client always returns a pair, and the worker a result. *)
Lemma ask_llm_returns (svc : service) :
  exists (xml err : option string) (t : trace), ask_llm svc = (Some (xml, err), t).
Proof.
  destruct (ask_llm_trace svc) as (k & _ & ->).
  destruct (final_answer (svc k)) as [xml err]. by eexists _, _, _.
Qed.

Lemma classify_record_returns (i : nat) (rec : record) (svc : service) :
  exists (r : result) (t : trace), classify_record (i, rec) svc = (inl r, t).
Proof.
  unfold classify_record.
  destruct (rec_get rec "comments") as [| | |c|]; try by eexists _, _.
  destruct (negb (Py.truthy (Py.strip c))); [by eexists _, _|].
  destruct (ask_llm_returns svc) as (xml & err & t & ->). by eexists _, _.
Qed.

(** An empty input stops the run before any dispatch. *)
Lemma run_empty (w : world) (order : list nat) :
  run w [] order = inl "No records found in input.".
Proof. reflexivity. Qed.

Lemma classify_record_idx (i : nat) (rec : record) (svc : service)
  (r : result) (t : trace) :
  classify_record (i, rec) svc = (inl r, t) -> idx r = i.
Proof.
  unfold classify_record.
  destruct (rec_get rec "comments") as [| | |c|]; try by intros [= <- _].
  destruct (negb (Py.truthy (Py.strip c))); [by intros [= <- _]|].
  destruct (ask_llm svc) as [[[x err]|] t']; [by intros [= <- _]|discriminate].
Qed.

Lemma idx_completed (w : world) (i : nat) (rec : record) :
  idx (completed w i rec) = i.
Proof.
  unfold completed, fut_result.
  destruct (worker_fault w i); [done|].
  destruct (classify_record (i, rec) (remote w i)) as [[r|e] t] eqn:E; [|done].
  by apply classify_record_idx in E.
Qed.

Lemma omap_id_Some {A : Type} (l : list A) : omap id (Some <$> l) = l.
Proof. induction l as [|x l IH]; [done|]. cbn. by rewrite IH. Qed.

(** The run on a non-empty input, along any permutation of the indices. *)
Lemma run_results (w : world) (records : list record) (order : list nat) :
  records <> [] -> order ≡ₚ seq 0 (length records) ->
  exists (st : dispatch_state) (fin : final_metrics),
    run w records order = inr (Some (st, fin)) /\
    results st = Some <$> (result_at w records <$> seq 0 (length records)).
Proof.
  intros Hne Hp.
  destruct (dispatch_results w records order Hp) as (st & Hd & Hres & _).
  exists st. eexists. split; [|done].
  unfold run. destruct records as [|rec records]; [done|].
  rewrite Hd. cbn [mbind option_bind]. rewrite Hres.
  rewrite final_pass_fold by by rewrite length_fmap, length_seq. done.
Qed.

(** C9. Dispatching [N] records on a pool of [W <= N] workers, for [N] in
    {0, 1, 50} and [W] in {1, 4, 50}: whatever the order in which
    [as_completed] yields the futures (every order of the indices is one,
    [completion_order_any]), the results collection has exactly [N] entries,
    the entry at each position is the result whose identifier is that
    position, and the identifiers stored are 0, ..., N-1, each once. *)
Theorem dispatch_fills_every_slot
  (W N : nat) (w : world) (records : list record) (order : list nat) :
  N ∈ [0; 1; 50] -> W ∈ [1; 4; 50] -> W <= N ->
  length records = N -> completion_order W N order ->
  exists (st : dispatch_state) (fin : final_metrics),
    run w records order = inr (Some (st, fin)) /\
    length (results st) = N /\
    (forall i, i < N -> exists r, results st !! i = Some (Some r) /\ idx r = i) /\
    idx <$> omap id (results st) = seq 0 N.
Proof.
  intros HN HW HWN Hlen Horder.
  assert (1 <= W) as HW1.
  { apply list_elem_of_In in HW. cbn in HW. lia. }
  apply completion_order_perm in Horder. subst N.
  destruct (run_results w records order) as (st & fin & Hrun & Hres); [|done|].
  { intros ->. cbn in HWN. lia. }
  exists st, fin. split; [done|]. rewrite Hres. repeat split.
  - by rewrite !length_fmap, length_seq.
  - intros i Hi. eexists. split; [|apply idx_completed].
    rewrite !list_lookup_fmap, lookup_seq_lt by done. done.
  - rewrite omap_id_Some, <- list_fmap_compose.
    rewrite <- (list_fmap_id (seq 0 (length records))) at 2.
    apply list_fmap_ext. intros _ i _. apply idx_completed.
Qed.

(** ** The response normalizer on a whole response *)

Lemma contains_ci_unfold (p s : string) :
  contains_ci p s =
  XmlRe.at_start p s ||
  match s with EmptyString => false | String _ s' => contains_ci p s' end.
Proof. by destruct s. Qed.

Lemma at_start_app_inv (p a s : string) :
  XmlRe.at_start p (a +:+ s) = true ->
  XmlRe.at_start p a = true \/
  (String.length a < String.length p /\
   XmlRe.at_start (Py.drop (String.length a) p) s = true).
Proof.
  revert a. induction p as [|d p IH]; intros a H; [by left|].
  destruct a as [|x a].
  - right. split; [cbn; lia|done].
  - rewrite append_cons in H. cbn in H. apply andb_true_iff in H as [Hx H].
    destruct (IH a H) as [Ha|[Hlen Ha]].
    + left. cbn. by rewrite Hx, Ha.
    + right. split; [cbn; lia|done].
Qed.

(** No occurrence of a tag straddles the end of a text that is followed by
    the character [<]. *)
Lemma no_straddle_open (a s : string) (x : ascii) :
  Py.lower_char x = "<"%char -> a <> "" ->
  XmlRe.at_start "<xml>" a = false ->
  XmlRe.at_start "<xml>" (a +:+ String x s) = false.
Proof.
  intros Hx Hne Ha.
  destruct (XmlRe.at_start "<xml>" (a +:+ String x s)) eqn:E; [|done].
  apply at_start_app_inv in E as [E|[Hlen E]]; [congruence|].
  destruct a as [|a1 [|a2 [|a3 [|a4 [|a5 a]]]]]; try done;
    cbn in E, Hlen; try lia;
    unfold XmlRe.ci_eq in E; rewrite Hx in E; discriminate.
Qed.

Lemma no_straddle_close (a s : string) (x : ascii) :
  Py.lower_char x = "<"%char -> a <> "" ->
  XmlRe.at_start "</xml>" a = false ->
  XmlRe.at_start "</xml>" (a +:+ String x s) = false.
Proof.
  intros Hx Hne Ha.
  destruct (XmlRe.at_start "</xml>" (a +:+ String x s)) eqn:E; [|done].
  apply at_start_app_inv in E as [E|[Hlen E]]; [congruence|].
  destruct a as [|a1 [|a2 [|a3 [|a4 [|a5 [|a6 a]]]]]]; try done;
    cbn in E, Hlen; try lia;
    unfold XmlRe.ci_eq in E; rewrite Hx in E; discriminate.
Qed.

Lemma search_skip (pre s : string) (x : ascii) :
  Py.lower_char x = "<"%char -> contains_ci "<xml>" pre = false ->
  XmlRe.search (pre +:+ String x s) = XmlRe.search (String x s).
Proof.
  intros Hx. induction pre as [|c pre IH]; [done|].
  rewrite contains_ci_unfold. intros [Ha Hc]%orb_false_iff.
  rewrite append_cons. cbn [XmlRe.search]. rewrite <- append_cons.
  rewrite no_straddle_open by done. by apply IH.
Qed.

Lemma lazy_close_skip (c s : string) (x : ascii) :
  Py.lower_char x = "<"%char -> contains_ci "</xml>" c = false ->
  XmlRe.lazy_close (c +:+ String x s) =
  (fun body => c +:+ body) <$> XmlRe.lazy_close (String x s).
Proof.
  intros Hx. induction c as [|d c IH].
  - intros _. rewrite append_nil_l. by destruct (XmlRe.lazy_close (String x s)).
  - rewrite contains_ci_unfold. intros [Ha Hc]%orb_false_iff.
    rewrite lazy_close_unfold, no_straddle_close by done.
    rewrite append_cons, IH by done.
    by destruct (XmlRe.lazy_close (String x s)).
Qed.

Lemma lower_head (t u : string) (x : ascii) :
  Py.lower t = String x u ->
  exists y t', t = String y t' /\ Py.lower_char y = x /\ Py.lower t' = u.
Proof. destruct t as [|y t']; [discriminate|]. intros [= <- <-]. by eexists _, _. Qed.

(** The search finds the block that follows a prose without opening tag. *)
Lemma search_block (pre o c cl post : string) :
  Py.lower o = "<xml>" -> Py.lower cl = "</xml>" ->
  contains_ci "<xml>" pre = false -> contains_ci "</xml>" c = false ->
  XmlRe.search (pre +:+ (o +:+ c +:+ cl) +:+ post) = Some (o +:+ c +:+ cl).
Proof.
  intros Ho Hcl Hpre Hc.
  assert (String.length o = 5) as Holen by by apply lower_eq_length in Ho.
  assert (String.length cl = 6) as Hcllen by by apply lower_eq_length in Hcl.
  assert (XmlRe.at_start "<xml>" (o +:+ (c +:+ cl +:+ post)) = true) as Hat.
  { rewrite at_start_lower, lower_append, Ho by done. apply startswith_append. }
  assert (XmlRe.at_start "</xml>" (cl +:+ post) = true) as Hat'.
  { rewrite at_start_lower, lower_append, Hcl by done. apply startswith_append. }
  destruct (lower_head _ _ _ Ho) as (o1 & o' & -> & Ho1 & _).
  destruct (lower_head _ _ _ Hcl) as (c1 & cl' & -> & Hc1 & _).
  rewrite !append_assoc. rewrite append_cons, search_skip by done.
  set (rest := c +:+ String c1 cl' +:+ post) in *.
  cbn [XmlRe.search]. rewrite <- !(append_cons o1 o' rest), Hat.
  replace (Py.drop 5 (String o1 o' +:+ rest)) with rest
    by (rewrite <- Holen; symmetry; apply drop_append_length).
  replace (Py.take 5 (String o1 o' +:+ rest)) with (String o1 o')
    by (rewrite <- Holen; symmetry; apply take_append_length).
  subst rest. rewrite append_cons, lazy_close_skip by done.
  rewrite <- (append_cons c1 cl' post), lazy_close_unfold, Hat'.
  replace (Py.take 6 (String c1 cl' +:+ post)) with (String c1 cl')
    by (rewrite <- Hcllen; symmetry; apply take_append_length).
  done.
Qed.

(** The labels of a response are those of the inner content of its block. *)
Lemma response_labels_block (pre o c cl post : string) :
  Py.lower o = "<xml>" -> Py.lower cl = "</xml>" ->
  contains_ci "<xml>" pre = false -> contains_ci "</xml>" c = false ->
  response_labels (pre +:+ (o +:+ c +:+ cl) +:+ post) =
  labels_of_tokens (normalized_tokens c).
Proof.
  intros Ho Hcl Hpre Hc.
  destruct (block_fixed o c cl Ho Hcl) as [Hs Hw].
  pose proof (well_wrapped_truthy _ Hw) as Ht.
  unfold response_labels, answer_of_content, extract_xml_answer.
  rewrite search_block by done.
  assert (Py.truthy (pre +:+ (o +:+ c +:+ cl) +:+ post) = true) as ->.
  { destruct (lower_head _ _ _ Ho) as (o1 & o' & -> & _ & _).
    destruct pre; [by rewrite append_nil_l, !append_cons|by rewrite append_cons]. }
  cbn [negb fmap option_fmap option_map]. rewrite Hs.
  rewrite sanitize_wrapped by by rewrite Hs.
  rewrite Hs. cbn [py_or]. rewrite Ht. cbv iota. rewrite Ht.
  cbn [fst]. cbv iota. rewrite Ht.
  by apply parse_labels_block.
Qed.

Lemma isspace_not_sig (c : ascii) : cls_sig c = true -> not_space c = true.
Proof. unfold not_space. intros H. by rewrite cls_sig_not_space. Qed.

Lemma lower_keep_not_space (s : string) :
  Py.lower (Py.keep not_space s) = Py.keep not_space (Py.lower s).
Proof.
  induction s as [|c s IH]; [done|]. cbn [Py.lower Py.keep].
  assert (not_space (Py.lower_char c) = not_space c) as ->
    by (unfold not_space; by rewrite isspace_lower_char).
  destruct (not_space c); cbn [Py.lower]; by rewrite IH.
Qed.

Lemma signature_squeeze (c : string) :
  signature c = Py.keep cls_sig (squeeze c).
Proof.
  unfold signature, squeeze. rewrite lower_keep_not_space.
  symmetry. apply keep_keep, isspace_not_sig.
Qed.

(** White space and case do not reach the tokens. *)
Lemma normalized_tokens_squeeze (c1 c2 : string) :
  squeeze c1 = squeeze c2 -> normalized_tokens c1 = normalized_tokens c2.
Proof. intros H. by rewrite !tokens_signature, !signature_squeeze, H. Qed.

(** The predicted labels of a record are those of the response obtained. *)
Lemma classify_record_response (i : nat) (rec : record) (c : string)
  (svc : service) (k : nat) (content : string) :
  rec !! "comments" = Some (PyStr c) -> Py.strip c <> "" ->
  1 <= k <= MAX_RETRIES ->
  (forall j, 1 <= j < k -> retryable (svc j) = true) ->
  svc k = Content (Some content) ->
  exists (r : result) (t : trace),
    classify_record (i, rec) svc = (inl r, t) /\
    pred_labels r = list_of_set (response_labels content) /\
    pred_set_of r = response_label_set content.
Proof.
  intros Hc Hne Hk Hbefore Hs.
  unfold classify_record, rec_get. rewrite Hc. cbn [from_option id].
  rewrite (truthy_true _ Hne). cbn [negb].
  rewrite (ask_llm_stops_at svc k); [|done|done|by rewrite Hs].
  rewrite Hs. cbn [final_answer]. unfold response_label_set, response_labels.
  destruct (answer_of_content (Some content)) as [x err].
  by eexists _, _.
Qed.

(** The claim of C7 fails on the code: prose in front of the block that
    mentions the opening tag moves the match, and the labels are lost. *)
Lemma prose_with_tag_counterexample :
  response_label_set "<xml>pii</xml>" = {[ "pii" ]} /\
  response_label_set ("Answer in <xml> tags: " +:+ "<xml>pii</xml>") = ∅ /\
  response_label_set ("Answer in <xml> tags: " +:+ "<xml>pii</xml>")
    <> response_label_set "<xml>pii</xml>".
Proof.
  assert (response_label_set "<xml>pii</xml>" = {[ "pii" ]}) as H1
    by (vm_compute; reflexivity).
  assert (response_label_set ("Answer in <xml> tags: " +:+ "<xml>pii</xml>") = ∅) as H2
    by (vm_compute; reflexivity).
  split; [done|]. split; [done|]. rewrite H1, H2.
  intros H. apply (f_equal (fun s : gset string => bool_decide ("pii" ∈ s))) in H.
  vm_compute in H. discriminate.
Qed.

(** C7 (amended). For two responses that each hold a delimited answer block
    (the tags in any case), where the prose in front of the block does not
    hold the opening tag and the inner content does not hold the closing
    tag: if the inner contents are the same up to white space and case, the
    normalized labels are the same, whatever the prose around the blocks.
    In particular [<xml>credentials,pii</xml>] and
    [<xml>PII, Credentials</xml>] both give the set {credentials, pii}. *)
Theorem block_labels_invariant :
  (forall pre1 o1 c1 cl1 post1 pre2 o2 c2 cl2 post2 : string,
      Py.lower o1 = "<xml>" -> Py.lower cl1 = "</xml>" ->
      Py.lower o2 = "<xml>" -> Py.lower cl2 = "</xml>" ->
      contains_ci "<xml>" pre1 = false -> contains_ci "<xml>" pre2 = false ->
      contains_ci "</xml>" c1 = false -> contains_ci "</xml>" c2 = false ->
      squeeze c1 = squeeze c2 ->
      response_labels (pre1 +:+ (o1 +:+ c1 +:+ cl1) +:+ post1) =
        response_labels (pre2 +:+ (o2 +:+ c2 +:+ cl2) +:+ post2) /\
      response_label_set (pre1 +:+ (o1 +:+ c1 +:+ cl1) +:+ post1) =
        response_label_set (pre2 +:+ (o2 +:+ c2 +:+ cl2) +:+ post2)) /\
  response_label_set "<xml>credentials,pii</xml>" = {[ "credentials"; "pii" ]} /\
  response_label_set "<xml>PII, Credentials</xml>" = {[ "credentials"; "pii" ]}.
Proof.
  split; [|split; vm_compute; reflexivity].
  intros pre1 o1 c1 cl1 post1 pre2 o2 c2 cl2 post2
    Ho1 Hcl1 Ho2 Hcl2 Hpre1 Hpre2 Hc1 Hc2 Hsq.
  assert (response_labels (pre1 +:+ (o1 +:+ c1 +:+ cl1) +:+ post1) =
          response_labels (pre2 +:+ (o2 +:+ c2 +:+ cl2) +:+ post2)) as H.
  { rewrite !response_labels_block by done.
    by rewrite (normalized_tokens_squeeze c1 c2). }
  split; [done|]. unfold response_label_set. by rewrite H.
Qed.

Lemma block_labels_invariant_witness :
  response_labels ("Here you go: " +:+ ("<XML>" +:+ " PII ,
 Network_Identifiers: " +:+ "</Xml>") +:+ " Hope this helps, see </xml>.") =
  response_labels ("" +:+ ("<xml>" +:+ "pii,network_identifiers:" +:+ "</xml>") +:+ "").
Proof.
  apply (proj1 block_labels_invariant); vm_compute; reflexivity.
Defined.

(** ** The properties at concrete inputs *)

Lemma live_totals_match_final_witness :
  exists (st : dispatch_state) (fin : final_metrics),
    dispatch world_credentials [rec_password; rec_blank] [1; 0] = Some st /\
    final_pass [rec_password; rec_blank] (results st) = Some fin /\
    sem_num_done (live st) = num_done fin /\
    sem_num_exact (live st) = num_exact fin /\
    sem_num_hit_incl_none (live st) = num_hit_incl_none fin /\
    sem_pred_label_freq (live st) = pred_label_freq fin.
Proof.
  apply live_totals_match_final. cbn. apply perm_swap.
Defined.

Lemma gt_normalizer_filters_sentinel_witness :
  parse_ground_truth_labels rec_mixed =
  parse_labels_from_xml ("<xml>" +:+ "PII, pii ,conflict" +:+ "</xml>").
Proof.
  apply (proj1 (gt_normalizer_filters_sentinel rec_mixed) "PII, pii ,conflict").
  - reflexivity.
  - apply (bool_decide_eq_true_1 _). vm_compute. reflexivity.
Defined.

Lemma label_counts_add_up_witness :
  exists fin : final_metrics,
    final_pass [rec_password; rec_blank] (Some <$> two_results) = Some fin /\
    count (tp_label fin) "pii" =
      tally (fun r rec => bool_decide ("pii" ∈ pred_set_of r ∧ "pii" ∈ gt_set_of rec))
        two_results [rec_password; rec_blank] /\
    count (fp_label fin) "pii" =
      tally (fun r rec => bool_decide ("pii" ∈ pred_set_of r ∧ "pii" ∉ gt_set_of rec))
        two_results [rec_password; rec_blank] /\
    count (fn_label fin) "pii" =
      tally (fun r rec => bool_decide ("pii" ∈ gt_set_of rec ∧ "pii" ∉ pred_set_of r))
        two_results [rec_password; rec_blank] /\
    count (tp_label fin) "pii" + count (fp_label fin) "pii" =
      tally (fun r rec => bool_decide ("pii" ∈ pred_set_of r))
        two_results [rec_password; rec_blank] /\
    count (tp_label fin) "pii" + count (fn_label fin) "pii" =
      tally (fun r rec => bool_decide ("pii" ∈ gt_set_of rec))
        two_results [rec_password; rec_blank] /\
    count (pred_label_freq fin) "pii" =
      tally (fun r rec => bool_decide ("pii" ∈ pred_set_of r))
        two_results [rec_password; rec_blank] /\
    count (gt_label_freq fin) "pii" =
      tally (fun r rec => bool_decide ("pii" ∈ gt_set_of rec))
        two_results [rec_password; rec_blank].
Proof.
  apply label_counts_add_up. reflexivity.
Defined.

Lemma dispatch_fills_every_slot_witness :
  exists (st : dispatch_state) (fin : final_metrics),
    run world_credentials fifty_records (last_first 50) = inr (Some (st, fin)) /\
    length (results st) = 50 /\
    (forall i, i < 50 -> exists r, results st !! i = Some (Some r) /\ idx r = i) /\
    idx <$> omap id (results st) = seq 0 50.
Proof.
  apply (dispatch_fills_every_slot 4 50).
  - right. right. left.
  - right. left.
  - lia.
  - reflexivity.
  - apply completion_order_any; [lia|]. unfold last_first. by rewrite reverse_Permutation.
Defined.

(** Three records whose futures are yielded as 2, 0, 1: the results are in
    record order all the same. *)
Example run_out_of_order :
  exists st fin,
    run world_credentials [rec_password; rec_blank; rec_mixed] [2; 0; 1]
      = inr (Some (st, fin)) /\
    idx <$> omap id (results st) = [0; 1; 2] /\
    xml <$> omap id (results st)
      = ["<xml>credentials</xml>"; "<xml>none</xml>"; "<xml>none</xml>"] /\
    error <$> omap id (results st)
      = [None; Some "Missing or empty 'comments'.";
         Some "Missing or empty 'comments'."].
Proof. do 2 eexists. split; [vm_compute; reflexivity|]. vm_compute. done. Qed.

(** A run on a single record, computed. *)
Example run_single_record :
  exists fin,
    run world_credentials [rec_password] [0] =
      inr (Some ({| results :=
                      [Some {| idx := 0; xml := "<xml>credentials</xml>";
                               pred_labels := ["credentials"]; error := None;
                               _comment_length := 30 |}];
                    live := {| sem_num_done := 1; sem_num_exact := 1;
                               sem_num_hit_incl_none := 1;
                               sem_pred_label_freq := {[ "credentials" := 1 ]} |} |},
                  fin)) /\
    count (tp_label fin) "credentials" = 1.
Proof. eexists. split; vm_compute; reflexivity. Qed.

Example backoff_schedule :
  backoff_delay <$> [0; 1; 2] =
  [2%float; 0x1.b333333333333p+1%float; 0x1.71eb851eb851ep+2%float].
Proof. reflexivity. Qed.

Example ground_truth_of_password : parse_ground_truth_labels rec_password = ["credentials"].
Proof. vm_compute. reflexivity. Qed.

(** ** Labels are always taxonomy members *)

Lemma labels_of_tokens_valid (toks : list string) :
  NoDup (labels_of_tokens toks) /\
  forall l, l ∈ labels_of_tokens toks -> valid_label l.
Proof.
  unfold labels_of_tokens. case_bool_decide as Hnone.
  - split; [constructor|]. intros l Hl. by apply elem_of_nil in Hl.
  - split; [apply first_seen_NoDup|].
    intros l [Hl Ht]%elem_of_first_seen%list_elem_of_filter.
    split; [done|]. by intros ->.
Qed.

Lemma parse_labels_valid (xml_text : string) :
  NoDup (parse_labels_from_xml xml_text) /\
  forall l, l ∈ parse_labels_from_xml xml_text -> valid_label l.
Proof. rewrite parse_labels_content. apply labels_of_tokens_valid. Qed.

(** X1. Whatever text it is given, [parse_labels_from_xml] returns labels of
    the taxonomy other than the sentinel, without duplicates. *)
Theorem parse_labels_from_xml_valid (xml_text : string) :
  NoDup (parse_labels_from_xml xml_text) /\
  forall l, l ∈ parse_labels_from_xml xml_text -> valid_label l.
Proof. apply parse_labels_valid. Qed.

Lemma gt_labels_valid (rec : record) :
  NoDup (parse_ground_truth_labels rec) /\
  forall l, l ∈ parse_ground_truth_labels rec -> valid_label l.
Proof.
  assert (Hnil : parse_ground_truth_labels rec = [] ->
    NoDup (parse_ground_truth_labels rec) /\
    forall l, l ∈ parse_ground_truth_labels rec -> valid_label l).
  { intros ->. split; [constructor|]. intros l Hl. by apply elem_of_nil in Hl. }
  destruct (rec !! "classification") as [v|] eqn:E.
  - destruct v as [| | |raw|];
      try (apply Hnil; unfold parse_ground_truth_labels, rec_get; by rewrite E).
    rewrite (gt_labels_of_string rec raw E).
    split; [apply first_seen_NoDup|].
    by intros l [Hl _]%elem_of_first_seen%list_elem_of_filter.
  - apply Hnil. unfold parse_ground_truth_labels, rec_get. by rewrite E.
Qed.

(** X2. Whatever the record holds, [parse_ground_truth_labels] returns labels
    of the taxonomy other than the sentinel, without duplicates; it never
    fails. *)
Theorem parse_ground_truth_labels_valid (rec : record) :
  NoDup (parse_ground_truth_labels rec) /\
  forall l, l ∈ parse_ground_truth_labels rec -> valid_label l.
Proof. apply gt_labels_valid. Qed.

(** ** What a stored result looks like *)

Lemma sanitize_xml_wrapped (x : option string) (y : string) :
  sanitize_xml x = Some y -> well_wrapped y = true /\ Py.strip y = y.
Proof.
  destruct x as [t|]; [|discriminate]. unfold sanitize_xml.
  destruct (negb (Py.truthy t)); [discriminate|].
  destruct (well_wrapped (Py.strip t)) eqn:Hw.
  - intros [= <-]. split; [done|apply strip_idem].
  - destruct (Py.truthy (salvage_residue (Py.strip t))); [|discriminate].
    intros [= <-].
    destruct (block_fixed "<xml>" (salvage_residue (Py.strip t)) "</xml>" eq_refl eq_refl).
    by split.
Qed.

Lemma endswith_split (s p : string) :
  Py.endswith s p = true -> exists a, s = a +:+ p.
Proof.
  induction s as [|c s IH]; rewrite endswith_unfold;
    intros [->%String.eqb_eq|H]%orb_true_iff; try discriminate.
  - by exists "".
  - by exists "".
  - destruct (IH H) as [a ->]. by exists (String c a).
Qed.

Lemma lower_split (a b s : string) :
  Py.lower s = a +:+ b ->
  exists a' b', s = a' +:+ b' /\ Py.lower a' = a /\ Py.lower b' = b.
Proof.
  revert s. induction a as [|x a IH]; intros s H.
  - exists "", s. by rewrite !append_nil_l in *.
  - rewrite append_cons in H. destruct s as [|c s]; [discriminate|].
    cbn in H. injection H as Hc H.
    destruct (IH s H) as (a' & b' & -> & Ha & Hb).
    exists (String c a'), b'. rewrite append_cons. cbn. by rewrite Hc, Ha.
Qed.

(** The closing tag does not reach into the opening one. *)
Lemma open_before_close (a : string) :
  Py.startswith (a +:+ "</xml>") "<xml>" = true -> Py.startswith a "<xml>" = true.
Proof.
  destruct a as [|a1 [|a2 [|a3 [|a4 [|a5 a]]]]];
    rewrite ?append_cons, ?append_nil_l; cbn;
    rewrite ?andb_false_r; try discriminate.
  assert (forall s, Py.startswith s "" = true) as E by (by intros []).
  by rewrite !E.
Qed.

(** A text accepted by the wrapper test is an opening tag, a content and a
    closing tag, the tags in any case. *)
Lemma well_wrapped_block (s : string) :
  well_wrapped s = true ->
  exists o c cl, s = o +:+ c +:+ cl /\ Py.lower o = "<xml>" /\ Py.lower cl = "</xml>".
Proof.
  unfold well_wrapped. intros [Ho Hc]%andb_true_iff.
  apply endswith_split in Hc as [a Ha]. rewrite Ha in Ho.
  apply open_before_close, startswith_split in Ho. rewrite Ho in Ha.
  rewrite append_assoc in Ha.
  apply lower_split in Ha as (o & rest & -> & Hlo & Hrest).
  apply lower_split in Hrest as (c & cl & -> & _ & Hcl).
  by exists o, c, cl.
Qed.

Lemma list_of_set_perm (labels : list string) :
  NoDup labels -> list_of_set labels ≡ₚ labels.
Proof. apply elements_list_to_set. Qed.

Lemma answer_of_content_cases (content : option string) :
  (exists x, answer_of_content content = (Some x, None) /\
             well_wrapped x = true /\ Py.strip x = x) \/
  answer_of_content content = (None, Some "No valid <xml>...</xml> returned.").
Proof.
  unfold answer_of_content.
  destruct (py_or (sanitize_xml (extract_xml_answer content)) (sanitize_xml content))
    as [x|] eqn:E; [|by right].
  assert (well_wrapped x = true /\ Py.strip x = x) as [Hw Hs].
  { unfold py_or in E.
    destruct (sanitize_xml (extract_xml_answer content)) as [y|] eqn:E1.
    - destruct (Py.truthy y); [injection E as <-|]; by eapply sanitize_xml_wrapped.
    - by eapply sanitize_xml_wrapped. }
  rewrite (well_wrapped_truthy _ Hw). left. by exists x.
Qed.

Lemma append_nonempty_r (a b : string) : b <> "" -> a +:+ b <> "".
Proof. intros Hb. destruct a; [by rewrite append_nil_l|by rewrite append_cons]. Qed.

Lemma error_text_nonempty (e : exc) : error_text e <> "".
Proof.
  unfold error_text. destruct (exc_kind e);
    try (apply append_nonempty_r; by rewrite append_cons); by rewrite append_cons.
Qed.

Lemma failed_intro (i : nat) (x msg : string) (n : nat) :
  msg <> "" -> x = "" \/ x = "<xml>none</xml>" ->
  failed {| idx := i; xml := x; pred_labels := list_of_set [];
            error := Some msg; _comment_length := n |}.
Proof.
  intros Hmsg Hx. exists msg. cbn.
  split; [done|]. split; [done|]. split; [apply list_of_set_nil|done].
Qed.

Lemma classify_record_shape (i : nat) (rec : record) (svc : service)
  (r : result) (t : trace) :
  classify_record (i, rec) svc = (inl r, t) -> answered r \/ failed r.
Proof.
  unfold classify_record.
  destruct (rec_get rec "comments") as [| | |c|];
    try (intros [= <- _]; right; apply failed_intro; [done|by right]).
  destruct (negb (Py.truthy (Py.strip c)));
    [intros [= <- _]; right; apply failed_intro; [done|by right]|].
  destruct (ask_llm_trace svc) as (k & _ & ->).
  destruct (svc k) as [content|e]; cbn [final_answer].
  - destruct (answer_of_content_cases content) as [(x & -> & Hw & Hs)| ->];
      intros [= <- _].
    + left. unfold answered. cbn. rewrite (well_wrapped_truthy _ Hw).
      split; [done|]. split; [done|]. split; [by apply well_wrapped_block|].
      apply list_of_set_perm, parse_labels_valid.
    + right. apply failed_intro; [done|by left].
  - intros [= <- _]. right. apply failed_intro; [apply error_text_nonempty|by left].
Qed.

Lemma stored_result_shape_aux (w : world) (i : nat) (rec : record) :
  answered (completed w i rec) \/ failed (completed w i rec).
Proof.
  unfold completed, fut_result.
  destruct (worker_fault w i) as [e|].
  - right. exists ("WorkerError: " +:+ e). cbn.
    split; [done|]. split; [by rewrite append_cons|]. split; [done|by right].
  - destruct (classify_record_returns i rec (remote w i)) as (r & t & E).
    rewrite E. cbn. by eapply classify_record_shape.
Qed.

(** X3. Every result the dispatch stores for a record has the identifier of
    the record and one of two shapes: no error, an answer without white
    space at its ends made of an opening tag, a content and a closing tag
    (the tags in any case), and as predicted labels the labels that
    [parse_labels_from_xml] reads from that answer, each once, in some
    order; or an error message that is not empty, no predicted label, and an
    answer that is empty or the default [<xml>none</xml>].  This holds for
    every behaviour of the remote service and for a worker that raises. *)
Theorem stored_result_shape (w : world) (i : nat) (rec : record) :
  idx (completed w i rec) = i /\
  (answered (completed w i rec) \/ failed (completed w i rec)).
Proof. split; [apply idx_completed|apply stored_result_shape_aux]. Qed.

(** ** The counters of a run *)

Lemma run_shape (w : world) (records : list record) (order : list nat) :
  records <> [] -> order ≡ₚ seq 0 (length records) ->
  run w records order =
    inr (Some ({| results := Some <$> run_result_list w records;
                  live := live_part (final_fold final_zero (run_result_list w records) records) |},
               final_fold final_zero (run_result_list w records) records)).
Proof.
  intros Hne Hp.
  destruct (dispatch_results w records order Hp) as ([res lv] & Hd & Hres & Hlive).
  cbn in Hres, Hlive. subst res.
  unfold run. destruct records as [|rec records]; [done|].
  rewrite Hd. cbn [mbind option_bind results].
  fold (run_result_list w (rec :: records)).
  rewrite final_pass_fold by (unfold run_result_list; by rewrite length_fmap, length_seq).
  cbn [mbind option_bind]. do 4 f_equal.
  rewrite Hlive. symmetry.
  apply (live_part_final_fold w (rec :: records) (rec :: records)), records_as_fmap.
Qed.

Lemma elem_of_list_of_set (l : string) (labels : list string) :
  l ∈ list_of_set labels <-> l ∈ labels.
Proof. unfold list_of_set. by rewrite elem_of_elements, elem_of_list_to_set. Qed.

Lemma pred_set_completed_valid (w : world) (i : nat) (rec : record) (l : string) :
  l ∈ pred_set_of (completed w i rec) -> valid_label l.
Proof.
  unfold pred_set_of. rewrite elem_of_list_to_set.
  destruct (stored_result_shape_aux w i rec) as [(_ & _ & _ & ->)|(msg & _ & _ & -> & _)].
  - apply parse_labels_valid.
  - by intros ?%elem_of_nil.
Qed.

Lemma gt_set_valid (rec : record) (l : string) :
  l ∈ gt_set_of rec -> valid_label l.
Proof. unfold gt_set_of. rewrite elem_of_list_to_set. apply gt_labels_valid. Qed.

Lemma count_empty (l : string) : count ∅ l = 0.
Proof. unfold count. by rewrite lookup_empty. Qed.

Lemma tally_zero (P : result -> record -> bool) (rs : list result)
  (records : list record) :
  (forall r rec, r ∈ rs -> P r rec = false) -> tally P rs records = 0.
Proof.
  revert records. induction rs as [|r rs IH]; intros [|rec records] H; cbn; try done.
  rewrite (H r rec) by left. rewrite IH; [done|].
  intros r' rec' Hr'. apply H. by right.
Qed.

Lemma elem_of_run_result_list (w : world) (records : list record) (r : result) :
  r ∈ run_result_list w records ->
  exists i, r = completed w i (record_at records i).
Proof.
  unfold run_result_list. intros (i & -> & _)%list_elem_of_fmap. by exists i.
Qed.

(** X4. In a run on a non-empty input, whatever the completion order, every
    frequency table - the live table of predicted labels and the final
    tables of predicted, ground-truth, true-positive, false-positive and
    false-negative labels - is zero outside the five proper labels of the
    taxonomy; in particular the [none] figure of the progress display is
    always 0. *)
Theorem counters_within_taxonomy (w : world) (records : list record)
  (order : list nat) :
  records <> [] -> order ≡ₚ seq 0 (length records) ->
  exists (st : dispatch_state) (fin : final_metrics),
    run w records order = inr (Some (st, fin)) /\
    (count (sem_pred_label_freq (live st)) "none" = 0) /\
    forall l, ~ valid_label l ->
      count (sem_pred_label_freq (live st)) l = 0 /\
      count (pred_label_freq fin) l = 0 /\
      count (gt_label_freq fin) l = 0 /\
      count (tp_label fin) l = 0 /\
      count (fp_label fin) l = 0 /\
      count (fn_label fin) l = 0.
Proof.
  intros Hne Hp. eexists _, _. split; [by apply run_shape|].
  cbn [live live_part sem_pred_label_freq].
  assert (Hall : forall l, ~ valid_label l ->
    count (pred_label_freq (final_fold final_zero (run_result_list w records) records)) l = 0 /\
    count (gt_label_freq (final_fold final_zero (run_result_list w records) records)) l = 0 /\
    count (tp_label (final_fold final_zero (run_result_list w records) records)) l = 0 /\
    count (fp_label (final_fold final_zero (run_result_list w records) records)) l = 0 /\
    count (fn_label (final_fold final_zero (run_result_list w records) records)) l = 0).
  { intros l Hl.
    rewrite (count_final_fold tp_label (fun r rec => pred_set_of r ∩ gt_set_of rec)) by done.
    rewrite (count_final_fold fp_label (fun r rec => pred_set_of r ∖ gt_set_of rec)) by done.
    rewrite (count_final_fold fn_label (fun r rec => gt_set_of rec ∖ pred_set_of r)) by done.
    rewrite (count_final_fold pred_label_freq (fun r rec => pred_set_of r)) by done.
    rewrite (count_final_fold gt_label_freq (fun r rec => gt_set_of rec)) by done.
    cbn [final_zero tp_label fp_label fn_label pred_label_freq gt_label_freq].
    rewrite !count_empty. cbn [plus].
    repeat split; apply tally_zero; intros r rec [i ->]%elem_of_run_result_list;
      apply bool_decide_eq_false_2; intros Hin; apply Hl.
    - by eapply pred_set_completed_valid.
    - by eapply gt_set_valid.
    - apply elem_of_intersection in Hin as [_ Hin]. by eapply gt_set_valid.
    - apply elem_of_difference in Hin as [Hin _]. by eapply pred_set_completed_valid.
    - apply elem_of_difference in Hin as [Hin _]. by eapply gt_set_valid. }
  split.
  - apply Hall. by intros [_ ?].
  - intros l Hl. destruct (Hall l Hl) as (H1 & H2 & H3 & H4 & H5). done.
Qed.

(** ** The record counts of the final pass *)

Lemma nonempty_true (s : gset string) : nonempty s = true <-> s <> ∅.
Proof. unfold nonempty. rewrite negb_true_iff, bool_decide_eq_false. done. Qed.

Lemma nonempty_false (s : gset string) : nonempty s = false <-> s = ∅.
Proof. unfold nonempty. rewrite negb_false_iff, bool_decide_eq_true. done. Qed.

(** The five flags of one record, as the final loop computes them: only
    five combinations can occur. *)
Lemma record_flags (p g : gset string) :
  let e := bool_decide (p = g) in
  let h := hit_now p g in
  let i := nonempty (p ∩ g) in
  let np := nonempty p in
  let ng := nonempty g in
  (np = false /\ ng = false /\ i = false /\ h = true /\ e = true) \/
  (np = false /\ ng = true /\ i = false /\ h = false /\ e = false) \/
  (np = true /\ ng = false /\ i = false /\ h = false /\ e = false) \/
  (np = true /\ ng = true /\ i = false /\ h = false /\ e = false) \/
  (np = true /\ ng = true /\ i = true /\ h = true).
Proof.
  cbn zeta. unfold hit_now, COUNT_NONE_AS_HIT.
  destruct (nonempty p) eqn:Hp, (nonempty g) eqn:Hg, (nonempty (p ∩ g)) eqn:Hi;
    repeat match goal with
           | H : nonempty _ = true |- _ => apply nonempty_true in H
           | H : nonempty _ = false |- _ => apply nonempty_false in H
           end; cbn.
  - do 4 right. done.
  - do 3 right. left. repeat split; try done.
    apply bool_decide_eq_false_2. intros ->. apply Hp. set_solver.
  - exfalso. apply Hi. set_solver.
  - do 2 right. left. repeat split; try done.
    apply bool_decide_eq_false_2. intros ->. done.
  - exfalso. apply Hi. set_solver.
  - right. left. repeat split; try done.
    apply bool_decide_eq_false_2. intros ->. done.
  - exfalso. apply Hi. set_solver.
  - left. repeat split; try done. apply bool_decide_eq_true_2. by rewrite Hp, Hg.
Qed.

Lemma final_update_ordered (m : final_metrics) (r : result) (rec : record) :
  rates_ordered m -> rates_ordered (final_update m r rec).
Proof.
  unfold rates_ordered, final_update. cbn.
  pose proof (record_flags (list_to_set (pred_labels r))
                (list_to_set (parse_ground_truth_labels rec))) as H.
  cbn zeta in H. unfold incr_if.
  destruct H as [H|[H|[H|[H|H]]]]; destruct_and!;
    repeat match goal with Hx : _ = true |- _ => rewrite Hx; clear Hx
                         | Hx : _ = false |- _ => rewrite Hx; clear Hx end;
    try (destruct (bool_decide _)); lia.
Qed.

Lemma final_update_balanced (m : final_metrics) (r : result) (rec : record) :
  counts_balanced m -> counts_balanced (final_update m r rec).
Proof.
  unfold counts_balanced, final_update. cbn.
  pose proof (record_flags (list_to_set (pred_labels r))
                (list_to_set (parse_ground_truth_labels rec))) as H.
  cbn zeta in H. unfold incr_if.
  destruct H as [H|[H|[H|[H|H]]]]; destruct_and!;
    repeat match goal with Hx : _ = true |- _ => rewrite Hx; clear Hx
                         | Hx : _ = false |- _ => rewrite Hx; clear Hx end;
    cbn; try (destruct (bool_decide _)); lia.
Qed.

Lemma final_fold_preserves (P : final_metrics -> Prop) :
  (forall m r rec, P m -> P (final_update m r rec)) ->
  forall rs records m, P m -> P (final_fold m rs records).
Proof.
  intros Hstep. induction rs as [|r rs IH]; intros [|rec records] m Hm; cbn; try done.
  by apply IH, Hstep.
Qed.

Lemma num_done_final_fold (rs : list result) (records : list record) :
  forall m, length rs = length records ->
    num_done (final_fold m rs records) = num_done m + length records.
Proof.
  revert records. induction rs as [|r rs IH]; intros [|rec records] m Hlen;
    cbn in *; try lia.
  rewrite IH by lia. cbn. lia.
Qed.

(** X5. For every result set, the final pass counts every record once, the
    exact matches are among the hits, and the hits on a shared label are
    among the hits: exact <= hits including empty-vs-empty <= completed =
    number of records.  On a non-empty input the two printed ratios thus
    divide by a positive count and the accuracy never exceeds the hit rate. *)
Theorem final_rates_ordered (records : list record) (rs : list result) :
  length rs = length records ->
  exists fin : final_metrics,
    final_pass records (Some <$> rs) = Some fin /\
    num_done fin = length records /\
    num_exact fin <= num_hit_incl_none fin /\
    num_hit_nonempty fin <= num_hit_incl_none fin /\
    num_hit_incl_none fin <= num_done fin /\
    (records <> [] -> 0 < num_done fin).
Proof.
  intros Hlen. eexists. split; [apply final_pass_fold; lia|].
  rewrite num_done_final_fold by done. cbn [final_zero num_done plus].
  split; [done|].
  pose proof (final_fold_preserves rates_ordered final_update_ordered
                rs records final_zero) as (H1 & H2 & H3).
  { unfold rates_ordered. cbn. lia. }
  rewrite num_done_final_fold in H3 by done. cbn in H3.
  repeat split; try done. intros Hne. destruct records; [done|cbn; lia].
Qed.

(** X6. For every result set, the record counts printed by the final pass
    balance: records with a prediction plus false-negative records are the
    records with a ground truth plus false-positive records; the hits that
    are not on a shared label are the records where both sets are empty;
    exact matches, false-positive and false-negative records are disjoint;
    and a hit on a shared label needs both a prediction and a ground truth. *)
Theorem final_counts_balanced (records : list record) (rs : list result) :
  length rs = length records ->
  exists fin : final_metrics,
    final_pass records (Some <$> rs) = Some fin /\
    num_any_pred fin + num_false_neg_records fin
      = num_any_gt fin + num_false_pos_records fin /\
    num_hit_incl_none fin + num_any_pred fin + num_false_neg_records fin
      = num_hit_nonempty fin + length records /\
    num_exact fin + num_false_pos_records fin + num_false_neg_records fin
      <= length records /\
    num_hit_nonempty fin + num_false_pos_records fin <= num_any_pred fin /\
    num_hit_nonempty fin + num_false_neg_records fin <= num_any_gt fin.
Proof.
  intros Hlen. eexists. split; [apply final_pass_fold; lia|].
  pose proof (final_fold_preserves counts_balanced final_update_balanced
                rs records final_zero) as (H1 & H2 & H3 & H4 & H5).
  { unfold counts_balanced. cbn. lia. }
  rewrite num_done_final_fold in H2, H3 by done. cbn in H2, H3.
  repeat split; done.
Qed.

Lemma final_rates_ordered_witness :
  exists fin : final_metrics,
    final_pass [rec_password; rec_blank] (Some <$> two_results) = Some fin /\
    num_done fin = 2 /\
    num_exact fin <= num_hit_incl_none fin /\
    num_hit_nonempty fin <= num_hit_incl_none fin /\
    num_hit_incl_none fin <= num_done fin /\
    ([rec_password; rec_blank] <> [] -> 0 < num_done fin).
Proof. apply (final_rates_ordered [rec_password; rec_blank] two_results). reflexivity. Defined.

Lemma final_counts_balanced_witness :
  exists fin : final_metrics,
    final_pass [rec_password; rec_blank] (Some <$> two_results) = Some fin /\
    num_any_pred fin + num_false_neg_records fin
      = num_any_gt fin + num_false_pos_records fin /\
    num_hit_incl_none fin + num_any_pred fin + num_false_neg_records fin
      = num_hit_nonempty fin + 2 /\
    num_exact fin + num_false_pos_records fin + num_false_neg_records fin <= 2 /\
    num_hit_nonempty fin + num_false_pos_records fin <= num_any_pred fin /\
    num_hit_nonempty fin + num_false_neg_records fin <= num_any_gt fin.
Proof. apply (final_counts_balanced [rec_password; rec_blank] two_results). reflexivity. Defined.

Lemma counters_within_taxonomy_witness :
  exists (st : dispatch_state) (fin : final_metrics),
    run world_credentials [rec_password; rec_blank] [1; 0] = inr (Some (st, fin)) /\
    (count (sem_pred_label_freq (live st)) "none" = 0) /\
    forall l, ~ valid_label l ->
      count (sem_pred_label_freq (live st)) l = 0 /\
      count (pred_label_freq fin) l = 0 /\
      count (gt_label_freq fin) l = 0 /\
      count (tp_label fin) l = 0 /\
      count (fp_label fin) l = 0 /\
      count (fn_label fin) l = 0.
Proof.
  apply counters_within_taxonomy; [discriminate|cbn; apply perm_swap].
Defined.

(** ** What the search for the answer block returns *)

Lemma at_start_take (p s : string) :
  Py.lower p = p -> XmlRe.at_start p s = true ->
  Py.lower (Py.take (String.length p) s) = p /\
  s = Py.take (String.length p) s +:+ Py.drop (String.length p) s.
Proof.
  revert s. induction p as [|d p IH]; intros s Hp H; [by destruct s|].
  destruct s as [|c s]; [discriminate|]. cbn in *.
  injection Hp as Hd Hp. apply andb_true_iff in H as [Hc H].
  unfold XmlRe.ci_eq in Hc. apply Ascii.eqb_eq in Hc. rewrite Hd in Hc.
  destruct (IH s Hp H) as [H1 H2]. split; [by rewrite Hc, H1|].
  rewrite append_cons. by rewrite <- H2.
Qed.

Lemma contains_ci_app_false (p c : string) (x : ascii) (s : string) :
  XmlRe.at_start p (String x (c +:+ s)) = false ->
  contains_ci p c = false -> contains_ci p (String x c) = false.
Proof.
  intros Hat Hc. rewrite contains_ci_unfold, Hc, orb_false_r.
  destruct (XmlRe.at_start p (String x c)) eqn:E; [|done].
  apply (at_start_app _ _ s) in E. rewrite append_cons in E. congruence.
Qed.

Lemma lazy_close_sound (u body : string) :
  XmlRe.lazy_close u = Some body ->
  exists c cl post,
    u = c +:+ cl +:+ post /\ body = c +:+ cl /\
    Py.lower cl = "</xml>" /\ contains_ci "</xml>" c = false.
Proof.
  revert body. induction u as [|x u IH]; intros body; rewrite lazy_close_unfold.
  - cbn. discriminate.
  - destruct (XmlRe.at_start "</xml>" (String x u)) eqn:E.
    + intros [= <-]. destruct (at_start_take "</xml>" _ eq_refl E) as [Hl Hs].
      exists "", (Py.take 6 (String x u)), (Py.drop 6 (String x u)).
      by rewrite !append_nil_l.
    + destruct (XmlRe.lazy_close u) as [b|]; [|discriminate].
      intros [= <-]. destruct (IH b eq_refl) as (c & cl & post & -> & -> & Hcl & Hc).
      exists (String x c), cl, post. rewrite !append_cons. repeat split; try done.
      by apply (contains_ci_app_false _ _ _ (cl +:+ post)).
Qed.

Lemma search_sound (t b : string) :
  XmlRe.search t = Some b ->
  exists pre o c cl post, block_in t pre o c cl post /\ b = o +:+ c +:+ cl.
Proof.
  induction t as [|x t IH]; [discriminate|]. cbn [XmlRe.search].
  assert (Hrec : XmlRe.search t = Some b ->
    exists pre o c cl post, block_in (String x t) pre o c cl post /\ b = o +:+ c +:+ cl).
  { intros (pre & o & c & cl & post & (-> & Ho & Hcl & Hc) & ->)%IH.
    exists (String x pre), o, c, cl, post. split; [|done].
    split; [by rewrite append_cons|done]. }
  destruct (XmlRe.at_start "<xml>" (String x t)) eqn:E; [|done].
  destruct (XmlRe.lazy_close (Py.drop 5 (String x t))) as [body|] eqn:El; [|done].
  intros [= <-]. destruct (at_start_take "<xml>" _ eq_refl E) as [Ho Hs].
  destruct (lazy_close_sound _ _ El) as (c & cl & post & Hu & -> & Hcl & Hc).
  exists "", (Py.take 5 (String x t)), c, cl, post. split; [|done].
  split; [|done]. rewrite append_nil_l, !append_assoc, <- Hu. exact Hs.
Qed.

Lemma block_in_search (t pre o c cl post : string) :
  block_in t pre o c cl post -> is_Some (XmlRe.search t).
Proof.
  intros (-> & Ho & Hcl & _).
  apply search_app_l, search_app_r, well_wrapped_search.
  by destruct (block_fixed o c cl Ho Hcl).
Qed.

(** X7. [extract_xml_answer] finds an answer exactly when the text holds an
    opening tag followed somewhere by a closing tag (in any case), and what
    it returns is then a piece of the text itself: an opening tag, a content
    that holds no closing tag, and a closing tag.  It never returns text that
    is not in the response. *)
Theorem extract_xml_answer_sound (t : string) :
  (forall b, extract_xml_answer (Some t) = Some b ->
     exists pre o c cl post, block_in t pre o c cl post /\ b = o +:+ c +:+ cl) /\
  (is_Some (extract_xml_answer (Some t)) <->
     exists pre o c cl post, block_in t pre o c cl post).
Proof.
  assert (Hsound : forall b, extract_xml_answer (Some t) = Some b ->
     exists pre o c cl post, block_in t pre o c cl post /\ b = o +:+ c +:+ cl).
  { intros b. unfold extract_xml_answer.
    destruct (negb (Py.truthy t)); [discriminate|].
    destruct (XmlRe.search t) as [b'|] eqn:E; [|discriminate].
    intros [= <-].
    destruct (search_sound t b' E) as (pre & o & c & cl & post & Hb & ->).
    exists pre, o, c, cl, post. split; [done|].
    destruct Hb as (_ & Ho & Hcl & _). by destruct (block_fixed o c cl Ho Hcl). }
  split; [exact Hsound|]. split.
  - intros [b Hb]. destruct (Hsound b Hb) as (pre & o & c & cl & post & H & _).
    by exists pre, o, c, cl, post.
  - intros (pre & o & c & cl & post & H).
    pose proof (block_in_search _ _ _ _ _ _ H) as [b Hb].
    unfold extract_xml_answer. rewrite Hb.
    destruct t as [|x t]; [discriminate|]. done.
Qed.

(** ** The rows written by the run *)







(** ** Writing labels and reading them back *)

Lemma valid_label_cases (l : string) :
  valid_label l ->
  l = "credentials" \/ l = "network_identifiers" \/ l = "pii" \/
  l = "conflict" \/ l = "peerreview".
Proof. unfold valid_label, ALLOWED_LABELS. set_solver. Qed.

Lemma filter_all {A : Type} (P : A -> Prop) `{!forall x, Decision (P x)} (l : list A) :
  Forall P l -> filter P l = l.
Proof.
  induction 1 as [|x l Hx _ IH]; [done|]. by rewrite filter_cons_True, IH.
Qed.

Lemma first_seen_NoDup_id (l : list string) : NoDup l -> first_seen l = l.
Proof.
  induction 1 as [|x l Hx _ IH]; [done|]. cbn [first_seen]. rewrite IH. f_equal.
  apply filter_all, Forall_forall. by intros y Hy ->.
Qed.

Lemma normalized_tokens_label_cons (l rest : string) :
  valid_label l ->
  normalized_tokens (l +:+ "," +:+ rest) = l :: normalized_tokens rest.
Proof.
  intros Hl. rewrite !normalized_tokens_canon. unfold Py.split.
  destruct (valid_label_cases l Hl) as [->|[->|[->|[->| ->]]]];
    rewrite ?append_cons, ?append_nil_l; cbn;
    destruct (Py.split_go "," rest); reflexivity.
Qed.

Lemma normalized_tokens_label (l : string) :
  valid_label l -> normalized_tokens l = [l].
Proof.
  intros Hl.
  destruct (valid_label_cases l Hl) as [->|[->|[->|[->| ->]]]]; vm_compute; reflexivity.
Qed.

Lemma normalized_tokens_join (ls : list string) :
  Forall valid_label ls -> ls <> [] ->
  normalized_tokens (PyMore.join "," ls) = ls.
Proof.
  induction 1 as [|l ls Hl Hls IH]; [done|]. intros _.
  destruct ls as [|l' ls]; [by apply normalized_tokens_label|].
  cbn [PyMore.join]. rewrite normalized_tokens_label_cons by done.
  f_equal. by apply IH.
Qed.

Lemma labels_of_tokens_id (ls : list string) :
  NoDup ls -> Forall valid_label ls -> labels_of_tokens ls = ls.
Proof.
  intros Hnd Hv. unfold labels_of_tokens.
  rewrite bool_decide_eq_false_2.
  - rewrite filter_all; [by apply first_seen_NoDup_id|].
    eapply Forall_impl; [exact Hv|]. by intros l [? _].
  - intros Hnone. rewrite Forall_forall in Hv. by destruct (Hv _ Hnone).
Qed.

(** X9. The answer format is read back exactly: for every list of proper
    taxonomy labels without repetition, the block [<xml>a,b,...</xml>] made
    of the labels joined by commas is parsed by [parse_labels_from_xml] into
    that same list, in the same order (the empty list for the empty block);
    and the same joined text, stored as a classification, is read by
    [parse_ground_truth_labels] as that list. *)
Theorem labels_round_trip (ls : list string) (rec : record) :
  NoDup ls -> Forall valid_label ls ->
  rec !! "classification" = Some (PyStr (PyMore.join "," ls)) ->
  parse_labels_from_xml ("<xml>" +:+ PyMore.join "," ls +:+ "</xml>") = ls /\
  parse_ground_truth_labels rec = ls.
Proof.
  intros Hnd Hv Hrec.
  assert (labels_of_tokens (normalized_tokens (PyMore.join "," ls)) = ls) as Hl.
  { destruct ls as [|l ls]; [by vm_compute|].
    rewrite normalized_tokens_join by done. by apply labels_of_tokens_id. }
  split; [by rewrite parse_labels_block|].
  rewrite (gt_labels_of_string rec _ Hrec).
  destruct ls as [|l ls]; [by vm_compute|].
  rewrite normalized_tokens_join by done.
  rewrite filter_all; [by apply first_seen_NoDup_id|done].
Qed.

Lemma labels_round_trip_witness :
  parse_labels_from_xml
    ("<xml>" +:+ PyMore.join "," ["pii"; "network_identifiers"; "conflict"] +:+ "</xml>")
    = ["pii"; "network_identifiers"; "conflict"] /\
  parse_ground_truth_labels
    {[ "classification" := PyStr (PyMore.join "," ["pii"; "network_identifiers"; "conflict"]) ]}
    = ["pii"; "network_identifiers"; "conflict"].
Proof.
  apply labels_round_trip.
  - apply (bool_decide_eq_true_1 _). vm_compute. reflexivity.
  - repeat constructor; (apply (bool_decide_eq_true_1 _); vm_compute; reflexivity)
      || discriminate.
  - apply lookup_singleton_eq.
Defined.

(** ** The names of the output files *)

Lemma model_safe_no_sep (P : ascii -> bool) (name : string) :
  (forall c, P c = true -> is_path_sep c = true) ->
  Py.keep P (model_safe name) = "".
Proof.
  intros HP. induction name as [|c name IH]; [done|]. cbn.
  destruct (is_path_sep c) eqn:E.
  - destruct (P "_"%char) eqn:E'; [|done]. apply HP in E'. discriminate.
  - destruct (P c) eqn:E'; [|done]. apply HP in E'. congruence.
Qed.

Lemma basename_no_slash (p : string) :
  Py.keep (fun d => Ascii.eqb d "/"%char) p = "" -> basename p = p.
Proof. destruct p as [|c p]; [done|]. cbn [basename]. by intros ->. Qed.

Lemma basename_output (name ext : string) :
  Py.keep (fun d => Ascii.eqb d "/"%char) ext = "" ->
  basename ((OUTPUT_BASENAME +:+ "_" +:+ model_safe name) +:+ ext)
    = "out_" +:+ model_safe name +:+ ext.
Proof.
  intros Hext. unfold OUTPUT_BASENAME.
  assert (Py.keep (fun d => Ascii.eqb d "/"%char) (model_safe name +:+ ext) = "") as Hk.
  { rewrite keep_append, Hext, model_safe_no_sep; [done|].
    intros c Hc. unfold is_path_sep. by rewrite Hc. }
  rewrite !append_assoc, ?append_cons, ?append_nil_l. cbn.
  by rewrite Hk.
Qed.

(** X10. Whatever the model name, the part of the output file names made
    from it has the length of the name and holds neither [/] nor [\], a name
    without them is kept as it is, and both output files lie directly in the
    folder of [OUTPUT_BASENAME]: their last path component is
    [out_<model>.json] and [out_<model>.csv]. *)
Theorem output_paths_flat (model_name : string) :
  String.length (model_safe model_name) = String.length model_name /\
  Py.keep is_path_sep (model_safe model_name) = "" /\
  (Py.keep is_path_sep model_name = "" -> model_safe model_name = model_name) /\
  basename (json_path model_name) = "out_" +:+ model_safe model_name +:+ ".json" /\
  basename (csv_path model_name) = "out_" +:+ model_safe model_name +:+ ".csv".
Proof.
  split; [|split; [|split; [|split]]].
  - induction model_name as [|c s IH]; [done|].
    unfold model_safe in *. cbn. by rewrite IH.
  - by apply model_safe_no_sep.
  - induction model_name as [|c s IH]; [done|]. unfold model_safe in *. cbn.
    destruct (is_path_sep c); [discriminate|]. intros H. by rewrite (IH H).
  - by apply basename_output.
  - by apply basename_output.
Qed.

Example model_safe_example :
  model_safe "openai/gpt-oss-20b" = "openai_gpt-oss-20b" /\
  json_path "openai/gpt-oss-20b" = "./results/out_openai_gpt-oss-20b.json".
Proof. vm_compute. split; reflexivity. Qed.

(** ** The statistics script and the scorer *)

Lemma allowed_classes_labels : Stats.ALLOWED_CLASSES = ALLOWED_LABELS.
Proof. unfold Stats.ALLOWED_CLASSES, ALLOWED_LABELS. set_solver. Qed.

Lemma classification_loop_dedup (parts : list string) :
  forall (seen : gset string) (out : list string),
    Stats.classification_loop parts seen out =
    dedup_loop (filter (fun p => p ∈ ALLOWED_LABELS ∧ p ≠ "none") (repair_token <$> parts))
      seen out.
Proof.
  induction parts as [|p parts IH]; intros seen out; [done|].
  cbn [Stats.classification_loop fmap list_fmap]. rewrite filter_cons.
  rewrite allowed_classes_labels.
  destruct (Py.truthy (repair_token p)) eqn:Et; cbn [andb].
  - destruct (String.eqb (repair_token p) "none") eqn:En; cbn [negb andb].
    + apply String.eqb_eq in En. rewrite decide_False by tauto. apply IH.
    + apply String.eqb_neq in En.
      case_bool_decide as Ha; cbn [andb].
      * rewrite decide_True by done. cbn [dedup_loop].
        case_bool_decide; case_decide; try done; cbn [negb]; apply IH.
      * rewrite decide_False by tauto. apply IH.
  - apply truthy_false in Et. rewrite Et.
    rewrite decide_False; [apply IH|]. intros [H _]. by apply empty_not_allowed.
Qed.

Lemma parse_classification_gt (rec : record) :
  Stats.parse_classification (rec_get rec "classification")
    = parse_ground_truth_labels rec.
Proof.
  unfold Stats.parse_classification, parse_ground_truth_labels.
  destruct (rec_get rec "classification") as [| | |s|]; try done.
  destruct (negb (Py.truthy (Py.strip s))); [done|].
  rewrite classification_loop_dedup. unfold dedup.
  by rewrite gt_token_loop_spec.
Qed.

(** X11. The statistics script and the scorer read the ground truth alike:
    for every record, [parse_classification] of 6_statistics.py applied to
    the classification field returns the list [parse_ground_truth_labels] of
    5_run.py returns - same labels, same order - and the empty list when the
    field is missing or not a string. *)
Theorem parse_classification_agrees (rec : record) :
  Stats.parse_classification (rec_get rec "classification")
    = parse_ground_truth_labels rec /\
  (forall v, (forall s, v <> PyStr s) -> Stats.parse_classification v = []).
Proof.
  split; [apply parse_classification_gt|].
  intros v Hv. destruct v; try done. by destruct (Hv s).
Qed.

Lemma count_foldl_bump (ls : list string) (l : string) :
  NoDup ls ->
  forall c : Counter,
    count (foldl (fun c l => bump l c) c ls) l =
    count c l + (if bool_decide (l ∈ ls) then 1 else 0).
Proof.
  induction 1 as [|x ls Hx _ IH]; intros c; cbn [foldl].
  - rewrite bool_decide_eq_false_2 by apply not_elem_of_nil. lia.
  - rewrite IH, count_bump. destruct (decide (x = l)) as [->|Hne].
    + rewrite bool_decide_eq_false_2 by done.
      rewrite bool_decide_eq_true_2 by left. lia.
    + f_equal. rewrite (bool_decide_ext (l ∈ x :: ls) (l ∈ ls)); [done|].
      rewrite elem_of_cons. naive_solver.
Qed.

Lemma raw_none_no_labels (rec : record) (s : string) :
  rec !! "classification" = Some (PyStr s) ->
  Py.lower (Py.strip s) = "none" -> parse_ground_truth_labels rec = [].
Proof.
  intros Hrec Hraw. rewrite (gt_labels_of_string rec s Hrec).
  rewrite tokens_signature, <- signature_strip. unfold signature. rewrite Hraw.
  vm_compute. reflexivity.
Qed.

Lemma gt_set_empty (rec : record) :
  parse_ground_truth_labels rec = [] -> gt_set_of rec = ∅.
Proof. unfold gt_set_of. by intros ->. Qed.

Lemma gt_set_nonempty (rec : record) :
  parse_ground_truth_labels rec <> [] -> gt_set_of rec <> ∅.
Proof.
  unfold gt_set_of. destruct (parse_ground_truth_labels rec) as [|l ls]; [done|].
  intros _. cbn. set_solver.
Qed.

(** What one record adds to [by_category]: one unit to [none] or
    [__invalid__] when its ground truth is empty, and otherwise one unit to
    each of its ground-truth labels. *)
Lemma category_update_cases (c : Counter) (rec : record) :
  (gt_set_of rec = ∅ /\
   (Stats.category_update c rec = bump "none" c \/
    Stats.category_update c rec = bump "__invalid__" c)) \/
  (gt_set_of rec <> ∅ /\
   Stats.category_update c rec =
     foldl (fun c l => bump l c) c (parse_ground_truth_labels rec)).
Proof.
  unfold Stats.category_update.
  destruct (rec !! "classification") as [v|] eqn:E.
  - destruct v as [| | |s|];
      try (left; split; [|by right]; apply gt_set_empty;
           unfold parse_ground_truth_labels, rec_get; by rewrite E).
    assert (Stats.parse_classification (PyStr s) = parse_ground_truth_labels rec) as ->.
    { rewrite <- parse_classification_gt. unfold rec_get. by rewrite E. }
    destruct (String.eqb (Py.lower (Py.strip s)) "none") eqn:En; cbn [orb].
    + apply String.eqb_eq in En. left. split; [|by left].
      apply gt_set_empty. by eapply raw_none_no_labels.
    + case_bool_decide as Hl; cbn [negb].
      * right. split; [by apply gt_set_nonempty|done].
      * left. split; [|by left]. apply gt_set_empty.
        by destruct (parse_ground_truth_labels rec); [|destruct Hl].
  - left. split; [|by right]. apply gt_set_empty.
    unfold parse_ground_truth_labels, rec_get. by rewrite E.
Qed.

Lemma category_update_label (c : Counter) (rec : record) (l : string) :
  valid_label l ->
  count (Stats.category_update c rec) l =
  count c l + (if bool_decide (l ∈ gt_set_of rec) then 1 else 0).
Proof.
  intros [Ha Hn].
  assert (l <> "__invalid__") as Hi.
  { intros ->. revert Ha. apply (bool_decide_eq_false_1 _). vm_compute. reflexivity. }
  destruct (category_update_cases c rec) as [[He [-> | ->]]|[Hne ->]].
  - rewrite count_bump, decide_False by done.
    rewrite He, bool_decide_eq_false_2 by set_solver. lia.
  - rewrite count_bump, decide_False by done.
    rewrite He, bool_decide_eq_false_2 by set_solver. lia.
  - rewrite count_foldl_bump by apply gt_labels_valid.
    f_equal. rewrite (bool_decide_ext (l ∈ gt_set_of rec) (l ∈ parse_ground_truth_labels rec));
      [done|]. unfold gt_set_of. by rewrite elem_of_list_to_set.
Qed.

Lemma category_update_empty (c : Counter) (rec : record) :
  count (Stats.category_update c rec) "none"
  + count (Stats.category_update c rec) "__invalid__" =
  count c "none" + count c "__invalid__" + (if nonempty (gt_set_of rec) then 0 else 1).
Proof.
  destruct (category_update_cases c rec) as [[He [-> | ->]]|[Hne ->]].
  - rewrite !count_bump, decide_True, decide_False by done.
    apply nonempty_false in He. rewrite He. lia.
  - rewrite !count_bump, decide_False, decide_True by done.
    apply nonempty_false in He. rewrite He. lia.
  - apply nonempty_true in Hne. rewrite Hne.
    rewrite !count_foldl_bump by apply gt_labels_valid.
    rewrite !bool_decide_eq_false_2; [lia| |].
    + intros [H _]%gt_labels_valid. revert H.
      apply (bool_decide_eq_false_1 _). vm_compute. reflexivity.
    + by intros [_ H]%gt_labels_valid.
Qed.

Lemma by_category_fold (l : string) (records : list record) :
  valid_label l ->
  forall (rs : list result) (c : Counter) (m : final_metrics),
    length rs = length records ->
    count (foldl Stats.category_update c records) l + count (gt_label_freq m) l
      = count c l + count (gt_label_freq (final_fold m rs records)) l /\
    count (foldl Stats.category_update c records) "none"
      + count (foldl Stats.category_update c records) "__invalid__"
      + num_any_gt (final_fold m rs records)
      = count c "none" + count c "__invalid__" + num_any_gt m + length records.
Proof.
  intros Hl. induction records as [|rec records IH]; intros [|r rs] c m Hlen;
    cbn in Hlen; try lia; cbn [foldl final_fold length]; [lia|].
  destruct (IH rs (Stats.category_update c rec) (final_update m r rec)) as [H1 H2]; [lia|].
  rewrite category_update_label in H1 by done.
  rewrite category_update_empty in H2.
  cbn [final_update gt_label_freq num_any_gt] in H1, H2.
  rewrite count_bump_all in H1. fold (gt_set_of rec) in H1, H2.
  unfold incr_if in H2. destruct (nonempty (gt_set_of rec)); lia.
Qed.

(** X12. The per-category counts of the statistics script are the
    ground-truth figures of the scorer: for every input and every result
    set, [by_category] at a proper label is the scorer's ground-truth
    frequency of that label, and the records counted under [none] or
    [__invalid__] are exactly those the scorer treats as having no ground
    truth. *)
Theorem by_category_matches_scorer (records : list record) (rs : list result) :
  length rs = length records ->
  exists fin : final_metrics,
    final_pass records (Some <$> rs) = Some fin /\
    (forall l, valid_label l ->
       count (Stats.by_category records) l = count (gt_label_freq fin) l) /\
    count (Stats.by_category records) "none"
      + count (Stats.by_category records) "__invalid__"
      + num_any_gt fin = length records.
Proof.
  intros Hlen. eexists. split; [apply final_pass_fold; lia|].
  unfold Stats.by_category. split.
  - intros l Hl.
    destruct (by_category_fold l records Hl rs ∅ final_zero Hlen) as [H _].
    cbn [final_zero gt_label_freq] in H. rewrite !count_empty in H. lia.
  - assert (valid_label "pii") as Hl.
    { split; [|done]. apply (bool_decide_eq_true_1 _). vm_compute. reflexivity. }
    destruct (by_category_fold "pii" records Hl rs ∅ final_zero Hlen) as [_ H].
    cbn [final_zero num_any_gt] in H. rewrite !count_empty in H. lia.
Qed.

Lemma by_category_matches_scorer_witness :
  exists fin : final_metrics,
    final_pass [rec_password; rec_blank] (Some <$> two_results) = Some fin /\
    (forall l, valid_label l ->
       count (Stats.by_category [rec_password; rec_blank]) l = count (gt_label_freq fin) l) /\
    count (Stats.by_category [rec_password; rec_blank]) "none"
      + count (Stats.by_category [rec_password; rec_blank]) "__invalid__"
      + num_any_gt fin = 2.
Proof.
  apply (by_category_matches_scorer [rec_password; rec_blank] two_results). reflexivity.
Defined.

(** ** The text cleanup of the data set builders *)

Lemma collapse_single_spaced (s : string) :
  forall b, Augment.single_spaced_go b (Augment.collapse_go b s) = true.
Proof.
  induction s as [|c s IH]; intros b; [done|]. cbn.
  destruct (Py.isspace c) eqn:E.
  - destruct b; [apply IH|]. cbn. apply IH.
  - cbn. rewrite E. apply IH.
Qed.

Lemma single_spaced_weaken (s : string) (b : bool) :
  Augment.single_spaced_go true s = true -> Augment.single_spaced_go b s = true.
Proof.
  destruct s as [|c s]; [done|]. cbn.
  destruct (Py.isspace c); [|done]. by rewrite andb_false_r.
Qed.

Lemma single_spaced_lstrip (s : string) :
  forall b, Augment.single_spaced_go b s = true ->
            Augment.single_spaced_go true (Py.lstrip s) = true.
Proof.
  induction s as [|c s IH]; intros b; [done|]. cbn.
  destruct (Py.isspace c) eqn:E.
  - intros [_ H]%andb_true_iff. by apply (IH true).
  - cbn. by rewrite E.
Qed.

Lemma single_spaced_rstrip (s : string) :
  forall b, Augment.single_spaced_go b s = true ->
            Augment.single_spaced_go b (Py.rstrip s) = true.
Proof.
  induction s as [|c s IH]; intros b; [done|]. cbn.
  destruct (Py.isspace c) eqn:E.
  - intros [Hc H]%andb_true_iff. apply IH in H.
    destruct (Py.rstrip s) as [|d r]; [done|]. cbn [Augment.single_spaced_go].
    by rewrite E, Hc.
  - intros H. apply IH in H.
    destruct (Py.rstrip s) as [|d r]; cbn [Augment.single_spaced_go]; by rewrite E.
Qed.

Lemma collapse_fixed (s : string) :
  forall b, Augment.single_spaced_go b s = true -> Augment.collapse_go b s = s.
Proof.
  induction s as [|c s IH]; intros b; [done|]. cbn.
  destruct (Py.isspace c) eqn:E.
  - intros [[Hc Hb]%andb_true_iff H]%andb_true_iff.
    apply negb_true_iff in Hb as ->. apply Ascii.eqb_eq in Hc as ->.
    by rewrite (IH true).
  - intros H. by rewrite (IH false).
Qed.

Lemma keep_collapse (s : string) :
  forall b, Py.keep not_space (Augment.collapse_go b s) = Py.keep not_space s.
Proof.
  induction s as [|c s IH]; intros b; [done|]. cbn. unfold not_space at 2.
  destruct (Py.isspace c) eqn:E; cbn.
  - destruct b; [apply IH|]. cbn. apply IH.
  - unfold not_space at 1. rewrite E. cbn. by rewrite IH.
Qed.

Lemma not_space_spec (c : ascii) : not_space c = true -> Py.isspace c = false.
Proof. unfold not_space. by intros ?%negb_true_iff. Qed.

Lemma keep_all_chars (P : ascii -> bool) (s : string) :
  all_chars P s = true -> Py.keep P s = s.
Proof.
  induction s as [|c s IH]; [done|]. cbn.
  intros [-> H]%andb_true_iff. by rewrite IH.
Qed.

Lemma all_chars_lstrip (P : ascii -> bool) (s : string) :
  all_chars P s = true -> all_chars P (Py.lstrip s) = true.
Proof.
  induction s as [|c s IH]; [done|]. cbn.
  intros [Hc H]%andb_true_iff.
  destruct (Py.isspace c); [by apply IH|]. cbn. by rewrite Hc, H.
Qed.

Lemma all_chars_rstrip (P : ascii -> bool) (s : string) :
  all_chars P s = true -> all_chars P (Py.rstrip s) = true.
Proof.
  induction s as [|c s IH]; [done|]. cbn.
  intros [Hc H]%andb_true_iff. apply IH in H.
  destruct (Py.rstrip s) as [|d r].
  - destruct (Py.isspace c); [done|]. cbn. by rewrite Hc.
  - cbn [all_chars] in *. by rewrite Hc, H.
Qed.

Lemma all_chars_collapse (P : ascii -> bool) (s : string) :
  P " "%char = true -> all_chars P s = true ->
  forall b, all_chars P (Augment.collapse_go b s) = true.
Proof.
  intros Hsp. induction s as [|c s IH]; [done|]. cbn.
  intros [Hc H]%andb_true_iff b.
  destruct (Py.isspace c).
  - destruct b; [by apply IH|]. cbn. rewrite Hsp. by apply IH.
  - cbn. rewrite Hc. by apply IH.
Qed.

Lemma cleanup_text_tidy (t : string) :
  Py.strip (Augment.cleanup_text t) = Augment.cleanup_text t /\
  Augment.single_spaced (Augment.cleanup_text t) = true.
Proof.
  unfold Augment.cleanup_text. split; [apply strip_idem|].
  unfold Augment.single_spaced, Py.strip.
  apply single_spaced_rstrip, (single_spaced_lstrip _ false), collapse_single_spaced.
Qed.

Lemma cleanup_text_fixed (s : string) :
  Py.strip s = s -> Augment.single_spaced s = true -> Augment.cleanup_text s = s.
Proof.
  intros Hs Ht. unfold Augment.cleanup_text.
  rewrite collapse_fixed; [done|]. by apply single_spaced_weaken.
Qed.

(** X13. [cleanup_text] normalizes white space and nothing else: its result
    has no white space at either end, and inside only single spaces, never
    two in a row; the characters that are not white space are those of the
    input, in order; a text already in that form is returned as it is, so
    cleaning twice changes nothing.  The variant of 4_extract_from_pdf.py
    gives the same result on a text without NUL characters. *)
Theorem cleanup_text_normalizes (t : string) :
  Py.strip (Augment.cleanup_text t) = Augment.cleanup_text t /\
  Augment.single_spaced (Augment.cleanup_text t) = true /\
  Py.keep not_space (Augment.cleanup_text t) = Py.keep not_space t /\
  Augment.cleanup_text (Augment.cleanup_text t) = Augment.cleanup_text t /\
  (all_chars Augment.not_nul t = true ->
     Augment.cleanup_text_nul t = Augment.cleanup_text t).
Proof.
  destruct (cleanup_text_tidy t) as [Hs Ht].
  split; [done|]. split; [done|]. split; [|split].
  - unfold Augment.cleanup_text.
    rewrite keep_strip by apply not_space_spec. apply keep_collapse.
  - by apply cleanup_text_fixed.
  - intros Hnul. unfold Augment.cleanup_text_nul. fold (Augment.cleanup_text t).
    apply keep_all_chars. unfold Augment.cleanup_text, Py.strip.
    by apply all_chars_rstrip, all_chars_lstrip, all_chars_collapse.
Qed.

(** ** The snippets cut from a document *)

Lemma lstrip_length (s : string) : String.length (Py.lstrip s) <= String.length s.
Proof.
  induction s as [|c s IH]; [done|]. cbn. destruct (Py.isspace c); cbn; lia.
Qed.

Lemma rstrip_length (s : string) : String.length (Py.rstrip s) <= String.length s.
Proof.
  induction s as [|c s IH]; [done|]. cbn.
  destruct (Py.rstrip s); [destruct (Py.isspace c)|]; cbn in *; lia.
Qed.

Lemma strip_length (s : string) : String.length (Py.strip s) <= String.length s.
Proof.
  unfold Py.strip. etrans; [apply rstrip_length|apply lstrip_length].
Qed.

Lemma take_length_le (n : nat) (s : string) : String.length (Py.take n s) <= n.
Proof.
  revert s. induction n as [|n IH]; intros [|c s]; cbn; try lia.
  specialize (IH s). lia.
Qed.

Lemma rfind_space_lt (s : string) (stop i : nat) :
  Augment.rfind_space s stop = Some i -> i < stop.
Proof.
  revert s i. induction stop as [|stop IH]; intros [|c s] i; cbn; try done.
  destruct (Augment.rfind_space s stop) as [j|] eqn:E.
  - intros [= <-]. apply IH in E. lia.
  - destruct (Ascii.eqb c " "); [|done]. intros [= <-]. lia.
Qed.

Lemma strip_head_ok (s : string) : head_ok (Py.strip s).
Proof. apply rstrip_head_ok, lstrip_head_ok. Qed.

Lemma rstrip_nonempty (s : string) : head_ok s -> s <> "" -> Py.rstrip s <> "".
Proof.
  destruct s as [|c s]; [done|]. cbn. intros -> _. by destruct (Py.rstrip s).
Qed.

Lemma strip_nonempty (s : string) : head_ok s -> s <> "" -> Py.strip s <> "".
Proof.
  intros Hh Hne. unfold Py.strip. rewrite lstrip_fixed by done.
  by apply rstrip_nonempty.
Qed.

Lemma take_head_ok (n : nat) (s : string) : head_ok s -> head_ok (Py.take n s).
Proof. destruct n, s; cbn; done. Qed.

Lemma take_nonempty (n : nat) (s : string) :
  1 <= n -> s <> "" -> Py.take n s <> "".
Proof. destruct n, s; cbn; try done; lia. Qed.

Lemma chunk_step_ok (min_len max_len : nat) (st : string * list string)
  (part : string * string) :
  Forall (chunk_ok min_len max_len) st.2 ->
  Forall (chunk_ok min_len max_len) (Augment.chunk_step min_len max_len st part).2.
Proof.
  destruct st as [buf out], part as [segment punct]. cbn [snd]. intros Hout.
  unfold Augment.chunk_step.
  set (candidate := Py.strip (buf +:+ segment +:+ punct)).
  destruct (String.length candidate <? min_len) eqn:Hmin; [done|].
  apply Nat.ltb_ge in Hmin.
  destruct (String.length candidate <=? max_len) eqn:Hmax; cbn [snd].
  - apply Nat.leb_le in Hmax. apply Forall_app. split; [done|].
    apply Forall_singleton. unfold candidate. rewrite strip_idem.
    fold candidate. repeat split; [done|apply strip_idem|].
    intros Hm Hc. rewrite Hc in Hmin. cbn in Hmin. lia.
  - apply Nat.leb_gt in Hmax. apply Forall_app. split; [done|].
    apply Forall_singleton.
    set (cut := match Augment.rfind_space candidate max_len with
                | Some i => if i <? min_len then max_len else i
                | None => max_len
                end).
    assert (cut <= max_len /\ (min_len <= max_len -> min_len <= cut)) as [Hcut Hcut'].
    { unfold cut. destruct (Augment.rfind_space candidate max_len) as [i|] eqn:E; [|lia].
      apply rfind_space_lt in E.
      destruct (i <? min_len) eqn:Hi; [lia|]. apply Nat.ltb_ge in Hi. lia. }
    repeat split.
    + etrans; [apply strip_length|]. etrans; [apply take_length_le|done].
    + apply strip_idem.
    + intros Hm. apply strip_nonempty.
      * apply take_head_ok, strip_head_ok.
      * apply take_nonempty; [lia|]. intros Hc. rewrite Hc in Hmax. cbn in Hmax. lia.
Qed.

Lemma chunk_fold_ok (min_len max_len : nat) (parts : list (string * string)) :
  forall st : string * list string,
    Forall (chunk_ok min_len max_len) st.2 ->
    Forall (chunk_ok min_len max_len)
      (foldl (Augment.chunk_step min_len max_len) st parts).2.
Proof.
  induction parts as [|part parts IH]; intros st Hst; [done|].
  cbn [foldl]. by apply IH, chunk_step_ok.
Qed.

Lemma chunks_ok (cleanup : string -> string) (t : string) (min_len max_len : nat) :
  Forall (chunk_ok min_len max_len)
    (Augment.chunk_text_to_range cleanup t min_len max_len).
Proof.
  unfold Augment.chunk_text_to_range.
  destruct (negb (Py.truthy (cleanup t))); [constructor|].
  pose proof (chunk_fold_ok min_len max_len (Augment.sentences (cleanup t))
                ("", []) ltac:(constructor)) as H.
  destruct (foldl _ _ _) as [buf out]. cbn [snd] in H.
  destruct (_ && _) eqn:E; [|exact H].
  apply andb_true_iff in E as [Hmin Hmax].
  apply Nat.leb_le in Hmin, Hmax.
  apply Forall_app. split; [exact H|]. apply Forall_singleton.
  repeat split; [done|apply strip_idem|].
  intros Hm Hc. rewrite Hc in Hmin. cbn in Hmin. lia.
Qed.

(** X14. Every chunk [chunk_text_to_range] yields, for any text and any
    bounds, has at most [max_len] characters and no white space at either
    end; when 1 <= min_len <= max_len (as with the defaults 200 and 500) no
    chunk is empty. *)
Theorem chunks_within_max (cleanup : string -> string) (t : string)
  (min_len max_len : nat) :
  Forall (fun ch =>
            String.length ch <= max_len /\ Py.strip ch = ch /\
            (1 <= min_len <= max_len -> ch <> ""))
    (Augment.chunk_text_to_range cleanup t min_len max_len).
Proof. apply chunks_ok. Qed.

Example chunk_example :
  Augment.chunk_text_to_range Augment.cleanup_text
    "One two.  Three   four five!  Six seven eight nine? Ten." 8 14
  = ["One two."; "Three four"; "five!  Six"; "seven eight"; "nine?  Ten."].
Proof. vm_compute. reflexivity. Qed.

(** ** Merging a comment into a snippet *)

Lemma take_drop_string (n : nat) (s : string) : Py.take n s +:+ Py.drop n s = s.
Proof.
  revert s. induction n as [|n IH]; intros [|c s]; try done.
  cbn. by rewrite append_cons, IH.
Qed.

Lemma space_positions_spec (s : string) :
  forall i p, p ∈ Augment.space_positions i s ->
    exists k c rest, p = i + k /\ Py.drop k s = String c rest /\ Py.isspace c = true.
Proof.
  induction s as [|c s IH]; intros i p; cbn; [by intros ?%elem_of_nil|].
  assert (Htail : p ∈ Augment.space_positions (S i) s ->
    exists k c' rest, p = i + k /\ Py.drop k (String c s) = String c' rest
                      /\ Py.isspace c' = true).
  { intros (k & c' & rest & -> & Hd & Hc)%IH. exists (S k), c', rest.
    split; [lia|done]. }
  destruct (Py.isspace c) eqn:E; [|done].
  intros [->|H]%elem_of_cons; [|by apply Htail].
  exists 0, c, s. split; [lia|done].
Qed.

Lemma strip_fixed_parts (s : string) :
  Py.strip s = s -> head_ok s /\ Py.rstrip s = s.
Proof.
  intros Hs. assert (head_ok s) as Hh by (rewrite <- Hs; apply strip_head_ok).
  split; [done|]. unfold Py.strip in Hs. by rewrite lstrip_fixed in Hs.
Qed.

Lemma rstrip_fixed_tail (c : ascii) (s : string) :
  Py.rstrip (String c s) = String c s -> Py.rstrip s = s.
Proof.
  cbn. destruct (Py.rstrip s) as [|d r] eqn:E.
  - destruct (Py.isspace c); [discriminate|]. by intros [= <-].
  - by intros [= <-].
Qed.

Lemma rstrip_fixed_drop (k : nat) (s : string) :
  Py.rstrip s = s -> Py.rstrip (Py.drop k s) = Py.drop k s.
Proof.
  revert s. induction k as [|k IH]; intros s Hs; [done|].
  destruct s as [|c s]; [done|]. cbn. by apply IH, (rstrip_fixed_tail c).
Qed.

Lemma head_ok_app (a b : string) : head_ok a -> a <> "" -> head_ok (a +:+ b).
Proof. destruct a as [|c a]; [done|]. by rewrite append_cons. Qed.

(** X15. When the insertion point is one of the white-space positions of a
    snippet that has no white space at its ends (as every chunk and the
    filler text), the comment goes into the merged text whole: the merged
    text is the snippet up to the position, then the comment exactly as
    given, then the rest of the snippet; the final [strip] removes nothing,
    both pieces of the snippet are non-empty, and the length is the sum of
    the two lengths. *)
Theorem merged_keeps_comment (snippet comments : string) (insert_pos : nat) :
  Py.strip snippet = snippet ->
  insert_pos ∈ Augment.space_positions 0 snippet ->
  Augment.merged snippet comments insert_pos =
    Py.take insert_pos snippet +:+ comments +:+ Py.drop insert_pos snippet /\
  Py.take insert_pos snippet +:+ Py.drop insert_pos snippet = snippet /\
  Py.take insert_pos snippet <> "" /\ Py.drop insert_pos snippet <> "" /\
  String.length (Augment.merged snippet comments insert_pos) =
    String.length snippet + String.length comments.
Proof.
  intros Hs Hp.
  destruct (space_positions_spec _ _ _ Hp) as (k & c & rest & -> & Hd & Hc).
  cbn [plus] in *.
  destruct (strip_fixed_parts _ Hs) as [Hh Hr].
  assert (Py.take k snippet <> "") as Ha.
  { destruct k as [|k].
    - cbn in Hd. subst snippet. cbn in Hh. congruence.
    - destruct snippet; [done|]. done. }
  assert (Py.drop k snippet <> "") as Hb by (by rewrite Hd).
  assert (Augment.merged snippet comments k =
          Py.take k snippet +:+ comments +:+ Py.drop k snippet) as Hm.
  { unfold Augment.merged, Py.strip.
    rewrite lstrip_fixed by (apply head_ok_app; [by apply take_head_ok|done]).
    rewrite <- append_assoc. apply rstrip_app_fixed; [|done].
    by apply rstrip_fixed_drop. }
  split; [done|]. split; [apply take_drop_string|]. split; [done|]. split; [done|].
  rewrite Hm, !length_append.
  rewrite <- (take_drop_string k snippet) at 3. rewrite length_append. lia.
Qed.

Lemma merged_keeps_comment_witness :
  Augment.merged "the surrounding discussion" " password=hunter2 " 3 =
    Py.take 3 "the surrounding discussion" +:+ " password=hunter2 "
      +:+ Py.drop 3 "the surrounding discussion" /\
  Py.take 3 "the surrounding discussion" +:+ Py.drop 3 "the surrounding discussion"
    = "the surrounding discussion" /\
  Py.take 3 "the surrounding discussion" <> "" /\
  Py.drop 3 "the surrounding discussion" <> "" /\
  String.length (Augment.merged "the surrounding discussion" " password=hunter2 " 3) =
    String.length "the surrounding discussion" + String.length " password=hunter2 ".
Proof.
  apply merged_keeps_comment.
  - vm_compute. reflexivity.
  - apply (bool_decide_eq_true_1 _). vm_compute. reflexivity.
Defined.

Example cleanup_examples :
  Augment.cleanup_text "  a 	
 b  c " = "a b c" /\
  Augment.sentences "Hi. There! " = [("Hi", "."); (" There", "!"); (" ", "")] /\
  Augment.sentences "?!x" = [("", "?"); ("", "!"); ("x", "")] /\
  Augment.rfind_space "a b c" 3 = Some 1 /\ Augment.rfind_space "a b c" 4 = Some 3 /\
  Augment.rfind_space "a b c" 1 = None /\ Augment.rfind_space "ab " 99 = Some 2 /\
  Augment.space_positions 0 "ab c d" = [2; 4].
Proof. vm_compute. repeat split. Qed.

(** ** The neutral entries collected from the documents *)

Lemma take_chunks_ok (sens : string -> bool) (chunks : list string) :
  Forall (chunk_ok Augment.MIN_LEN Augment.MAX_LEN) chunks ->
  forall result,
    length result <= Extract.TARGET_COUNT -> Forall (entry_ok sens) result ->
    length (Extract.take_chunks sens chunks result) <= Extract.TARGET_COUNT /\
    Forall (entry_ok sens) (Extract.take_chunks sens chunks result).
Proof.
  induction 1 as [|ch chunks Hch _ IH]; intros result Hlen Hres; [done|].
  cbn [Extract.take_chunks].
  destruct (Extract.TARGET_COUNT <=? length result) eqn:E; [done|].
  apply Nat.leb_gt in E.
  destruct (sens ch) eqn:Es; [by apply IH|].
  apply IH.
  - rewrite length_app. cbn. lia.
  - apply Forall_app. split; [done|]. apply Forall_singleton.
    destruct Hch as (H1 & H2 & H3). repeat split; try done.
    apply H3. unfold Augment.MIN_LEN, Augment.MAX_LEN. lia.
Qed.

Lemma collect_ok (sens : string -> bool) (shuffle : nat -> list string -> list string) :
  (forall k l, shuffle k l ≡ₚ l) ->
  forall texts k result,
    length result <= Extract.TARGET_COUNT -> Forall (entry_ok sens) result ->
    length (Extract.collect sens shuffle k texts result) <= Extract.TARGET_COUNT /\
    Forall (entry_ok sens) (Extract.collect sens shuffle k texts result).
Proof.
  intros Hsh. induction texts as [|raw texts IH]; intros k result Hlen Hres; [done|].
  cbn [Extract.collect].
  destruct (Extract.TARGET_COUNT <=? length result); [done|].
  destruct raw as [raw|]; [|by apply IH].
  destruct (_ || _); [by apply IH|].
  destruct (take_chunks_ok sens
              (shuffle k (Augment.chunk_text_to_range Augment.cleanup_text_nul
                            (Augment.cleanup_text_nul raw) Augment.MIN_LEN Augment.MAX_LEN))
              ) with (result := result) as [H1 H2]; [|done|done|by apply IH].
  rewrite Hsh. apply chunks_ok.
Qed.

(** X16. Whatever the documents hold and however they and their chunks are
    shuffled, 4_extract_from_pdf.py collects at most [TARGET_COUNT] = 250
    entries, and the comment of each entry is a chunk that the sensitivity
    filter lets through, is not empty, has at most 500 characters and no
    white space at its ends. *)
Theorem collected_entries_bounded (sens : string -> bool)
  (shuffle : nat -> list string -> list string) (texts : list (option string)) :
  (forall k l, shuffle k l ≡ₚ l) ->
  length (Extract.collect sens shuffle 0 texts []) <= 250 /\
  Forall (fun ch => sens ch = false /\ String.length ch <= 500 /\
                    Py.strip ch = ch /\ ch <> "")
    (Extract.collect sens shuffle 0 texts []).
Proof.
  intros Hsh. apply (collect_ok sens shuffle Hsh); [cbn; lia|constructor].
Qed.

Lemma collected_entries_bounded_witness :
  length (Extract.collect (fun ch => Py.startswith ch "Bearer") (fun _ l => l) 0
            [None; Some "short"; Some FILLER] []) <= 250 /\
  Forall (fun ch => Py.startswith ch "Bearer" = false /\ String.length ch <= 500 /\
                    Py.strip ch = ch /\ ch <> "")
    (Extract.collect (fun ch => Py.startswith ch "Bearer") (fun _ l => l) 0
       [None; Some "short"; Some FILLER] []).
Proof. apply collected_entries_bounded. reflexivity. Defined.

Example collect_example :
  Extract.collect (fun ch => Py.startswith ch "Bearer") (fun _ l => l) 0
    [None; Some "short"; Some FILLER] []
  = ["In the context of this document, the surrounding discussion focuses on the " +:+
     "methodology, evaluation criteria, and limitations.  The following excerpt is " +:+
     "representative text used solely for formatting and consistency checks."] /\
  Extract.collect (fun ch => Py.startswith ch "In the") (fun _ l => l) 0
    [None; Some "short"; Some FILLER] [] = [] /\
  String.length FILLER = 221.
Proof. vm_compute. repeat split. Qed.

(** ** The snippet of an augmented item *)

(** X17. The snippet [get_random_clean_snippet] returns, whatever the
    documents hold and whichever chunk is drawn, is not empty and has no
    white space at its ends; it is either the filler text or a chunk of at
    most 500 characters that the sensitivity filter lets through. *)
Theorem snippet_is_clean (sens : string -> bool) (choice : list string -> string)
  (texts : list string) :
  (forall l, l <> [] -> choice l ∈ l) ->
  let snippet := get_random_clean_snippet sens choice texts in
  Py.strip snippet = snippet /\ snippet <> "" /\
  (snippet = FILLER \/ (sens snippet = false /\ String.length snippet <= 500)).
Proof.
  intros Hch. cbn zeta. induction texts as [|raw texts IH].
  - cbn [get_random_clean_snippet]. split; [by vm_compute|]. split; [done|by left].
  - cbn [get_random_clean_snippet]. destruct (_ || _); [exact IH|].
    destruct (filter _ _) as [|c chunks] eqn:E; [exact IH|].
    assert (Hin : choice (c :: chunks)
                  ∈ filter (fun c => negb (sens c))
                      (Augment.chunk_text_to_range Augment.cleanup_text raw
                         Augment.MIN_LEN Augment.MAX_LEN)) by (rewrite E; by apply Hch).
    apply list_elem_of_filter in Hin as [Hs Hin].
    pose proof (chunks_ok Augment.cleanup_text raw Augment.MIN_LEN Augment.MAX_LEN) as Hok.
    rewrite Forall_forall in Hok. destruct (Hok _ Hin) as (H1 & H2 & H3).
    split; [done|]. split.
    + apply H3. unfold Augment.MIN_LEN, Augment.MAX_LEN. lia.
    + right. split; [by destruct (sens (choice (c :: chunks)))|exact H1].
Qed.

Lemma snippet_is_clean_witness :
  let snippet := get_random_clean_snippet (fun ch => Py.startswith ch "Bearer")
                   (fun l => default "" (head l)) ["short"; FILLER +:+ " " +:+ FILLER] in
  Py.strip snippet = snippet /\ snippet <> "" /\
  (snippet = FILLER \/
   (Py.startswith snippet "Bearer" = false /\ String.length snippet <= 500)).
Proof.
  apply snippet_is_clean. intros [|x l] Hl; [done|]. cbn. apply elem_of_cons. by left.
Defined.

Example snippet_example :
  get_random_clean_snippet (fun ch => Py.startswith ch "Bearer")
    (fun l => default "" (head l)) ["short"; FILLER +:+ " " +:+ FILLER]
  = "In the context of this document, the surrounding discussion focuses on the " +:+
    "methodology, evaluation criteria, and limitations.  The following excerpt is " +:+
    "representative text used solely for formatting and consistency checks." /\
  get_random_clean_snippet (fun ch => Py.startswith ch "In the")
    (fun l => default "" (head l)) ["short"; FILLER +:+ "  " +:+ FILLER] = FILLER /\
  get_random_clean_snippet (fun ch => false)
    (fun l => default "" (head l)) ["short"; "no sentence long enough to be used as a chunk here"]
  = FILLER.
Proof. vm_compute. repeat split. Qed.

(** ** Augmented items *)

Lemma keep_not_space_nonempty (s : string) :
  head_ok s -> s <> "" -> Py.keep not_space s <> "".
Proof.
  destruct s as [|c s]; [done|]. cbn. intros Hc _. unfold not_space. by rewrite Hc.
Qed.

Lemma append_eq_nil (a b : string) : a +:+ b = "" -> a = "" /\ b = "".
Proof. destruct a; [by rewrite append_nil_l|by rewrite append_cons]. Qed.

Lemma merged_not_blank (snippet comments : string) (insert_pos : nat) :
  Py.strip snippet = snippet -> snippet <> "" ->
  Py.strip (Augment.merged snippet comments insert_pos) <> "".
Proof.
  intros Hs Hne. unfold Augment.merged. rewrite strip_idem.
  intros H. apply (f_equal (Py.keep not_space)) in H.
  rewrite keep_strip in H by apply not_space_spec.
  rewrite !keep_append in H. cbn in H.
  apply append_eq_nil in H as [Ha [_ Hb]%append_eq_nil].
  apply (keep_not_space_nonempty snippet); [by apply strip_fixed_parts|done|].
  by rewrite <- (take_drop_string insert_pos snippet), keep_append, Ha, Hb.
Qed.

(** X18. An item augmented with a snippet that is not empty and has no white
    space at its ends (every chunk, and the filler text) keeps all its other
    fields, hence the ground truth the scorer reads from it, and always has a
    text to classify: the scorer never treats it as a record with missing or
    empty comments, wherever the comment was inserted. *)
Theorem augment_item_classifiable (item new_item : record) (snippet : string)
  (insert_pos : nat) :
  Py.strip snippet = snippet -> snippet <> "" ->
  augment_item item snippet insert_pos = Some new_item ->
  ~ no_comment new_item /\
  parse_ground_truth_labels new_item = parse_ground_truth_labels item /\
  (forall key, key <> "comments" -> new_item !! key = item !! key).
Proof.
  intros Hs Hne. unfold augment_item.
  destruct (rec_get item "comments") as [| | |comments|]; try discriminate.
  intros [= <-]. split; [|split].
  - unfold no_comment. rewrite lookup_insert_eq. by apply merged_not_blank.
  - unfold parse_ground_truth_labels, rec_get. by rewrite lookup_insert_ne.
  - intros key Hkey. by rewrite lookup_insert_ne.
Qed.

Lemma augment_item_classifiable_witness :
  ~ no_comment (<["comments" := PyStr (Augment.merged "the surrounding discussion"
                                          "the admin password was hunter2" 3)]> rec_password) /\
  parse_ground_truth_labels
    (<["comments" := PyStr (Augment.merged "the surrounding discussion"
                              "the admin password was hunter2" 3)]> rec_password)
    = parse_ground_truth_labels rec_password /\
  (forall key, key <> "comments" ->
     (<["comments" := PyStr (Augment.merged "the surrounding discussion"
                               "the admin password was hunter2" 3)]> rec_password) !! key
     = rec_password !! key).
Proof.
  apply (augment_item_classifiable rec_password _ "the surrounding discussion" 3).
  - vm_compute. reflexivity.
  - discriminate.
  - reflexivity.
Defined.
